(** * Lizzen backend: the torrent-to-playable-audio pipeline

    A shallow embedding of the parts of [backend/index.js] that rank
    torrent candidates, resolve magnet links, register swarm handles,
    select an audio file, track background jobs, stream byte ranges and
    space out calls to the metadata service.

    Conventions of the embedding:
    - a JavaScript string is a [string] (a sequence of 8-bit characters;
      case mapping acts on the letters A-Z only);
    - a JavaScript number that the code only ever uses as an integer is a
      [Z]; a field that may be absent or not a number is an [option];
    - a [Map] is a [gmap]; an array is a [list];
    - [try]/[catch] is an explicit result type, a [Date] is its number of
      milliseconds. *)

From Stdlib Require Import ZArith QArith Qround String Ascii List Lia Bool.
From Stdlib Require Import Sorted Permutation OrderedTypeEx.
From Stdlib Require Import Decimal DecimalString DecimalPos DecimalN.
From stdpp Require Import gmap strings list.
Import ListNotations.

Open Scope string_scope.
Open Scope Z_scope.

(** ** JavaScript primitives used by the backend *)

Module Js.

(** [c] lies in the closed range of character codes [lo .. hi]. *)
Definition charBetween (lo hi : nat) (c : ascii) : bool :=
  (Nat.leb lo (nat_of_ascii c) && Nat.leb (nat_of_ascii c) hi)%bool.

Definition isDigit (c : ascii) : bool := charBetween 48 57 c.

(** The class [\s] of a regular expression, on 8-bit characters. *)
Definition isSpace (c : ascii) : bool :=
  (charBetween 9 13 c || Nat.eqb (nat_of_ascii c) 32)%bool.

Definition lowerChar (c : ascii) : ascii :=
  if charBetween 65 90 c then ascii_of_nat (nat_of_ascii c + 32) else c.

(** [s.toLowerCase()] *)
Fixpoint toLowerCase (s : string) : string :=
  match s with
  | EmptyString => EmptyString
  | String c r => String (lowerChar c) (toLowerCase r)
  end.

(** [s.startsWith(p)] *)
Definition startsWith (s p : string) : bool := String.prefix p s.

(** [s.includes(sub)] *)
Fixpoint includes (s sub : string) : bool :=
  if String.prefix sub s then true
  else match s with
       | EmptyString => false
       | String _ r => includes r sub
       end.

(** [s.endsWith(suf)] *)
Definition endsWith (s suf : string) : bool :=
  let n := String.length s in
  let k := String.length suf in
  (Nat.leb k n && String.eqb (String.substring (n - k) k s) suf)%bool.

(** [s.split(sep)] for a one-character separator. *)
Fixpoint splitOn (sep : ascii) (s : string) : list string :=
  match s with
  | EmptyString => [EmptyString]
  | String c r =>
      if Ascii.eqb c sep then EmptyString :: splitOn sep r
      else match splitOn sep r with
           | w :: ws => String c w :: ws
           | [] => [String c EmptyString]
           end
  end.

(** [s.split(/\s+/)]: [inSep] records that the previous character already
    belonged to the separator being skipped. *)
Fixpoint splitSpaces_from (inSep : bool) (s : string) : list string :=
  match s with
  | EmptyString => [EmptyString]
  | String c r =>
      if isSpace c then
        if inSep then splitSpaces_from true r
        else EmptyString :: splitSpaces_from true r
      else match splitSpaces_from false r with
           | w :: ws => String c w :: ws
           | [] => [String c EmptyString]
           end
  end.

Definition splitSpaces (s : string) : list string := splitSpaces_from false s.

(** [Math.round(x)]: the integer nearest to [x], halves going up. *)
Definition round (x : Q) : Z := Qfloor (x + (1 # 2)).

(** [x || 0] on a numeric field that may be missing. *)
Definition orZero (x : option Z) : Z :=
  match x with Some n => n | None => 0 end.

(** [s || ''] on a string field that may be missing. *)
Definition orEmpty (x : option string) : string :=
  match x with Some s => s | None => EmptyString end.

(** [Array.prototype.sort(cmp)]: the sort is stable, and an element [x]
    precedes [y] when [cmp x y <= 0]. *)
Fixpoint insertBy {A : Type} (cmp : A -> A -> Z) (x : A) (l : list A) : list A :=
  match l with
  | [] => [x]
  | y :: r => if cmp x y <=? 0 then x :: l else y :: insertBy cmp x r
  end.

Definition sortBy {A : Type} (cmp : A -> A -> Z) (l : list A) : list A :=
  fold_right (insertBy cmp) [] l.

Fixpoint takeWhile (p : ascii -> bool) (s : string) : string :=
  match s with
  | EmptyString => EmptyString
  | String c r => if p c then String c (takeWhile p r) else EmptyString
  end.

Fixpoint dropWhile (p : ascii -> bool) (s : string) : string :=
  match s with
  | EmptyString => EmptyString
  | String c r => if p c then dropWhile p r else s
  end.

(** [s.substring(n)] *)
Fixpoint dropChars (n : nat) (s : string) : string :=
  match n, s with
  | O, _ => s
  | S k, String _ r => dropChars k r
  | S _, EmptyString => EmptyString
  end.

(** [s.replace(pat, '')] for a literal pattern: the first occurrence goes. *)
Fixpoint removeFirst (pat s : string) : string :=
  if String.prefix pat s then dropChars (String.length pat) s
  else match s with
       | EmptyString => EmptyString
       | String c r => String c (removeFirst pat r)
       end.

Fixpoint allChars (p : ascii -> bool) (s : string) : bool :=
  match s with
  | EmptyString => true
  | String c r => (p c && allChars p r)%bool
  end.

(** The value of the leading decimal digits of [s], continuing from [acc]. *)
Fixpoint digitsValue (acc : Z) (s : string) : Z :=
  match s with
  | EmptyString => acc
  | String c r =>
      if isDigit c
      then digitsValue (acc * 10 + (Z.of_nat (nat_of_ascii c) - 48)) r
      else acc
  end.

(** [parseInt(s, 10)]: white space is skipped, a sign is read, then as many
    digits as there are; [None] stands for [NaN]. Integers are exact. *)
Definition parseInt (s : string) : option Z :=
  let t := dropWhile isSpace s in
  let signed :=
    match t with
    | String "-"%char r => (-1, r)
    | String "+"%char r => (1, r)
    | _ => (1, t)
    end in
  match snd signed with
  | String c _ =>
      if isDigit c then Some (fst signed * digitsValue 0 (snd signed)) else None
  | EmptyString => None
  end.

(** The decimal text of an integer, as a template literal prints it. *)
Definition numberToString (n : Z) : string :=
  NilZero.string_of_int (Z.to_int n).

(** [s] between double quotes (character code 34). *)
Definition quoted (s : string) : string :=
  String "034"%char (s +:+ String "034"%char EmptyString).

(** [a.slice(0, n)] *)
Definition slice0 {A : Type} (n : nat) (l : list A) : list A := firstn n l.

End Js.

(** ** Facts about the sort *)

Section SortBy.
Context {A : Type} (cmp : A -> A -> Z).

Lemma insertBy_perm (x : A) (l : list A) :
  Permutation (Js.insertBy cmp x l) (x :: l).
Proof.
  induction l as [|y r IH]; simpl.
  - apply Permutation_refl.
  - destruct (cmp x y <=? 0).
    + apply Permutation_refl.
    + apply perm_trans with (y :: x :: r).
      * now apply perm_skip.
      * apply perm_swap.
Qed.

Lemma sortBy_perm (l : list A) : Permutation (Js.sortBy cmp l) l.
Proof.
  induction l as [|x r IH]; simpl.
  - apply perm_nil.
  - apply perm_trans with (x :: Js.sortBy cmp r).
    + apply insertBy_perm.
    + now apply perm_skip.
Qed.

Lemma sortBy_In (l : list A) (x : A) : In x (Js.sortBy cmp l) <-> In x l.
Proof.
  split; apply Permutation_in.
  - apply sortBy_perm.
  - apply Permutation_sym, sortBy_perm.
Qed.

Lemma sortBy_length (l : list A) : List.length (Js.sortBy cmp l) = List.length l.
Proof. apply Permutation_length, sortBy_perm. Qed.

Lemma sortBy_nil_iff (l : list A) : Js.sortBy cmp l = [] <-> l = [].
Proof.
  split; intros H.
  - apply length_zero_iff_nil. rewrite <- sortBy_length, H. reflexivity.
  - subst l. reflexivity.
Qed.

Lemma StronglySorted_firstn (R : A -> A -> Prop) (n : nat) (l : list A) :
  StronglySorted R l -> StronglySorted R (firstn n l).
Proof.
  intros Hs. revert n. induction Hs as [|a r Hs IH Hall]; intros [|n]; simpl;
    try constructor.
  - apply IH.
  - apply List.Forall_forall. intros b Hb.
    apply (proj1 (List.Forall_forall _ _) Hall).
    rewrite <- (firstn_skipn n r). apply in_or_app. now left.
Qed.

Lemma StronglySorted_firstn_skipn (R : A -> A -> Prop) (n : nat) (l : list A) :
  StronglySorted R l ->
  forall a b, In a (firstn n l) -> In b (skipn n l) -> R a b.
Proof.
  intros Hs. revert n. induction Hs as [|x r Hs IH Hall]; intros n a b Ha Hb.
  - destruct n; contradiction.
  - destruct n as [|n]; simpl in Ha, Hb; [contradiction|].
    destruct Ha as [<-|Ha].
    + apply (proj1 (List.Forall_forall _ _) Hall).
      rewrite <- (firstn_skipn n r). apply in_or_app. now right.
    + now apply (IH n).
Qed.

Lemma StronglySorted_weaken (R S : A -> A -> Prop) (l : list A) :
  (forall a b, R a b -> S a b) -> StronglySorted R l -> StronglySorted S l.
Proof.
  intros HRS. induction 1 as [|a r Hs IH Hall]; constructor.
  - exact IH.
  - eapply List.Forall_impl; [|exact Hall]. intros b. apply HRS.
Qed.

(** A comparator that orders: any two elements compare one way or the
    other, and the order is transitive. *)
Hypothesis cmp_total : forall x y, cmp x y <= 0 \/ cmp y x <= 0.
Hypothesis cmp_trans : forall x y z, cmp x y <= 0 -> cmp y z <= 0 -> cmp x z <= 0.

Lemma insertBy_sorted (x : A) (l : list A) :
  StronglySorted (fun a b => cmp a b <= 0) l ->
  StronglySorted (fun a b => cmp a b <= 0) (Js.insertBy cmp x l).
Proof.
  induction 1 as [|y r Hs IH Hall]; simpl.
  - repeat constructor.
  - destruct (Z.leb_spec (cmp x y) 0) as [Hle|Hgt].
    + constructor.
      * now constructor.
      * constructor; [exact Hle|].
        apply List.Forall_forall. intros z Hz.
        apply cmp_trans with y; [exact Hle|].
        now apply (proj1 (List.Forall_forall _ _) Hall).
    + constructor; [exact IH|].
      apply List.Forall_forall. intros z Hz.
      apply (Permutation_in _ (insertBy_perm x r)) in Hz.
      destruct Hz as [<-|Hz].
      * destruct (cmp_total x y); [lia|assumption].
      * now apply (proj1 (List.Forall_forall _ _) Hall).
Qed.

Lemma sortBy_sorted (l : list A) :
  StronglySorted (fun a b => cmp a b <= 0) (Js.sortBy cmp l).
Proof.
  induction l as [|x r IH]; simpl.
  - constructor.
  - now apply insertBy_sorted.
Qed.



End SortBy.

(** ** Facts about numbers and their decimal text *)

Section DecimalText.

Lemma digitsValue_of_uint_acc (d : Decimal.uint) (acc : positive) :
  Js.digitsValue (Z.pos acc) (NilEmpty.string_of_uint d)
  = Z.pos (Pos.of_uint_acc d acc).
Proof.
  revert acc. induction d as [|d IH|d IH|d IH|d IH|d IH|d IH|d IH|d IH|d IH|d IH];
    intros acc; [reflexivity|..];
    cbn [NilEmpty.string_of_uint Js.digitsValue Pos.of_uint_acc];
    match goal with
    | |- (if Js.isDigit ?c then _ else _) = _ =>
        change (Js.isDigit c) with true; cbv iota
    end;
    rewrite <- IH; f_equal; vm_compute Z.of_nat; lia.
Qed.

Lemma digitsValue_of_uint (d : Decimal.uint) :
  Js.digitsValue 0 (NilEmpty.string_of_uint d) = Z.of_N (Pos.of_uint d).
Proof.
  induction d as [|d IH|d IH|d IH|d IH|d IH|d IH|d IH|d IH|d IH|d IH];
    [reflexivity|exact IH|..];
    cbn [NilEmpty.string_of_uint Js.digitsValue Pos.of_uint];
    match goal with
    | |- (if Js.isDigit ?c then _ else _) = _ =>
        change (Js.isDigit c) with true; cbv iota
    end;
    apply (digitsValue_of_uint_acc d).
Qed.

Lemma string_of_uint_digits (d : Decimal.uint) :
  Js.allChars Js.isDigit (NilEmpty.string_of_uint d) = true.
Proof. induction d; simpl; auto. Qed.

(** The decimal text of a positive number: digits only, at least one. *)
Lemma pos_text (p : positive) :
  exists c r,
    NilZero.string_of_uint (Pos.to_uint p) = String c r /\
    NilEmpty.string_of_uint (Pos.to_uint p) = String c r /\
    Js.isDigit c = true /\ Js.allChars Js.isDigit r = true.
Proof.
  pose proof (DecimalPos.Unsigned.to_uint_nonnil p) as Hnn.
  pose proof (string_of_uint_digits (Pos.to_uint p)) as Hd.
  destruct (Pos.to_uint p) as [|d|d|d|d|d|d|d|d|d|d]; [contradiction|..];
    simpl in *; eauto 10.
Qed.

Lemma isDigit_not_space (c : ascii) : Js.isDigit c = true -> Js.isSpace c = false.
Proof.
  unfold Js.isDigit, Js.isSpace, Js.charBetween.
  destruct (Nat.leb_spec 48 (nat_of_ascii c)); [|discriminate].
  destruct (Nat.leb_spec (nat_of_ascii c) 57); [|discriminate]. intros _.
  destruct (Nat.leb_spec (nat_of_ascii c) 13); [lia|].
  rewrite andb_false_r. simpl. apply Nat.eqb_neq. lia.
Qed.

Lemma isDigit_not_char (c x : ascii) :
  Js.isDigit x = false -> Js.isDigit c = true -> Ascii.eqb c x = false.
Proof.
  intros Hx Hc. destruct (Ascii.eqb_spec c x) as [->|]; [congruence|reflexivity].
Qed.

(** Printing and parsing a non-negative integer gives it back. *)
Lemma parseInt_numberToString (n : Z) :
  0 <= n -> Js.parseInt (Js.numberToString n) = Some n.
Proof.
  intros Hn. destruct n as [|p|p]; [reflexivity| |lia].
  unfold Js.numberToString, Js.parseInt. cbn [Z.to_int NilZero.string_of_int].
  destruct (pos_text p) as (c & r & E & E' & Hc & Hr). rewrite E.
  cbn [Js.dropWhile]. rewrite (isDigit_not_space c Hc).
  assert (Hm : Ascii.eqb c "-"%char = false) by (now apply isDigit_not_char).
  assert (Hp : Ascii.eqb c "+"%char = false) by (now apply isDigit_not_char).
  assert (Hsigned :
    match String c r with
    | String "-"%char r0 => (-1, r0)
    | String "+"%char r0 => (1, r0)
    | _ => (1, String c r)
    end = (1, String c r)).
  { destruct (Ascii.eqb_spec c "-"%char) as [->|]; [discriminate|].
    destruct (Ascii.eqb_spec c "+"%char) as [->|]; [discriminate|].
    destruct c as [[] [] [] [] [] [] [] []]; try reflexivity; congruence. }
  rewrite Hsigned. cbn [fst snd]. rewrite Hc.
  rewrite <- E', digitsValue_of_uint, DecimalPos.Unsigned.of_to.
  reflexivity.
Qed.

Lemma numberToString_digits (n : Z) :
  0 <= n ->
  exists c r, Js.numberToString n = String c r /\
    Js.allChars Js.isDigit (String c r) = true.
Proof.
  intros Hn. destruct n as [|p|p]; [exists "0"%char, EmptyString; now split| |lia].
  destruct (pos_text p) as (c & r & E & _ & Hc & Hr).
  exists c, r. split; [exact E|]. simpl. now rewrite Hc, Hr.
Qed.

(** Splitting at a separator that the first part does not contain. *)
Lemma splitOn_app (sep : ascii) (a b : string) :
  Js.allChars (fun c => negb (Ascii.eqb c sep)) a = true ->
  Js.splitOn sep (a +:+ String sep b) = a :: Js.splitOn sep b.
Proof.
  induction a as [|c r IH]; simpl; intros H.
  - now rewrite Ascii.eqb_refl.
  - apply andb_true_iff in H. destruct H as [Hc Hr].
    apply negb_true_iff in Hc. rewrite Hc, (IH Hr). reflexivity.
Qed.

Lemma splitOn_whole (sep : ascii) (a : string) :
  Js.allChars (fun c => negb (Ascii.eqb c sep)) a = true ->
  Js.splitOn sep a = [a].
Proof.
  induction a as [|c r IH]; simpl; intros H; [reflexivity|].
  apply andb_true_iff in H. destruct H as [Hc Hr].
  apply negb_true_iff in Hc. rewrite Hc, (IH Hr). reflexivity.
Qed.

Lemma allChars_weaken (p q : ascii -> bool) (s : string) :
  (forall c, p c = true -> q c = true) ->
  Js.allChars p s = true -> Js.allChars q s = true.
Proof.
  intros Hpq. induction s as [|c r IH]; simpl; [reflexivity|].
  intros H. apply andb_true_iff in H. destruct H as [Hc Hr].
  now rewrite (Hpq c Hc), (IH Hr).
Qed.

Lemma digits_no_dash (s : string) :
  Js.allChars Js.isDigit s = true ->
  Js.allChars (fun c => negb (Ascii.eqb c "-"%char)) s = true.
Proof.
  apply allChars_weaken. intros c Hc.
  apply negb_true_iff. now apply isDigit_not_char.
Qed.

End DecimalText.

(** ** Torrent candidates and the two ranking variants *)

Module Ranking.

(** One result of the indexer, with the fields the ranking reads. A field
    is [None] when the indexer left it out or it is not a number (for
    [publishDate]: when [new Date] of it is invalid). *)
Record Torrent : Type := mkTorrent {
  title : option string;
  seeders : option Z;
  leechers : option Z;
  size : option Z;
  publishDate : option Z;
  downloadUrl : option string
}.

(** The object built by the scoring step of [/api/find-best-torrent]:
    the candidate with [score], [titleSimilarity], [seeders] and
    [ageInDays] attached. *)
Record RankedTorrent : Type := mkRanked {
  torrent : Torrent;
  score : Z;
  titleSimilarity : Z;
  rankedSeeders : Z;
  ageInDays : Z
}.

(** The target of a search. *)
Record Target : Type := mkTarget {
  trackTitle : string;
  artistName : string;
  albumTitle : option string
}.

Definition dayMs : Z := 24 * 60 * 60 * 1000.

(** [twoDaysAgo] of the handler, for the current time [now]. *)
Definition twoDaysAgo (now : Z) : Z := now - 2 * dayMs.

(** The first [filter] of the precise path: old enough and seeded. *)
Definition isOldEnough (now : Z) (t : Torrent) : bool :=
  match publishDate t with
  | Some d => d <=? twoDaysAgo now
  | None => false
  end.

Definition hasActiveSeeder (t : Torrent) : bool := 0 <? Js.orZero (seeders t).

Definition eligible (now : Z) (t : Torrent) : bool :=
  (isOldEnough now t && hasActiveSeeder t)%bool.

(** Words of the track title, and how many of them (longer than two
    characters) occur in the candidate's title. *)
Definition titleWords (tg : Target) : list string :=
  Js.splitSpaces (Js.toLowerCase (trackTitle tg)).

Definition matchedWords (tg : Target) (ttl : string) : nat :=
  List.length (List.filter
    (fun w => (Nat.ltb 2 (String.length w) && Js.includes ttl w)%bool)
    (titleWords tg)).

Definition similarity (tg : Target) (ttl : string) : Q :=
  if Nat.ltb 0 (List.length (titleWords tg))
  then (inject_Z (Z.of_nat (matchedWords tg ttl))
        / inject_Z (Z.of_nat (List.length (titleWords tg))))%Q
  else 0%Q.

(** A truthy string: defined and not empty. *)
Definition nonEmpty (s : string) : bool := negb (String.eqb s EmptyString).

Definition artistBonus (tg : Target) (ttl : string) : Z :=
  let artistLower := Js.toLowerCase (artistName tg) in
  if (nonEmpty artistLower && Js.includes ttl artistLower)%bool then 500 else 0.

Definition albumBonus (tg : Target) (ttl : string) : Z :=
  match albumTitle tg with
  | Some a =>
      if (nonEmpty a && Js.includes ttl (Js.toLowerCase a))%bool then 300 else 0
  | None => 0
  end.

Definition formatBonus (ttl : string) : Z :=
  if Js.includes ttl "flac" then 200
  else if Js.includes ttl "mp3" then 100 else 0.

Definition sizePenalty (t : Torrent) : Z :=
  if 500 <? Js.orZero (size t) then -200 else 0.

(** [now - publishDate], in milliseconds; the filter has already removed
    the candidates without a valid date. *)
Definition ageMs (now : Z) (t : Torrent) : Z := now - Js.orZero (publishDate t).

Definition ageBonus (now : Z) (t : Torrent) : Z :=
  if 30 * dayMs <? ageMs now t then 50 else 0.

Definition ratioBonus (t : Torrent) : Z :=
  let s := Js.orZero (seeders t) in
  let l := Js.orZero (leechers t) in
  if ((0 <? s) && (0 <? l) && (2 * l <? s))%bool then 100 else 0.

(** The unrounded score accumulated by the [map] step, on exact rationals
    (the code adds the same terms in double precision). *)
Definition rawScore (now : Z) (tg : Target) (t : Torrent) : Q :=
  let ttl := Js.toLowerCase (Js.orEmpty (title t)) in
  (inject_Z (Js.orZero (seeders t) * 10)
   + similarity tg ttl * 1000
   + inject_Z (artistBonus tg ttl)
   + inject_Z (albumBonus tg ttl)
   + inject_Z (formatBonus ttl)
   + inject_Z (sizePenalty t)
   + inject_Z (ageBonus now t)
   + inject_Z (ratioBonus t))%Q.

Definition scoreTorrent (now : Z) (tg : Target) (t : Torrent) : RankedTorrent :=
  let ttl := Js.toLowerCase (Js.orEmpty (title t)) in
  {| torrent := t;
     score := Js.round (rawScore now tg t);
     titleSimilarity := Js.round (similarity tg ttl * 100);
     rankedSeeders := Js.orZero (seeders t);
     ageInDays := Js.round (inject_Z (ageMs now t) / inject_Z dayMs) |}.

(** The comparator [(a, b) => b.score - a.score]. *)
Definition byScoreDesc (a b : RankedTorrent) : Z := score b - score a.

(** The whole chain of the handler:
    [allTorrents.filter(..).map(..).filter(t => t.score > 0).sort(..)]. *)
Definition scoredTorrents (now : Z) (tg : Target) (allTorrents : list Torrent)
  : list RankedTorrent :=
  Js.sortBy byScoreDesc
    (List.filter (fun r => 0 <? score r)
       (List.map (scoreTorrent now tg)
          (List.filter (eligible now) allTorrents))).

(** *** The light variant: [scoreAndFilterTorrents] *)

(** A candidate with the [score] field attached: [{ ...torrent, score }]. *)
Record Scored : Type := mkScored {
  scoredTorrent : Torrent;
  lightScore : Z
}.

Definition scoredDesc (a b : Scored) : Z := lightScore b - lightScore a.

(** The chain of [if]/[else if] on the seeder count. *)
Definition seederBonus (s : Z) : Z :=
  if 50 <? s then 100
  else if 20 <? s then 80
  else if 10 <? s then 60
  else if 5 <? s then 40
  else if 0 <? s then 20
  else 0.

Definition longWord (w : string) : bool := Nat.ltb 2 (String.length w).

(** [searchTerms.split(' ').filter(word => word.length > 2)] and the
    [forEach] that adds 15 for each of these words found in the title. *)
Definition searchWords (searchTerms : string) : list string :=
  List.filter longWord (Js.splitOn " "%char searchTerms).

Definition wordPoints (ttl : string) (words : list string) : Z :=
  fold_left (fun acc w => if Js.includes ttl w then acc + 15 else acc) words 0.

Definition scoreLight (searchTerms : string) (t : Torrent) : Z :=
  let ttl := Js.toLowerCase (Js.orEmpty (title t)) in
  seederBonus (Js.orZero (seeders t)) + wordPoints ttl (searchWords searchTerms).

Definition scoreAndFilterTorrents
  (torrents : list Torrent) (artist track : string) (album : option string)
  : list Scored :=
  let activeTorrents := List.filter hasActiveSeeder torrents in
  let searchTerms :=
    Js.toLowerCase (artist +:+ " " +:+ track +:+ " " +:+ Js.orEmpty album) in
  Js.sortBy scoredDesc
    (List.map (fun t => mkScored t (scoreLight searchTerms t)) activeTorrents).

(** The light variant in the words of the specification: a step bonus of
    100/80/60/40/20 for more than 50/20/10/5/0 seeders, plus 15 for every
    query word longer than two characters that the title contains. *)
Definition specSeederStep (s : Z) : Z :=
  if 50 <? s then 100 else if 20 <? s then 80 else if 10 <? s then 60
  else if 5 <? s then 40 else if 0 <? s then 20 else 0.

Definition specSharedWords (query ttl : string) : list string :=
  List.filter (fun w => (longWord w && Js.includes ttl w)%bool)
    (Js.splitOn " "%char query).

Definition specLightScore (query : string) (t : Torrent) : Z :=
  specSeederStep (Js.orZero (seeders t))
  + 15 * Z.of_nat (List.length
      (specSharedWords (Js.toLowerCase query)
         (Js.toLowerCase (Js.orEmpty (title t))))).

(** *** The scoring of the album pre-loader in [/api/artist-details] *)

Definition mib : Z := 1024 * 1024.

(** The [forEach] over the query words: 15 for a word found in the title and
    10 more when it is one of the title's own space-separated words. *)
Definition preloadWordPoints (ttl : string) (queryWords : list string) : Z :=
  fold_left
    (fun acc w =>
       if longWord w then
         if Js.includes ttl w then
           if existsb (String.eqb w) (Js.splitOn " "%char ttl)
           then acc + 15 + 10 else acc + 15
         else acc
       else acc)
    queryWords 0.

(** [sizeMB] is [size / (1024 * 1024)]; the comparisons are taken on the
    byte count. *)
Definition preloadSizePoints (t : Torrent) : Z :=
  let sz := Js.orZero (size t) in
  if 0 <? sz then
    if ((50 * mib <=? sz) && (sz <=? 500 * mib))%bool then 10
    else if ((500 * mib <? sz) && (sz <=? 1000 * mib))%bool then 5
    else 0
  else 0.

(** [ageDays] is [(Date.now() - publishDate) / 86400000]; the comparisons are
    taken on the milliseconds. *)
Definition preloadAgePoints (now : Z) (t : Torrent) : Z :=
  match publishDate t with
  | Some d =>
      let age := now - d in
      if age <? 30 * dayMs then 5
      else if age <? 90 * dayMs then 3
      else if age <? 365 * dayMs then 1
      else 0
  | None => 0
  end.

Definition preloadScore (now : Z) (searchQuery : string) (t : Torrent) : Z :=
  let ttl := Js.toLowerCase (Js.orEmpty (title t)) in
  let searchTermsLower := Js.toLowerCase searchQuery in
  seederBonus (Js.orZero (seeders t))
  + preloadWordPoints ttl (Js.splitOn " "%char searchTermsLower)
  + preloadSizePoints t
  + preloadAgePoints now t.

(** The per-album body up to [topTorrents]: filter on seeders, score, sort,
    keep twenty. *)
Definition preloadTopTorrents
  (now : Z) (artist albumName : string) (found : list Torrent) : list Scored :=
  let searchQuery := artist +:+ " " +:+ albumName in
  let torrents := List.filter hasActiveSeeder found in
  match torrents with
  | [] => []
  | _ =>
      Js.slice0 20
        (Js.sortBy scoredDesc
           (List.map (fun t => mkScored t (preloadScore now searchQuery t))
              torrents))
  end.

(** The query words that earn the pre-loader's extra ten points: found in
    the title and equal to one of the title's own words. *)
Definition exactWords (query ttl : string) : list string :=
  List.filter
    (fun w => (longWord w && Js.includes ttl w
               && existsb (String.eqb w) (Js.splitOn " "%char ttl))%bool)
    (Js.splitOn " "%char query).

Definition preloadExactPoints (query : string) (t : Torrent) : Z :=
  10 * Z.of_nat (List.length
    (exactWords (Js.toLowerCase query) (Js.toLowerCase (Js.orEmpty (title t))))).

(** The size bonus in the words of the amended claim, for a size in bytes:
    10 from 50 to 500 MiB, 5 above 500 and up to 1000 MiB, nothing
    otherwise. *)
Definition specSizeBonus (bytes : Z) : Z :=
  if ((50 * mib <=? bytes) && (bytes <=? 500 * mib))%bool then 10
  else if ((500 * mib <? bytes) && (bytes <=? 1000 * mib))%bool then 5
  else 0.

(** The age bonus in the words of the amended claim, for the time of
    publication in milliseconds, if there is one: 5 when the candidate is
    younger than 30 days, 3 when younger than 90 days, 1 when younger than
    365 days, nothing otherwise. *)
Definition specAgeBonus (now : Z) (published : option Z) : Z :=
  match published with
  | Some d =>
      if now - d <? 30 * dayMs then 5
      else if now - d <? 90 * dayMs then 3
      else if now - d <? 365 * dayMs then 1
      else 0
  | None => 0
  end.

(** A candidate on which the two scorings part: ten seeders, a title made of
    the two query words, 100 MiB, published five days ago. *)
Definition sampleCandidate : Torrent :=
  mkTorrent (Some "Artist Album FLAC") (Some 10) (Some 1)
    (Some (100 * mib)) (Some (95 * dayMs)) None.

(** *** Properties of the precise path *)

Lemma byScoreDesc_total (a b : RankedTorrent) :
  byScoreDesc a b <= 0 \/ byScoreDesc b a <= 0.
Proof. unfold byScoreDesc. lia. Qed.

Lemma byScoreDesc_trans (a b c : RankedTorrent) :
  byScoreDesc a b <= 0 -> byScoreDesc b c <= 0 -> byScoreDesc a c <= 0.
Proof. unfold byScoreDesc. lia. Qed.

Lemma eligible_spec (now : Z) (t : Torrent) :
  eligible now t = true <->
  0 < Js.orZero (seeders t) /\
  exists d, publishDate t = Some d /\ d <= now - 2 * dayMs.
Proof.
  unfold eligible, isOldEnough, hasActiveSeeder, twoDaysAgo.
  rewrite andb_true_iff, Z.ltb_lt. split.
  - intros [Hd Hs]. split; [exact Hs|].
    destruct (publishDate t) as [d|]; [|discriminate].
    exists d. split; [reflexivity|]. now apply Z.leb_le.
  - intros [Hs (d & -> & Hd)]. split; [|exact Hs]. now apply Z.leb_le.
Qed.

(** The spec's end-to-end scenario: a seeded FLAC release that is forty days
    old beats, and outlives, an unseeded release published today. *)
Example precise_scenario :
  let now := 100 * dayMs in
  let flac := mkTorrent (Some "Artist - Song (FLAC)") (Some 50) (Some 5)
                (Some 40) (Some (60 * dayMs)) None in
  let plain := mkTorrent (Some "Artist - Song") (Some 0) (Some 0)
                (Some 5) (Some now) None in
  List.map (fun r => (torrent r, score r))
    (scoredTorrents now (mkTarget "Song" "Artist" None) [flac; plain])
  = [(flac, 2350)].
Proof. vm_compute. reflexivity. Qed.

(** C2. Whatever the candidates and the target, the precise ranking path
    keeps exactly the candidates that have a seeder, were published at least
    two days ago and score above zero, each as often as it was found; it
    returns them sorted by score, highest first, and returns the empty list
    when none survives. *)
Theorem precise_ranking_filters_and_sorts
  (now : Z) (tg : Target) (allTorrents : list Torrent) :
  let out := scoredTorrents now tg allTorrents in
  (forall r, In r out <->
     exists t, In t allTorrents /\ r = scoreTorrent now tg t /\
       0 < Js.orZero (seeders t) /\
       (exists d, publishDate t = Some d /\ d <= now - 2 * dayMs) /\
       0 < score r) /\
  (forall r, In r out ->
     Js.orZero (seeders (torrent r)) <> 0 /\
     (forall d, publishDate (torrent r) = Some d -> ~ now - 2 * dayMs < d) /\
     ~ score r <= 0) /\
  StronglySorted (fun a b => score a >= score b) out /\
  Permutation out
    (List.filter (fun r => 0 <? score r)
       (List.map (scoreTorrent now tg) (List.filter (eligible now) allTorrents))) /\
  ((forall t, In t allTorrents ->
      ~ (eligible now t = true /\ 0 < score (scoreTorrent now tg t))) ->
   out = []).
Proof.
  intros out.
  assert (Hin : forall r, In r out <->
     exists t, In t allTorrents /\ r = scoreTorrent now tg t /\
       0 < Js.orZero (seeders t) /\
       (exists d, publishDate t = Some d /\ d <= now - 2 * dayMs) /\
       0 < score r).
  { intros r. unfold out, scoredTorrents.
    rewrite sortBy_In, filter_In, in_map_iff. split.
    - intros [(t & <- & Ht) Hs].
      apply filter_In in Ht. destruct Ht as [Ht He].
      apply eligible_spec in He. destruct He as [Hseed Hdate].
      exists t. repeat split; try assumption. now apply Z.ltb_lt.
    - intros (t & Ht & -> & Hseed & Hdate & Hs). split.
      + exists t. split; [reflexivity|].
        apply filter_In. split; [exact Ht|].
        apply eligible_spec. now split.
      + now apply Z.ltb_lt. }
  split; [exact Hin|]. split; [|split; [|split]].
  - intros r Hr. apply Hin in Hr.
    destruct Hr as (t & _ & Er & Hseed & (d & Hd & Hle) & Hs).
    assert (Et : torrent r = t) by (rewrite Er; reflexivity).
    rewrite Et. split; [lia|]. split; [|lia].
    intros d' Hd'. rewrite Hd in Hd'. injection Hd' as <-. lia.
  - unfold out, scoredTorrents.
    eapply StronglySorted_weaken;
      [|apply sortBy_sorted; [apply byScoreDesc_total|apply byScoreDesc_trans]].
    intros a b. unfold byScoreDesc. lia.
  - apply sortBy_perm.
  - intros Hnone. destruct out as [|r rest] eqn:E; [reflexivity|].
    exfalso.
    destruct (proj1 (Hin r) (or_introl eq_refl))
      as (t & Ht & -> & Hseed & Hdate & Hs).
    apply (Hnone t Ht). split; [|exact Hs].
    apply eligible_spec. now split.
Qed.

(** *** The light variant and the pre-loader's scoring *)

Lemma scoredDesc_total (a b : Scored) : scoredDesc a b <= 0 \/ scoredDesc b a <= 0.
Proof. unfold scoredDesc. lia. Qed.

Lemma scoredDesc_trans (a b c : Scored) :
  scoredDesc a b <= 0 -> scoredDesc b c <= 0 -> scoredDesc a c <= 0.
Proof. unfold scoredDesc. lia. Qed.

Lemma seederBonus_spec (s : Z) : seederBonus s = specSeederStep s.
Proof. reflexivity. Qed.

Lemma seederBonus_nonneg (s : Z) : 0 <= seederBonus s.
Proof. unfold seederBonus. repeat destruct (_ <? _); lia. Qed.

Lemma wordPoints_from (ttl : string) (ws : list string) (a : Z) :
  fold_left (fun acc w => if Js.includes ttl w then acc + 15 else acc) ws a
  = a + 15 * Z.of_nat (List.length (List.filter (Js.includes ttl) ws)).
Proof.
  revert a. induction ws as [|w r IH]; intros a; simpl.
  - lia.
  - rewrite IH. destruct (Js.includes ttl w); simpl List.length; lia.
Qed.

Lemma filter_filter_andb {X : Type} (p q : X -> bool) (l : list X) :
  List.filter q (List.filter p l) = List.filter (fun x => (p x && q x)%bool) l.
Proof.
  induction l as [|x r IH]; simpl; [reflexivity|].
  destruct (p x); simpl; [destruct (q x)|]; now rewrite IH.
Qed.

(** The light variant of the source is the light variant of the
    specification. *)
Lemma scoreLight_meets_spec (query : string) (t : Torrent) :
  scoreLight (Js.toLowerCase query) t = specLightScore query t.
Proof.
  unfold scoreLight, specLightScore, wordPoints, searchWords, specSharedWords.
  rewrite wordPoints_from, filter_filter_andb, seederBonus_spec. lia.
Qed.

Lemma preloadWordPoints_from (ttl : string) (ws : list string) (a : Z) :
  fold_left
    (fun acc w =>
       if longWord w then
         if Js.includes ttl w then
           if existsb (String.eqb w) (Js.splitOn " "%char ttl)
           then acc + 15 + 10 else acc + 15
         else acc
       else acc) ws a
  = a
    + 15 * Z.of_nat (List.length
        (List.filter (fun w => (longWord w && Js.includes ttl w)%bool) ws))
    + 10 * Z.of_nat (List.length
        (List.filter
           (fun w => (longWord w && Js.includes ttl w
                      && existsb (String.eqb w) (Js.splitOn " "%char ttl))%bool)
           ws)).
Proof.
  revert a. induction ws as [|w r IH]; intros a; simpl.
  - lia.
  - rewrite IH.
    destruct (longWord w); simpl; [|lia].
    destruct (Js.includes ttl w); simpl; [|lia].
    destruct (existsb _ _); simpl List.length; lia.
Qed.

Lemma preloadScore_decomposed (now : Z) (query : string) (t : Torrent) :
  preloadScore now query t
  = specLightScore query t
    + preloadExactPoints query t + preloadSizePoints t + preloadAgePoints now t.
Proof.
  unfold preloadScore, specLightScore, preloadExactPoints, preloadWordPoints,
    specSharedWords, exactWords.
  rewrite preloadWordPoints_from, seederBonus_spec. lia.
Qed.

Lemma preloadSizePoints_range (t : Torrent) : 0 <= preloadSizePoints t <= 10.
Proof.
  unfold preloadSizePoints.
  destruct (0 <? _); [|lia].
  destruct (_ && _)%bool; [lia|]. destruct (_ && _)%bool; lia.
Qed.

Lemma preloadAgePoints_range (now : Z) (t : Torrent) :
  0 <= preloadAgePoints now t <= 5.
Proof.
  unfold preloadAgePoints. destruct (publishDate t); [|lia].
  repeat destruct (_ <? _); lia.
Qed.

(** The size and age bonuses of the source are the tables of the amended
    claim. *)
Lemma preloadSizePoints_meets_spec (t : Torrent) :
  preloadSizePoints t = specSizeBonus (Js.orZero (size t)).
Proof.
  unfold preloadSizePoints, specSizeBonus, mib.
  destruct (Z.ltb_spec 0 (Js.orZero (size t))) as [|Hle]; [reflexivity|].
  destruct (Z.leb_spec (50 * (1024 * 1024)) (Js.orZero (size t))); [lia|].
  destruct (Z.ltb_spec (500 * (1024 * 1024)) (Js.orZero (size t))); [lia|].
  reflexivity.
Qed.

Lemma preloadAgePoints_meets_spec (now : Z) (t : Torrent) :
  preloadAgePoints now t = specAgeBonus now (publishDate t).
Proof. unfold preloadAgePoints, specAgeBonus. now destruct (publishDate t). Qed.

Lemma specSizeBonus_table (bytes : Z) :
  (50 * mib <= bytes <= 500 * mib -> specSizeBonus bytes = 10) /\
  (500 * mib < bytes <= 1000 * mib -> specSizeBonus bytes = 5) /\
  (bytes < 50 * mib \/ 1000 * mib < bytes -> specSizeBonus bytes = 0).
Proof.
  unfold specSizeBonus, mib.
  destruct (Z.leb_spec (50 * (1024 * 1024)) bytes);
    destruct (Z.leb_spec bytes (500 * (1024 * 1024)));
    destruct (Z.ltb_spec (500 * (1024 * 1024)) bytes);
    destruct (Z.leb_spec bytes (1000 * (1024 * 1024)));
    cbn [andb]; repeat split; intros; try reflexivity; lia.
Qed.

Lemma specAgeBonus_table (now d : Z) :
  (now - d < 30 * dayMs -> specAgeBonus now (Some d) = 5) /\
  (30 * dayMs <= now - d < 90 * dayMs -> specAgeBonus now (Some d) = 3) /\
  (90 * dayMs <= now - d < 365 * dayMs -> specAgeBonus now (Some d) = 1) /\
  (365 * dayMs <= now - d -> specAgeBonus now (Some d) = 0).
Proof.
  unfold specAgeBonus.
  destruct (Z.ltb_spec (now - d) (30 * dayMs));
    destruct (Z.ltb_spec (now - d) (90 * dayMs));
    destruct (Z.ltb_spec (now - d) (365 * dayMs));
    repeat split; intros; try reflexivity; unfold dayMs in *; lia.
Qed.

Lemma preloadExactPoints_nonneg (query : string) (t : Torrent) :
  0 <= preloadExactPoints query t.
Proof. unfold preloadExactPoints. lia. Qed.

Lemma preloadTopTorrents_unfold
  (now : Z) (artist albumName : string) (found : list Torrent) :
  preloadTopTorrents now artist albumName found
  = firstn 20
      (Js.sortBy scoredDesc
         (List.map
            (fun t => mkScored t (preloadScore now (artist +:+ " " +:+ albumName) t))
            (List.filter hasActiveSeeder found))).
Proof.
  unfold preloadTopTorrents, Js.slice0.
  destruct (List.filter hasActiveSeeder found); reflexivity.
Qed.

Example sampleCandidate_scores :
  specLightScore "Artist Album" sampleCandidate = 70 /\
  scoreLight (Js.toLowerCase "Artist Album") sampleCandidate = 70 /\
  preloadScore (100 * dayMs) "Artist Album" sampleCandidate = 105.
Proof. vm_compute. repeat split. Qed.

(** C8, as stated, fails: the pre-loader does not score every seeded
    candidate by the light variant alone. *)
Lemma preload_not_light_variant :
  ~ (forall (now : Z) (artist albumName : string) (found : list Torrent)
            (r : Scored),
       In r (preloadTopTorrents now artist albumName found) ->
       lightScore r
       = specLightScore (artist +:+ " " +:+ albumName) (scoredTorrent r)).
Proof.
  intros H.
  specialize (H (100 * dayMs) "Artist" "Album" [sampleCandidate]
                (mkScored sampleCandidate 105)).
  assert (Hin : In (mkScored sampleCandidate 105)
                  (preloadTopTorrents (100 * dayMs) "Artist" "Album"
                     [sampleCandidate])).
  { vm_compute. left. reflexivity. }
  apply H in Hin. vm_compute in Hin. discriminate Hin.
Qed.

(** C8, amended. For every album the pre-loader keeps only candidates with
    a seeder and scores each one by the light variant (the seeder step bonus
    plus 15 per query word longer than two characters found in the title)
    plus three further bonuses, none of them negative: 10 per such word that
    is also a whole word of the title; for the size, 10 from 50 to 500 MiB
    and 5 above 500 and up to 1000 MiB; for the age, 5, 3 or 1 for a
    candidate younger than 30, 90 or 365 days. The candidates are sorted by
    that score, highest first, and the first twenty are kept: every
    candidate left out scores no higher than any candidate kept. *)
Theorem preload_scoring_amended
  (now : Z) (artist albumName : string) (found : list Torrent) :
  let query := artist +:+ " " +:+ albumName in
  let scored :=
    List.map (fun t => mkScored t (preloadScore now query t))
      (List.filter hasActiveSeeder found) in
  let out := preloadTopTorrents now artist albumName found in
  (forall r, In r out ->
     let t := scoredTorrent r in
     let bytes := Js.orZero (size t) in
     In t found /\
     0 < Js.orZero (seeders t) /\
     (exists sizeBonus ageBonus,
        lightScore r
        = specLightScore query t + preloadExactPoints query t
          + sizeBonus + ageBonus /\
        (50 * mib <= bytes <= 500 * mib -> sizeBonus = 10) /\
        (500 * mib < bytes <= 1000 * mib -> sizeBonus = 5) /\
        (bytes < 50 * mib \/ 1000 * mib < bytes -> sizeBonus = 0) /\
        (publishDate t = None -> ageBonus = 0) /\
        (forall d, publishDate t = Some d ->
           (now - d < 30 * dayMs -> ageBonus = 5) /\
           (30 * dayMs <= now - d < 90 * dayMs -> ageBonus = 3) /\
           (90 * dayMs <= now - d < 365 * dayMs -> ageBonus = 1) /\
           (365 * dayMs <= now - d -> ageBonus = 0))) /\
     lightScore r
     = specLightScore query t + preloadExactPoints query t
       + specSizeBonus bytes + specAgeBonus now (publishDate t) /\
     0 <= preloadExactPoints query t /\
     0 <= specSizeBonus bytes <= 10 /\
     0 <= specAgeBonus now (publishDate t) <= 5 /\
     specLightScore query t <= lightScore r) /\
  List.length out = Nat.min 20 (List.length scored) /\
  StronglySorted (fun a b => lightScore a >= lightScore b) out /\
  exists rest,
    Permutation (out ++ rest)%list scored /\
    forall a b, In a out -> In b rest -> lightScore a >= lightScore b.
Proof.
  intros query scored out.
  assert (Eout : out = firstn 20 (Js.sortBy scoredDesc scored))
    by apply preloadTopTorrents_unfold.
  assert (Hsorted : StronglySorted (fun a b => lightScore a >= lightScore b)
                      (Js.sortBy scoredDesc scored)).
  { eapply StronglySorted_weaken;
      [|apply sortBy_sorted; [apply scoredDesc_total|apply scoredDesc_trans]].
    intros a b. unfold scoredDesc. lia. }
  split; [|split; [|split]].
  - intros r Hr. rewrite Eout in Hr.
    assert (Hr' : In r scored).
    { apply (sortBy_In scoredDesc).
      rewrite <- (firstn_skipn 20 (Js.sortBy scoredDesc scored)).
      apply in_or_app. now left. }
    apply in_map_iff in Hr'. destruct Hr' as (t & <- & Ht).
    apply filter_In in Ht. destruct Ht as [Ht Hs]. cbn [scoredTorrent lightScore].
    pose proof (preloadExactPoints_nonneg query t) as Hexact.
    pose proof (preloadSizePoints_range t) as Hsize.
    pose proof (preloadAgePoints_range now t) as Hage.
    pose proof (preloadScore_decomposed now query t) as Hscore.
    rewrite preloadSizePoints_meets_spec in Hsize, Hscore.
    rewrite preloadAgePoints_meets_spec in Hage, Hscore.
    unfold hasActiveSeeder in Hs. apply Z.ltb_lt in Hs.
    split; [exact Ht|]. split; [exact Hs|]. split.
    + exists (specSizeBonus (Js.orZero (size t))),
        (specAgeBonus now (publishDate t)).
      split; [exact Hscore|].
      destruct (specSizeBonus_table (Js.orZero (size t))) as (H10 & H5 & H0).
      split; [exact H10|]. split; [exact H5|]. split; [exact H0|]. split.
      * intros ->. reflexivity.
      * intros d ->. apply specAgeBonus_table.
    + split; [exact Hscore|]. split; [exact Hexact|].
      split; [exact Hsize|]. split; [exact Hage|]. lia.
  - rewrite Eout, length_firstn, sortBy_length. reflexivity.
  - rewrite Eout. now apply StronglySorted_firstn.
  - exists (skipn 20 (Js.sortBy scoredDesc scored)). split.
    + rewrite Eout, firstn_skipn. apply sortBy_perm.
    + intros a b Ha Hb. rewrite Eout in Ha.
      now apply (StronglySorted_firstn_skipn _ 20 _ Hsorted).
Qed.

End Ranking.

(** ** Exceptions

    A computation of the backend either completes with a value or throws an
    error carrying a message. *)

Module Exn.

Inductive Completion (A : Type) : Type :=
| Normal (a : A)
| Throw (message : string).

Arguments Normal {A} a.
Arguments Throw {A} message.

Definition bind {A B : Type} (c : Completion A) (k : A -> Completion B)
  : Completion B :=
  match c with
  | Normal a => k a
  | Throw m => Throw m
  end.

(** [try { c } catch (error) { handler(error.message) }] *)
Definition tryCatch {A : Type} (c : Completion A) (handler : string -> Completion A)
  : Completion A :=
  match c with
  | Normal a => Normal a
  | Throw m => handler m
  end.

End Exn.

Notation "'let*' x ':=' c 'in' k" := (Exn.bind c (fun x => k))
  (at level 10, x name, c at level 100, k at level 200).

(** ** The magnet resolver: [resolveMagnetUrl] *)

Module Resolver.
Import Exn.

(** [response.data]: a string, or anything else (parsed JSON, a buffer,
    nothing). *)
Inductive Body : Type :=
| TextBody (text : string)
| OtherBody.

Record Response : Type := mkResponse {
  status : Z;
  location : option string;
  data : Body
}.

(** What the network does with one request: it answers, or the request
    fails (connection refused, time-out, ...). *)
Inductive Fetch : Type :=
| Answered (response : Response)
| Failed (message : string).

(** [axios.get(url, { maxRedirects: 0, validateStatus })]: the promise is
    rejected on a network failure and on a status that [validateStatus]
    turns down. *)
Definition validateStatus (st : Z) : bool := ((200 <=? st) && (st <? 400))%bool.

Definition axiosGet (net : string -> Fetch) (url : string) : Completion Response :=
  match net url with
  | Answered r =>
      if validateStatus (status r) then Normal r
      else Throw "Request failed with status code"
  | Failed m => Throw m
  end.

(** The characters a magnet link may continue with: anything but a double
    quote (code 34), a single quote (code 39) and white space. *)
Definition magnetChar (c : ascii) : bool :=
  negb (Ascii.eqb c "034"%char || Ascii.eqb c "039"%char || Js.isSpace c).

(** [text.match(..)] with the pattern of the resolver: the leftmost place
    where [magnet:?] is followed by at least one character of the class
    above, and the longest run of them. *)
Fixpoint matchMagnet (text : string) : option string :=
  match text with
  | EmptyString => None
  | String _ r =>
      if String.prefix "magnet:?" text then
        match Js.takeWhile magnetChar (Js.dropChars 8 text) with
        | EmptyString => matchMagnet r
        | run => Some ("magnet:?" +:+ run)
        end
      else matchMagnet r
  end.

Definition isLocal (url : string) : bool :=
  (Js.includes url "localhost" || Js.includes url "127.0.0.1")%bool.

(** The body of the [try] block. *)
Definition resolveAttempt (net : string -> Fetch) (downloadUrl : string)
  : Completion string :=
  if Js.startsWith downloadUrl "magnet:" then Normal downloadUrl
  else if isLocal downloadUrl then
    let* response := axiosGet net downloadUrl in
    match location response with
    | Some l =>
        if Js.startsWith l "magnet:" then Normal l
        else match data response with
             | TextBody text =>
                 match matchMagnet text with
                 | Some magnetUrl => Normal magnetUrl
                 | None => Normal downloadUrl
                 end
             | OtherBody => Normal downloadUrl
             end
    | None =>
        match data response with
        | TextBody text =>
            match matchMagnet text with
            | Some magnetUrl => Normal magnetUrl
            | None => Normal downloadUrl
            end
        | OtherBody => Normal downloadUrl
        end
    end
  else Normal downloadUrl.

(** [resolveMagnetUrl]: the attempt, and the [catch] that returns the
    original URL. *)
Definition resolveMagnetUrl (net : string -> Fetch) (downloadUrl : string)
  : Completion string :=
  tryCatch (resolveAttempt net downloadUrl) (fun _ => Normal downloadUrl).

(** The response carries no magnet link: neither in the [Location] header
    nor in a textual body. *)
Definition noMagnetIn (r : Response) : Prop :=
  (forall l, location r = Some l -> Js.startsWith l "magnet:" = false) /\
  (forall text, data r = TextBody text -> matchMagnet text = None).

(** *** Properties of the resolver *)

Example resolve_magnet_unchanged :
  resolveMagnetUrl (fun _ => Failed "unreachable") "magnet:?xt=urn:btih:abc"
  = Normal "magnet:?xt=urn:btih:abc".
Proof. reflexivity. Qed.

Example resolve_from_redirect :
  resolveMagnetUrl
    (fun _ => Answered (mkResponse 302 (Some "magnet:?xt=urn:btih:abc") OtherBody))
    "http://localhost:9696/1/download?link=x"
  = Normal "magnet:?xt=urn:btih:abc".
Proof. reflexivity. Qed.

Example resolve_from_body :
  resolveMagnetUrl
    (fun _ => Answered (mkResponse 200 None
       (TextBody ("<a href=" +:+ Js.quoted "magnet:?xt=urn:btih:abc&dn=x" +:+ ">get</a>"))))
    "http://127.0.0.1:9696/1/download?link=x"
  = Normal "magnet:?xt=urn:btih:abc&dn=x".
Proof. vm_compute. reflexivity. Qed.

Example resolve_network_error :
  resolveMagnetUrl (fun _ => Failed "connect ECONNREFUSED")
    "http://localhost:9696/1/download?link=x"
  = Normal "http://localhost:9696/1/download?link=x".
Proof. reflexivity. Qed.

Lemma matchMagnet_cons (c : ascii) (r : string) :
  matchMagnet (String c r)
  = if String.prefix "magnet:?" (String c r) then
      match Js.takeWhile magnetChar (Js.dropChars 8 (String c r)) with
      | EmptyString => matchMagnet r
      | run => Some ("magnet:?" +:+ run)
      end
    else matchMagnet r.
Proof. reflexivity. Qed.

Lemma matchMagnet_startsWith (text m : string) :
  matchMagnet text = Some m -> Js.startsWith m "magnet:" = true.
Proof.
  induction text as [|c r IH]; [discriminate|].
  rewrite matchMagnet_cons.
  destruct (String.prefix "magnet:?" (String c r)); [|exact IH].
  destruct (Js.takeWhile magnetChar (Js.dropChars 8 (String c r))) as [|c' run];
    [exact IH|].
  intros H. injection H as <-. reflexivity.
Qed.

Lemma resolveAttempt_result (net : string -> Fetch) (url s : string) :
  resolveAttempt net url = Normal s ->
  s = url \/ Js.startsWith s "magnet:" = true.
Proof.
  unfold resolveAttempt.
  destruct (Js.startsWith url "magnet:") eqn:Hm.
  { intros H. injection H as <-. now left. }
  destruct (isLocal url).
  2:{ intros H. injection H as <-. now left. }
  destruct (axiosGet net url) as [r|m]; simpl; [|discriminate].
  assert (Hbody :
    match data r with
    | TextBody text =>
        match matchMagnet text with
        | Some magnetUrl => Normal magnetUrl
        | None => Normal url
        end
    | OtherBody => Normal url
    end = Normal s -> s = url \/ Js.startsWith s "magnet:" = true).
  { destruct (data r) as [text|].
    - destruct (matchMagnet text) as [m|] eqn:E; intros H; injection H as <-.
      + right. now apply matchMagnet_startsWith with text.
      + now left.
    - intros H. injection H as <-. now left. }
  destruct (location r) as [l|]; [|exact Hbody].
  destruct (Js.startsWith l "magnet:") eqn:Hl; [|exact Hbody].
  intros H. injection H as <-. now right.
Qed.

(** C3. For every input string and whatever the network does, the resolver
    completes with a string and never throws; an input that already starts
    with the magnet prefix comes back unchanged; and when the request fails
    or its answer holds no magnet link, the original input comes back
    unchanged. *)
Theorem resolveMagnetUrl_total_and_fallback
  (net : string -> Fetch) (downloadUrl : string) :
  (exists s, resolveMagnetUrl net downloadUrl = Normal s /\
     (s = downloadUrl \/ Js.startsWith s "magnet:" = true)) /\
  (Js.startsWith downloadUrl "magnet:" = true ->
     resolveMagnetUrl net downloadUrl = Normal downloadUrl) /\
  (forall m, net downloadUrl = Failed m ->
     resolveMagnetUrl net downloadUrl = Normal downloadUrl) /\
  (forall r, net downloadUrl = Answered r -> validateStatus (status r) = false ->
     resolveMagnetUrl net downloadUrl = Normal downloadUrl) /\
  (forall r, net downloadUrl = Answered r -> noMagnetIn r ->
     resolveMagnetUrl net downloadUrl = Normal downloadUrl) /\
  (isLocal downloadUrl = false ->
     resolveMagnetUrl net downloadUrl = Normal downloadUrl).
Proof.
  unfold resolveMagnetUrl.
  split; [|split; [|split; [|split; [|split]]]].
  - destruct (resolveAttempt net downloadUrl) as [s|m] eqn:E; simpl.
    + exists s. split; [reflexivity|]. now apply resolveAttempt_result with net.
    + exists downloadUrl. split; [reflexivity|now left].
  - intros Hm. unfold resolveAttempt. now rewrite Hm.
  - intros m Hnet. unfold resolveAttempt, axiosGet. rewrite Hnet.
    destruct (Js.startsWith downloadUrl "magnet:"); [reflexivity|].
    destruct (isLocal downloadUrl); reflexivity.
  - intros r Hnet Hst. unfold resolveAttempt, axiosGet. rewrite Hnet, Hst.
    destruct (Js.startsWith downloadUrl "magnet:"); [reflexivity|].
    destruct (isLocal downloadUrl); reflexivity.
  - intros r Hnet [Hloc Hbody]. unfold resolveAttempt, axiosGet. rewrite Hnet.
    destruct (Js.startsWith downloadUrl "magnet:"); [reflexivity|].
    destruct (isLocal downloadUrl); [|reflexivity].
    destruct (validateStatus (status r)); [|reflexivity]. simpl.
    destruct (location r) as [l|] eqn:El.
    + rewrite (Hloc l eq_refl).
      destruct (data r) as [text|] eqn:Ed; [|reflexivity].
      now rewrite (Hbody text eq_refl).
    + destruct (data r) as [text|] eqn:Ed; [|reflexivity].
      now rewrite (Hbody text eq_refl).
  - intros Hl. unfold resolveAttempt. rewrite Hl.
    destruct (Js.startsWith downloadUrl "magnet:"); reflexivity.
Qed.

End Resolver.

(** ** The swarm engine's objects *)

Module Swarm.

(** A file of a torrent: its name and its bytes. *)
Record File : Type := mkFile {
  name : string;
  bytes : list Byte.byte
}.

(** [file.length] *)
Definition fileLength (f : File) : Z := Z.of_nat (List.length (bytes f)).

(** A torrent object handed out by [torrentClient.add]. Two objects are the
    same object when their [instance] numbers agree. *)
Record Handle : Type := mkHandle {
  instance : nat;
  torrentName : string;
  files : list File;
  ready : bool
}.

End Swarm.

(** ** File selection in the stream-preparation paths *)

Module Selector.
Import Exn Swarm.

(** A value of the request body. *)
Inductive JsValue : Type :=
| JUndefined
| JNull
| JBool (b : bool)
| JNumber (n : Z)
| JString (s : string).

Definition truthy (v : JsValue) : bool :=
  match v with
  | JUndefined | JNull => false
  | JBool b => b
  | JNumber n => negb (n =? 0)
  | JString s => negb (String.eqb s EmptyString)
  end.

(** [n !== v] for a number [n]. *)
Definition differsFrom (n : Z) (v : JsValue) : bool :=
  match v with
  | JNumber m => negb (n =? m)
  | _ => true
  end.

(** The text of a value inside a template literal. *)
Definition render (v : JsValue) : string :=
  match v with
  | JUndefined => "undefined"
  | JNull => "null"
  | JBool true => "true"
  | JBool false => "false"
  | JNumber n => Js.numberToString n
  | JString s => s
  end.

(** [expectedFileCount && audioFiles.length !== expectedFileCount] *)
Definition countMismatch (expectedFileCount : JsValue) (audioCount : Z) : bool :=
  (truthy expectedFileCount && differsFrom audioCount expectedFileCount)%bool.

Definition audioExtensions : list string :=
  [".mp3"; ".flac"; ".wav"; ".m4a"; ".aac"; ".ogg"; ".wma"].

Definition isAudio (f : File) : bool :=
  existsb
    (fun ext => Js.endsWith (Js.toLowerCase (name f)) (Js.toLowerCase ext))
    audioExtensions.

(** [fileName] as the condition [if (fileName)] sees it. *)
Definition hinted (fileName : option string) : option string :=
  match fileName with
  | Some s => if String.eqb s EmptyString then None else Some s
  | None => None
  end.

Definition orElse {A : Type} (x y : option A) : option A :=
  match x with
  | Some a => Some a
  | None => y
  end.

(** One attempt of the track-number pattern, an optional word [track] with
    white space and then digits, at the start of [s]; case is ignored. The
    result is the text of the digits. *)
Definition trackNumberAt (s : string) : option string :=
  let afterWord :=
    if String.prefix "track" (Js.toLowerCase s)
    then Js.takeWhile Js.isDigit (Js.dropWhile Js.isSpace (Js.dropChars 5 s))
    else EmptyString in
  match afterWord with
  | String _ _ => Some afterWord
  | EmptyString =>
      match Js.takeWhile Js.isDigit s with
      | String c r => Some (String c r)
      | EmptyString => None
      end
  end.

(** [fileName.match(..)]: the leftmost place where the pattern applies. *)
Fixpoint trackNumberMatch (s : string) : option string :=
  match trackNumberAt s with
  | Some digits => Some digits
  | None =>
      match s with
      | EmptyString => None
      | String _ r => trackNumberMatch r
      end
  end.

(** [parseInt(trackNumberMatch[1])] *)
Definition trackNumberOf (fileName : string) : option Z :=
  match trackNumberMatch fileName with
  | Some digits => Js.parseInt digits
  | None => None
  end.

Definition isSeparator (c : ascii) : bool :=
  (Js.isSpace c || Ascii.eqb c "-"%char || Ascii.eqb c "."%char)%bool.

(** The [replace] that removes leading digits and the separators after
    them. *)
Definition stripTrackPrefix (s : string) : string :=
  match Js.takeWhile Js.isDigit s with
  | EmptyString => s
  | String _ _ => Js.dropWhile isSeparator (Js.dropWhile Js.isDigit s)
  end.

(** The answer of a stream preparation, with the fields that identify the
    selected file. *)
Record StreamInfo : Type := mkStreamInfo {
  fileName : string;
  fileSize : Z;
  totalTracks : Z
}.

(** What the synchronous handler sends. *)
Inductive Answer : Type :=
| NoAudioFiles
| FileCountMismatch (error : string)
| StreamReady (info : StreamInfo)
| InternalError (error : string).

(** A sample collation for examples: the order of character codes. *)
Definition codeOrder (a b : string) : Z :=
  match String_as_OT.cmp a b with
  | Lt => -1
  | Eq => 0
  | Gt => 1
  end.

Definition audio (n : string) : File := mkFile n [].

Definition fiveTracks : list File :=
  List.map audio ["e.mp3"; "b.mp3"; "a.flac"; "d.mp3"; "c.mp3"].

Section Selection.

(** [a.localeCompare(b)] is the collation of the host; the selection is
    modelled for whichever collation it is. *)
Variable localeCompare : string -> string -> Z.

Definition byName (a b : File) : Z := localeCompare (name a) (name b).

(** [[...audioFiles].sort((a, b) => a.name.localeCompare(b.name))] *)
Definition sortedAudioFiles (audioFiles : list File) : list File :=
  Js.sortBy byName audioFiles.

(** Stage 1: the same name, case ignored. *)
Definition exactMatch (hint : string) (audioFiles : list File) : option File :=
  List.find
    (fun f => String.eqb (Js.toLowerCase (name f)) (Js.toLowerCase hint))
    audioFiles.

(** Stage 2: one name contains the other, case ignored. *)
Definition partialMatch (hint : string) (audioFiles : list File) : option File :=
  List.find
    (fun f =>
       (Js.includes (Js.toLowerCase (name f)) (Js.toLowerCase hint)
        || Js.includes (Js.toLowerCase hint) (Js.toLowerCase (name f)))%bool)
    audioFiles.

(** Stage 3: the track number, 1-indexed into the sorted files. *)
Definition byTrackNumber (hint : string) (audioFiles : list File) : option File :=
  match trackNumberOf hint with
  | Some trackNumber =>
      let sorted := sortedAudioFiles audioFiles in
      if ((0 <? trackNumber)
          && (trackNumber <=? Z.of_nat (List.length sorted)))%bool
      then sorted !! Z.to_nat (trackNumber - 1)
      else None
  | None => None
  end.

(** Stage 4: the names with their track prefixes removed. *)
Definition fuzzyMatch (hint : string) (audioFiles : list File) : option File :=
  let cleanFileName := Js.toLowerCase (stripTrackPrefix hint) in
  List.find
    (fun f =>
       let cleanFile := Js.toLowerCase (stripTrackPrefix (name f)) in
       (Js.includes cleanFile cleanFileName
        || Js.includes cleanFileName cleanFile)%bool)
    audioFiles.

(** Stage 5: the first of the sorted files. *)
Definition fallbackFile (audioFiles : list File) : option File :=
  sortedAudioFiles audioFiles !! 0%nat.

(** [targetFile] before the fallback, in the [/api/stream-torrent]
    handler. *)
Definition matchedFile (hint : option string) (audioFiles : list File)
  : option File :=
  match hinted hint with
  | Some h =>
      orElse (exactMatch h audioFiles)
        (orElse (partialMatch h audioFiles)
           (orElse (byTrackNumber h audioFiles) (fuzzyMatch h audioFiles)))
  | None => None
  end.

(** [targetFile] of the handler; [None] is [undefined]. *)
Definition targetFile (hint : option string) (audioFiles : list File)
  : option File :=
  orElse (matchedFile hint audioFiles) (fallbackFile audioFiles).

(** [targetFile] in [processStreamRequest]: no fuzzy stage. *)
Definition targetFileReady (hint : option string) (audioFiles : list File)
  : option File :=
  orElse
    match hinted hint with
    | Some h =>
        orElse (exactMatch h audioFiles)
          (orElse (partialMatch h audioFiles) (byTrackNumber h audioFiles))
    | None => None
    end
    (fallbackFile audioFiles).

(** [targetFile] in [processStreamRequestAsync]: stages 1 and 2 only. *)
Definition targetFileAsync (hint : option string) (audioFiles : list File)
  : option File :=
  orElse
    match hinted hint with
    | Some h => orElse (exactMatch h audioFiles) (partialMatch h audioFiles)
    | None => None
    end
    (fallbackFile audioFiles).

Definition streamInfo (audioFiles : list File) (target : File) : StreamInfo :=
  {| fileName := name target;
     fileSize := fileLength target;
     totalTracks := Z.of_nat (List.length audioFiles) |}.

(** The [/api/stream-torrent] handler once the torrent is at hand: filter
    the audio files, validate the count, select. Reading [targetFile.name]
    of [undefined] throws, and the handler's [catch] answers 500. *)
Definition streamTorrentAnswer
  (torrentFiles : list File) (hint : option string) (expectedFileCount : JsValue)
  : Answer :=
  let audioFiles := List.filter isAudio torrentFiles in
  if Nat.eqb (List.length audioFiles) 0 then NoAudioFiles
  else if countMismatch expectedFileCount (Z.of_nat (List.length audioFiles))
  then FileCountMismatch
         ("Torrent file count mismatch: expected " +:+ render expectedFileCount
          +:+ " audio files, found "
          +:+ Js.numberToString (Z.of_nat (List.length audioFiles)))
  else match targetFile hint audioFiles with
       | Some target => StreamReady (streamInfo audioFiles target)
       | None => InternalError "Cannot read properties of undefined"
       end.

(** [processStreamRequest], which answers for a torrent that was ready. *)
Definition processStreamRequest
  (torrentFiles : list File) (hint : option string) (expectedFileCount : JsValue)
  : Answer :=
  let audioFiles := List.filter isAudio torrentFiles in
  if Nat.eqb (List.length audioFiles) 0 then NoAudioFiles
  else if countMismatch expectedFileCount (Z.of_nat (List.length audioFiles))
  then FileCountMismatch
         ("Torrent file count mismatch: expected " +:+ render expectedFileCount
          +:+ " audio files, found "
          +:+ Js.numberToString (Z.of_nat (List.length audioFiles)))
  else match targetFileReady hint audioFiles with
       | Some target => StreamReady (streamInfo audioFiles target)
       | None => InternalError "Cannot read properties of undefined"
       end.

(** [processStreamRequestAsync], which throws instead of answering. *)
Definition processStreamRequestAsync
  (torrentFiles : list File) (hint : option string) (expectedFileCount : JsValue)
  : Completion StreamInfo :=
  let audioFiles := List.filter isAudio torrentFiles in
  if Nat.eqb (List.length audioFiles) 0
  then Throw "No audio files found in torrent"
  else if countMismatch expectedFileCount (Z.of_nat (List.length audioFiles))
  then Throw ("File count mismatch: expected " +:+ render expectedFileCount
              +:+ ", found "
              +:+ Js.numberToString (Z.of_nat (List.length audioFiles)))
  else match targetFileAsync hint audioFiles with
       | Some target => Normal (streamInfo audioFiles target)
       | None => Throw "Cannot read properties of undefined"
       end.







(** [f] is the [N]th of the files, counting from 1, when they are put in
    the order of their names: the files can be arranged as [N - 1] files,
    then [f], then the others, so that every name comes before or equals
    every name after it. *)
Definition nthInNameOrder (N : Z) (f : File) (audioFiles : list File) : Prop :=
  exists before after,
    Permutation (before ++ f :: after) audioFiles /\
    Z.of_nat (List.length before) = N - 1 /\
    StronglySorted (fun a b => localeCompare (name a) (name b) <= 0)
      (before ++ f :: after).

(** *** Properties of the selection *)

Lemma orElse_Some_l {X : Type} (x y : option X) (a : X) :
  x = Some a -> orElse x y = Some a.
Proof. intros ->. reflexivity. Qed.

Lemma orElse_None_l {X : Type} (x y : option X) : x = None -> orElse x y = y.
Proof. intros ->. reflexivity. Qed.

Lemma orElse_elim {X : Type} (P : X -> Prop) (x y : option X) (a : X) :
  (forall b, x = Some b -> P b) -> (forall b, y = Some b -> P b) ->
  orElse x y = Some a -> P a.
Proof. destruct x as [b|]; simpl; intros Hx Hy H; [apply Hx|apply Hy]; exact H. Qed.

Lemma sorted_lookup_In (audioFiles : list File) (i : nat) (f : File) :
  sortedAudioFiles audioFiles !! i = Some f -> In f audioFiles.
Proof.
  intros H. apply (sortBy_In byName). apply list_elem_of_In.
  now apply list_elem_of_lookup_2 with i.
Qed.

Lemma sorted_length (audioFiles : list File) :
  List.length (sortedAudioFiles audioFiles) = List.length audioFiles.
Proof. apply sortBy_length. Qed.

Lemma fallbackFile_Some (audioFiles : list File) :
  audioFiles <> [] ->
  exists f, fallbackFile audioFiles = Some f /\ In f audioFiles.
Proof.
  intros Hne. unfold fallbackFile.
  destruct (lookup_lt_is_Some_2 (sortedAudioFiles audioFiles) 0) as [f Hf].
  - rewrite sorted_length. destruct audioFiles; [contradiction|simpl; lia].
  - exists f. split; [exact Hf|]. now apply sorted_lookup_In with 0%nat.
Qed.

Lemma exactMatch_In (h : string) (audioFiles : list File) (f : File) :
  exactMatch h audioFiles = Some f -> In f audioFiles.
Proof. intros H. now apply List.find_some in H. Qed.

Lemma partialMatch_In (h : string) (audioFiles : list File) (f : File) :
  partialMatch h audioFiles = Some f -> In f audioFiles.
Proof. intros H. now apply List.find_some in H. Qed.

Lemma fuzzyMatch_In (h : string) (audioFiles : list File) (f : File) :
  fuzzyMatch h audioFiles = Some f -> In f audioFiles.
Proof. intros H. now apply List.find_some in H. Qed.

(** The guard of stage 3, read back from its result. *)
Lemma byTrackNumber_Some (h : string) (audioFiles : list File) (f : File) :
  byTrackNumber h audioFiles = Some f ->
  exists n, trackNumberOf h = Some n /\
    1 <= n <= Z.of_nat (List.length audioFiles) /\
    sortedAudioFiles audioFiles !! Z.to_nat (n - 1) = Some f.
Proof.
  unfold byTrackNumber. destruct (trackNumberOf h) as [n|]; [|discriminate].
  rewrite sorted_length.
  destruct (0 <? n) eqn:Hpos; [|discriminate].
  destruct (n <=? Z.of_nat (List.length audioFiles)) eqn:Hle; [|discriminate].
  simpl. intros H. exists n.
  apply Z.ltb_lt in Hpos. apply Z.leb_le in Hle.
  split; [reflexivity|]. split; [lia|exact H].
Qed.

Lemma byTrackNumber_In (h : string) (audioFiles : list File) (f : File) :
  byTrackNumber h audioFiles = Some f -> In f audioFiles.
Proof.
  intros H. apply byTrackNumber_Some in H. destruct H as (n & _ & _ & H).
  now apply sorted_lookup_In in H.
Qed.

Lemma matchedFile_In (hint : option string) (audioFiles : list File) (f : File) :
  matchedFile hint audioFiles = Some f -> In f audioFiles.
Proof.
  unfold matchedFile. destruct (hinted hint) as [h|]; [|discriminate].
  revert f.
  assert (Hone : forall x y : option File,
            (forall b, x = Some b -> In b audioFiles) ->
            (forall b, y = Some b -> In b audioFiles) ->
            forall b, orElse x y = Some b -> In b audioFiles).
  { intros x y Hx Hy b. now apply (orElse_elim (fun b => In b audioFiles)). }
  apply Hone; [apply exactMatch_In|].
  apply Hone; [apply partialMatch_In|].
  apply Hone; [apply byTrackNumber_In|apply fuzzyMatch_In].
Qed.

(** The selector returns one of the files whenever there is a file. *)
Lemma targetFile_Some (hint : option string) (audioFiles : list File) :
  audioFiles <> [] ->
  exists f, targetFile hint audioFiles = Some f /\ In f audioFiles.
Proof.
  intros Hne. unfold targetFile.
  destruct (matchedFile hint audioFiles) as [f|] eqn:E; simpl.
  - exists f. split; [reflexivity|]. now apply matchedFile_In with hint.
  - now apply fallbackFile_Some.
Qed.

Lemma trackNumberOf_hinted (h : string) (n : Z) :
  trackNumberOf h = Some n -> hinted (Some h) = Some h.
Proof. destruct h; [discriminate|reflexivity]. Qed.

(** C10. An expected file count of 0 is falsy, so the validation is skipped
    entirely: the preparation behaves as if no count had been supplied, and
    no mismatch is reported whatever the number of audio files. *)
Theorem zero_expected_count_skips_validation
  (torrentFiles : list File) (hint : option string) :
  (forall audioCount, countMismatch (JNumber 0) audioCount = false) /\
  streamTorrentAnswer torrentFiles hint (JNumber 0)
  = streamTorrentAnswer torrentFiles hint JUndefined /\
  processStreamRequest torrentFiles hint (JNumber 0)
  = processStreamRequest torrentFiles hint JUndefined /\
  processStreamRequestAsync torrentFiles hint (JNumber 0)
  = processStreamRequestAsync torrentFiles hint JUndefined /\
  (forall e,
     streamTorrentAnswer torrentFiles hint (JNumber 0) <> FileCountMismatch e /\
     processStreamRequest torrentFiles hint (JNumber 0) <> FileCountMismatch e) /\
  (List.filter isAudio torrentFiles <> [] ->
     (exists info,
        streamTorrentAnswer torrentFiles hint (JNumber 0) = StreamReady info) /\
     (exists info,
        processStreamRequest torrentFiles hint (JNumber 0) = StreamReady info) /\
     (exists info,
        processStreamRequestAsync torrentFiles hint (JNumber 0) = Normal info)).
Proof.
  split; [reflexivity|]. split; [reflexivity|]. split; [reflexivity|].
  split; [reflexivity|].
  unfold streamTorrentAnswer, processStreamRequest, processStreamRequestAsync.
  change (countMismatch (JNumber 0) _) with false. cbv iota.
  split.
  - intros e. destruct (Nat.eqb _ 0); [split; discriminate|].
    destruct (targetFile hint _), (targetFileReady hint _); split; discriminate.
  - intros Hne.
    destruct (List.filter isAudio torrentFiles) as [|a r] eqn:E; [contradiction|].
    assert (Hne' : a :: r <> []) by discriminate.
    simpl Nat.eqb. cbv iota.
    destruct (fallbackFile_Some (a :: r) Hne') as (g & Hg & _).
    split; [|split].
    + destruct (targetFile_Some hint (a :: r) Hne') as (f & -> & _). eauto.
    + unfold targetFileReady. rewrite Hg.
      destruct (match hinted hint with Some h => _ | None => None end);
        simpl; eauto.
    + unfold targetFileAsync. rewrite Hg.
      destruct (match hinted hint with Some h => _ | None => None end);
        simpl; eauto.
Qed.

(** A comparator that orders the names. *)
Hypothesis localeCompare_total :
  forall a b, localeCompare a b <= 0 \/ localeCompare b a <= 0.
Hypothesis localeCompare_trans :
  forall a b c, localeCompare a b <= 0 -> localeCompare b c <= 0 ->
    localeCompare a c <= 0.



Lemma sorted_by_name (audioFiles : list File) :
  StronglySorted (fun a b => localeCompare (name a) (name b) <= 0)
    (sortedAudioFiles audioFiles).
Proof.
  unfold sortedAudioFiles.
  apply (sortBy_sorted byName); unfold byName; intros.
  - apply localeCompare_total.
  - eapply localeCompare_trans; eassumption.
Qed.

(** The file at place [i] of the sorted files is the file number [i + 1]
    in the order of the names. *)
Lemma sorted_lookup_nth (audioFiles : list File) (i : nat) (f : File) :
  sortedAudioFiles audioFiles !! i = Some f ->
  nthInNameOrder (Z.of_nat i + 1) f audioFiles.
Proof.
  intros Hf.
  exists (take i (sortedAudioFiles audioFiles)),
    (drop (S i) (sortedAudioFiles audioFiles)).
  rewrite (take_drop_middle _ _ _ Hf).
  split; [apply (sortBy_perm byName)|]. split; [|apply sorted_by_name].
  apply lookup_lt_Some in Hf. rewrite length_take. lia.
Qed.

(** C5. When a track number N is read from the hint, stage 3 selects a file
    only if 1 <= N <= count, and then it is the Nth file in the order of the
    names: N - 1 of the files have names that come before or equal its
    name, and its name comes before or equals the names of all the others.
    When N is outside that range the stage selects nothing and reads no
    element, the later stages decide, and the result is still one of the
    files. *)
Theorem track_number_selects_only_in_range
  (hint : string) (audioFiles : list File) (N : Z) :
  audioFiles <> [] ->
  trackNumberOf hint = Some N ->
  (forall f, byTrackNumber hint audioFiles = Some f ->
     1 <= N <= Z.of_nat (List.length audioFiles) /\
     sortedAudioFiles audioFiles !! Z.to_nat (N - 1) = Some f /\
     nthInNameOrder N f audioFiles) /\
  (1 <= N <= Z.of_nat (List.length audioFiles) ->
     (Z.to_nat (N - 1) < List.length (sortedAudioFiles audioFiles))%nat /\
     exists f, byTrackNumber hint audioFiles = Some f /\ In f audioFiles /\
       sortedAudioFiles audioFiles !! Z.to_nat (N - 1) = Some f /\
       nthInNameOrder N f audioFiles /\
       (exactMatch hint audioFiles = None ->
        partialMatch hint audioFiles = None ->
        targetFile (Some hint) audioFiles = Some f)) /\
  (~ 1 <= N <= Z.of_nat (List.length audioFiles) ->
     byTrackNumber hint audioFiles = None /\
     (exactMatch hint audioFiles = None ->
      partialMatch hint audioFiles = None ->
      targetFile (Some hint) audioFiles
      = orElse (fuzzyMatch hint audioFiles) (fallbackFile audioFiles)) /\
     exists f, targetFile (Some hint) audioFiles = Some f /\ In f audioFiles).
Proof.
  intros Hne HN.
  assert (Hstage : 1 <= N <= Z.of_nat (List.length audioFiles) ->
            byTrackNumber hint audioFiles
            = sortedAudioFiles audioFiles !! Z.to_nat (N - 1)).
  { intros [Hlo Hhi]. unfold byTrackNumber. rewrite HN, sorted_length.
    replace (0 <? N) with true by (symmetry; apply Z.ltb_lt; lia).
    replace (N <=? Z.of_nat (List.length audioFiles)) with true
      by (symmetry; apply Z.leb_le; lia).
    reflexivity. }
  assert (Hnth : forall f, 1 <= N ->
            sortedAudioFiles audioFiles !! Z.to_nat (N - 1) = Some f ->
            nthInNameOrder N f audioFiles).
  { intros f Hlo Hf. apply sorted_lookup_nth in Hf.
    now replace (Z.of_nat (Z.to_nat (N - 1)) + 1) with N in Hf by lia. }
  split; [|split].
  - intros f Hf. apply byTrackNumber_Some in Hf.
    destruct Hf as (n & Hn & Hrange & Hlook).
    rewrite HN in Hn. injection Hn as <-.
    split; [exact Hrange|]. split; [exact Hlook|]. apply Hnth; [lia|exact Hlook].
  - intros Hrange.
    assert (Hidx : (Z.to_nat (N - 1) < List.length (sortedAudioFiles audioFiles))%nat)
      by (rewrite sorted_length; lia).
    split; [exact Hidx|].
    destruct (lookup_lt_is_Some_2 _ _ Hidx) as [f Hf].
    exists f. rewrite (Hstage Hrange).
    split; [exact Hf|]. split; [now apply sorted_lookup_In in Hf|].
    split; [exact Hf|]. split; [apply Hnth; [lia|exact Hf]|].
    intros He Hp. unfold targetFile, matchedFile.
    rewrite (trackNumberOf_hinted _ _ HN), He, Hp, (Hstage Hrange), Hf.
    reflexivity.
  - intros Hout.
    assert (Hnone : byTrackNumber hint audioFiles = None).
    { destruct (byTrackNumber hint audioFiles) as [f|] eqn:E; [|reflexivity].
      apply byTrackNumber_Some in E. destruct E as (n & Hn & Hrange & _).
      rewrite HN in Hn. injection Hn as <-. contradiction. }
    split; [exact Hnone|]. split.
    + intros He Hp. unfold targetFile, matchedFile.
      rewrite (trackNumberOf_hinted _ _ HN), He, Hp, Hnone.
      destruct (fuzzyMatch hint audioFiles); reflexivity.
    + now apply targetFile_Some.
Qed.



End Selection.

Lemma codeOrder_total (a b : string) : codeOrder a b <= 0 \/ codeOrder b a <= 0.
Proof.
  unfold codeOrder. rewrite (String_as_OT.cmp_antisym a b).
  destruct (String_as_OT.cmp b a); simpl; lia.
Qed.

Lemma codeOrder_le (a b : string) :
  codeOrder a b <= 0 <-> a = b \/ String_as_OT.lt a b.
Proof.
  unfold codeOrder. destruct (String_as_OT.cmp a b) eqn:E; split; intros H.
  - left. now apply String_as_OT.cmp_eq.
  - lia.
  - right. now apply String_as_OT.cmp_lt.
  - lia.
  - lia.
  - exfalso. destruct H as [H|H].
    + apply String_as_OT.cmp_eq in H. congruence.
    + apply String_as_OT.cmp_lt in H. congruence.
Qed.

Lemma codeOrder_trans (a b c : string) :
  codeOrder a b <= 0 -> codeOrder b c <= 0 -> codeOrder a c <= 0.
Proof.
  rewrite !codeOrder_le. intros [->|Hab] [->|Hbc]; auto.
  right. now apply String_as_OT.lt_trans with b.
Qed.





(** The specification's examples of the track number: [Track 1] selects
    the file whose name comes first, not the file listed first; with five
    files, [Track 9] selects nothing at stage 3. *)
Lemma track_number_in_and_out_of_range_example :
  (exists f,
     byTrackNumber codeOrder "Track 1" [audio "b.mp3"; audio "a.flac"] = Some f /\
     name f = "a.flac" /\
     nthInNameOrder codeOrder 1 f [audio "b.mp3"; audio "a.flac"]) /\
  byTrackNumber codeOrder "Track 9" fiveTracks = None.
Proof.
  split.
  - destruct (track_number_selects_only_in_range codeOrder
                codeOrder_total codeOrder_trans "Track 1"
                [audio "b.mp3"; audio "a.flac"] 1)
      as (_ & Hin & _); [discriminate|vm_compute; reflexivity|].
    destruct Hin as (_ & f & Hf & _ & Hlook & Hnth & _);
      [vm_compute; split; discriminate|].
    exists f. split; [exact Hf|]. split; [|exact Hnth].
    vm_compute in Hlook. now injection Hlook as <-.
  - assert (Hne : fiveTracks <> []) by discriminate.
    assert (HN : trackNumberOf "Track 9" = Some 9) by (vm_compute; reflexivity).
    destruct (track_number_selects_only_in_range codeOrder
                codeOrder_total codeOrder_trans "Track 9" fiveTracks 9 Hne HN)
      as (_ & _ & Hout).
    apply Hout. vm_compute. intros [_ H]. apply H. reflexivity.
Defined.

Example track_number_examples :
  option_map name (targetFile codeOrder (Some "Track 3") fiveTracks)
  = Some "c.mp3" /\
  option_map name (targetFile codeOrder (Some "03 - Song") fiveTracks)
  = Some "c.mp3" /\
  option_map name (targetFile codeOrder (Some "Track 9") fiveTracks)
  = Some "a.flac".
Proof. vm_compute. repeat split. Qed.

(** The guard is a real one for a count that is not zero. *)
Example nonzero_expected_count_is_validated :
  streamTorrentAnswer codeOrder fiveTracks None (JNumber 4)
  = FileCountMismatch
      "Torrent file count mismatch: expected 4 audio files, found 5".
Proof. vm_compute. reflexivity. Qed.

End Selector.

(** ** The streaming responder: [GET /api/stream-file/:magnetLink/:fileName] *)

Module Streaming.
Import Swarm.

(** What the handler sends: a JSON error, or a status line, headers and the
    bytes piped from the file's stream. *)
Inductive Answer : Type :=
| JsonError (status : Z) (error : string)
| Streamed (status : Z) (headers : gmap string string) (body : list Byte.byte).

(** A number that may be [NaN], as a template literal prints it. *)
Definition renderNumber (x : option Z) : string :=
  match x with
  | Some n => Js.numberToString n
  | None => "NaN"
  end.

Definition lastOr (d : string) (l : list string) : string := List.last l d.

(** [getMimeType] *)
Definition getMimeType (filename : string) : string :=
  let ext := lastOr EmptyString (Js.splitOn "."%char (Js.toLowerCase filename)) in
  if String.eqb ext "mp3" then "audio/mpeg"
  else if String.eqb ext "flac" then "audio/flac"
  else if String.eqb ext "wav" then "audio/wav"
  else if String.eqb ext "m4a" then "audio/mp4"
  else if String.eqb ext "aac" then "audio/aac"
  else if String.eqb ext "ogg" then "audio/ogg"
  else if String.eqb ext "wma" then "audio/x-ms-wma"
  else "audio/mpeg".

(** Modelled from the spec: [file.createReadStream(opts)] belongs to the
    swarm engine, which is not code of this repository. Section 6 of the
    specification has every file "individually readable as a byte stream
    with start/end range support": the stream carries the bytes from offset
    [start] to offset [stop], both included. A bound that is missing or not
    a number stands for the beginning or the end of the file, and no byte
    exists past the end of the file. *)
Definition createReadStream (f : File) (start stop : option Z) : list Byte.byte :=
  let first := match start with Some s => Z.max 0 s | None => 0 end in
  let last :=
    match stop with
    | Some e => Z.min e (fileLength f - 1)
    | None => fileLength f - 1
    end in
  firstn (Z.to_nat (last - first + 1)) (skipn (Z.to_nat first) (bytes f)).

(** [parts] of the handler: the header without [bytes=], cut at the dashes. *)
Definition rangeParts (range : string) : list string :=
  Js.splitOn "-"%char (Js.removeFirst "bytes=" range).

Definition rangeStart (range : string) : option Z :=
  match rangeParts range with
  | p0 :: _ => Js.parseInt p0
  | [] => None
  end.

(** [parts[1] ? parseInt(parts[1], 10) : targetFile.length - 1] *)
Definition rangeEnd (range : string) (len : Z) : option Z :=
  match rangeParts range !! 1%nat with
  | Some p1 => if String.eqb p1 EmptyString then Some (len - 1) else Js.parseInt p1
  | None => Some (len - 1)
  end.

(** [(end - start) + 1] *)
Definition chunksize (start stop : option Z) : option Z :=
  match start, stop with
  | Some s, Some e => Some (e - s + 1)
  | _, _ => None
  end.

(** The headers set before the range is looked at. *)
Definition baseHeaders (fileName : string) (f : File) : gmap string string :=
  <["Cache-Control" := "no-cache"]>
    (<["Accept-Ranges" := "bytes"]>
       (<["Content-Length" := Js.numberToString (fileLength f)]>
          {["Content-Type" := getMimeType fileName]})).

Definition contentRange (start stop : option Z) (len : Z) : string :=
  "bytes " +:+ renderNumber start +:+ "-" +:+ renderNumber stop
  +:+ "/" +:+ Js.numberToString len.

(** The handler, for the decoded parameters and the [Range] header of the
    request ([None]: no such header). *)
Definition streamFile
  (activeTorrents : gmap string Handle) (magnetLink fileName : string)
  (range : option string) : Answer :=
  match activeTorrents !! magnetLink with
  | None => JsonError 404 "Torrent not found"
  | Some torrent =>
      match List.find (fun f => String.eqb (name f) fileName) (files torrent) with
      | None => JsonError 404 "File not found in torrent"
      | Some targetFile =>
          match range with
          | Some (String c r) =>
              let start := rangeStart (String c r) in
              let stop := rangeEnd (String c r) (fileLength targetFile) in
              Streamed 206
                (<["Content-Length" := renderNumber (chunksize start stop)]>
                   (<["Content-Range" :=
                        contentRange start stop (fileLength targetFile)]>
                      (baseHeaders fileName targetFile)))
                (createReadStream targetFile start stop)
          | _ =>
              Streamed 200 (baseHeaders fileName targetFile)
                (createReadStream targetFile None None)
          end
      end
  end.

(** The request header [bytes=s-e], and [bytes=s-] when only a start is
    given. *)
Definition rangeHeader (s : Z) (e : option Z) : string :=
  "bytes=" +:+ Js.numberToString s +:+ "-"
  +:+ match e with Some n => Js.numberToString n | None => EmptyString end.

(** A file of [n] zero bytes. *)
Definition blankFile (fileName : string) (n : nat) : File :=
  mkFile fileName (repeat Byte.x00 n).

Definition oneTorrent (magnetLink : string) (f : File) : gmap string Handle :=
  {[ magnetLink := mkHandle 0 "album" [f] true ]}.

(** A registry with one torrent of one file of 1000 bytes. *)
Definition sampleTorrents : gmap string Handle :=
  oneTorrent "magnet:?xt=urn:btih:abc" (blankFile "a.mp3" 1000).

(** *** Properties of the responder *)

Lemma removeFirst_bytes (x : string) :
  Js.removeFirst "bytes=" ("bytes=" +:+ x) = x.
Proof. destruct x; reflexivity. Qed.

Lemma rangeParts_closed (s e : Z) :
  0 <= s -> 0 <= e ->
  rangeParts (rangeHeader s (Some e))
  = [Js.numberToString s; Js.numberToString e].
Proof.
  intros Hs He. unfold rangeParts, rangeHeader.
  rewrite removeFirst_bytes.
  change ("-" +:+ ?x) with (String "-"%char x).
  destruct (numberToString_digits s Hs) as (c & r & Es & Hds).
  destruct (numberToString_digits e He) as (c' & r' & Ee & Hde).
  rewrite splitOn_app by (rewrite Es; now apply digits_no_dash).
  rewrite splitOn_whole by (rewrite Ee; now apply digits_no_dash).
  reflexivity.
Qed.

Lemma rangeParts_open (s : Z) :
  0 <= s ->
  rangeParts (rangeHeader s None) = [Js.numberToString s; EmptyString].
Proof.
  intros Hs. unfold rangeParts, rangeHeader.
  rewrite removeFirst_bytes.
  change ("-" +:+ ?x) with (String "-"%char x).
  destruct (numberToString_digits s Hs) as (c & r & Es & Hds).
  rewrite splitOn_app by (rewrite Es; now apply digits_no_dash).
  reflexivity.
Qed.

Lemma rangeHeader_truthy (s : Z) (e : option Z) :
  exists c r, rangeHeader s e = String c r.
Proof. unfold rangeHeader. simpl. eauto. Qed.

Lemma createReadStream_window (f : File) (s e : Z) :
  0 <= s -> s <= e -> e < fileLength f ->
  createReadStream f (Some s) (Some e)
  = firstn (Z.to_nat (e - s + 1)) (skipn (Z.to_nat s) (bytes f)) /\
  Z.of_nat (List.length (createReadStream f (Some s) (Some e))) = e - s + 1.
Proof.
  intros Hs Hse He. unfold createReadStream.
  rewrite Z.max_r, Z.min_l by lia. split; [reflexivity|].
  rewrite length_firstn, length_skipn. unfold fileLength in He. lia.
Qed.

Lemma createReadStream_whole (f : File) :
  createReadStream f None None = bytes f.
Proof.
  unfold createReadStream, fileLength.
  replace (Z.to_nat (Z.of_nat (List.length (bytes f)) - 1 - 0 + 1))
    with (List.length (bytes f)) by lia.
  simpl. apply firstn_all.
Qed.

(** C7, as stated, fails: for the header [bytes=0-1999] on a file of 1000
    bytes the answer is 206 with [Content-Range: bytes 0-1999/1000], but it
    does not carry 1999 - 0 + 1 bytes. *)
Lemma range_past_end_of_file :
  exists headers body,
    streamFile sampleTorrents "magnet:?xt=urn:btih:abc" "a.mp3"
      (Some (rangeHeader 0 (Some 1999)))
    = Streamed 206 headers body /\
    headers !! "Content-Range" = Some "bytes 0-1999/1000" /\
    Z.of_nat (List.length body) <> 1999 - 0 + 1.
Proof.
  eexists _, _. split; [vm_compute; reflexivity|].
  split; [vm_compute; reflexivity|]. vm_compute. discriminate.
Qed.

(** C7, amended. For a registered magnet link and an existing file of
    length L: a request with the header [bytes=s-e], where
    0 <= s <= e <= L - 1, is answered 206 with [Content-Range: bytes s-e/L]
    and exactly the e - s + 1 bytes of that window; with [bytes=s-], where
    0 <= s <= L - 1, the end is L - 1; and a request without the header is
    answered 200 with all L bytes. *)
Theorem range_request_within_file
  (activeTorrents : gmap string Handle) (magnetLink fileName : string)
  (torrent : Handle) (targetFile : File) :
  activeTorrents !! magnetLink = Some torrent ->
  List.find (fun f => String.eqb (name f) fileName) (files torrent)
  = Some targetFile ->
  let L := fileLength targetFile in
  (forall s e, 0 <= s -> s <= e -> e <= L - 1 ->
     exists headers body,
       streamFile activeTorrents magnetLink fileName
         (Some (rangeHeader s (Some e)))
       = Streamed 206 headers body /\
       headers !! "Content-Range"
       = Some ("bytes " +:+ Js.numberToString s +:+ "-" +:+ Js.numberToString e
               +:+ "/" +:+ Js.numberToString L) /\
       headers !! "Content-Length" = Some (Js.numberToString (e - s + 1)) /\
       body = firstn (Z.to_nat (e - s + 1)) (skipn (Z.to_nat s) (bytes targetFile)) /\
       Z.of_nat (List.length body) = e - s + 1) /\
  (forall s, 0 <= s -> s <= L - 1 ->
     exists headers body,
       streamFile activeTorrents magnetLink fileName (Some (rangeHeader s None))
       = Streamed 206 headers body /\
       headers !! "Content-Range"
       = Some ("bytes " +:+ Js.numberToString s +:+ "-"
               +:+ Js.numberToString (L - 1) +:+ "/" +:+ Js.numberToString L) /\
       body = skipn (Z.to_nat s) (bytes targetFile) /\
       Z.of_nat (List.length body) = L - s) /\
  (exists headers,
     streamFile activeTorrents magnetLink fileName None
     = Streamed 200 headers (bytes targetFile) /\
     headers !! "Content-Length" = Some (Js.numberToString L) /\
     headers !! "Content-Range" = None /\
     Z.of_nat (List.length (bytes targetFile)) = L).
Proof.
  intros Hreg Hfile L. split; [|split].
  - intros s e Hs Hse He.
    destruct (rangeHeader_truthy s (Some e)) as (c & r & Eh).
    assert (Hstart : rangeStart (rangeHeader s (Some e)) = Some s).
    { unfold rangeStart. rewrite rangeParts_closed by lia.
      now apply parseInt_numberToString. }
    assert (Hstop : rangeEnd (rangeHeader s (Some e)) L = Some e).
    { unfold rangeEnd. rewrite rangeParts_closed by lia. simpl.
      destruct (numberToString_digits e ltac:(lia)) as (c' & r' & Ee & _).
      rewrite Ee. simpl. rewrite <- Ee. apply parseInt_numberToString. lia. }
    destruct (createReadStream_window targetFile s e) as [Hbody Hlen];
      [lia|lia|fold L; lia|].
    unfold streamFile. rewrite Hreg, Hfile, Eh, <- Eh. fold L.
    rewrite Hstart, Hstop.
    eexists _, _. split; [reflexivity|].
    split; [|split; [|split]].
    + rewrite lookup_insert_ne by discriminate. now rewrite lookup_insert_eq.
    + now rewrite lookup_insert_eq.
    + exact Hbody.
    + exact Hlen.
  - intros s Hs HsL.
    destruct (rangeHeader_truthy s None) as (c & r & Eh).
    assert (Hstart : rangeStart (rangeHeader s None) = Some s).
    { unfold rangeStart. rewrite rangeParts_open by lia.
      now apply parseInt_numberToString. }
    assert (Hstop : rangeEnd (rangeHeader s None) L = Some (L - 1)).
    { unfold rangeEnd. rewrite rangeParts_open by lia. reflexivity. }
    destruct (createReadStream_window targetFile s (L - 1)) as [Hbody Hlen];
      [lia|lia|fold L; lia|].
    unfold streamFile. rewrite Hreg, Hfile, Eh, <- Eh. fold L.
    rewrite Hstart, Hstop.
    eexists _, _. split; [reflexivity|].
    split; [|split].
    + rewrite lookup_insert_ne by discriminate. now rewrite lookup_insert_eq.
    + rewrite Hbody. apply firstn_all2. rewrite length_skipn.
      unfold L, fileLength. lia.
    + rewrite Hlen. lia.
  - unfold streamFile. rewrite Hreg, Hfile, createReadStream_whole.
    eexists. split; [reflexivity|]. split; [|split].
    + unfold baseHeaders. rewrite !lookup_insert_ne by discriminate.
      now rewrite lookup_insert_eq.
    + unfold baseHeaders. rewrite !lookup_insert_ne by discriminate.
      now rewrite lookup_singleton_ne by discriminate.
    + reflexivity.
Qed.

(** The specification's example: bytes 0-99 of a file of 1000 bytes, and the
    same file without a range. *)
Lemma range_request_example :
  (exists headers body,
     streamFile sampleTorrents "magnet:?xt=urn:btih:abc" "a.mp3"
       (Some "bytes=0-99")
     = Streamed 206 headers body /\
     headers !! "Content-Range" = Some "bytes 0-99/1000" /\
     Z.of_nat (List.length body) = 100) /\
  (exists headers,
     streamFile sampleTorrents "magnet:?xt=urn:btih:abc" "a.mp3" None
     = Streamed 200 headers (repeat Byte.x00 1000)).
Proof.
  destruct (range_request_within_file sampleTorrents
              "magnet:?xt=urn:btih:abc" "a.mp3"
              (mkHandle 0 "album" [blankFile "a.mp3" 1000] true)
              (blankFile "a.mp3" 1000) eq_refl eq_refl)
    as (Hclosed & _ & Hwhole).
  split.
  - destruct (Hclosed 0 99) as (headers & body & E & Hcr & _ & _ & Hlen);
      [lia|lia|vm_compute; discriminate|].
    exists headers, body. split; [exact E|]. split; [exact Hcr|exact Hlen].
  - destruct Hwhole as (headers & E & _). exists headers. exact E.
Defined.

End Streaming.

(** ** The torrent handle registry: [activeTorrents] and [torrentClient.add]

    The server runs one event loop: a handler runs without interruption up
    to its next [await], and other handlers run in between. A request is
    modelled by what it is waiting for, and a schedule says which request
    takes its next step. *)

Module Registry.
Import Swarm.

(** The process-wide state: the torrent objects the client has created (a
    reference is an index into [torrents]), the map [activeTorrents] from
    magnet link to reference, and the magnet links passed to
    [torrentClient.add] so far, latest first. *)
Record World : Type := mkWorld {
  torrents : list Handle;
  activeTorrents : gmap string nat;
  addCalls : list string
}.

Definition emptyWorld : World := mkWorld [] (∅ : gmap string nat) [].

(** [torrentClient.add(magnetLink, ..)] on a stub engine that accepts every
    call: a new torrent object, not ready yet. The call is recorded. *)
Definition clientAdd (magnetLink : string) (w : World) : World * nat :=
  let ref := List.length (torrents w) in
  (mkWorld (torrents w ++ [mkHandle ref EmptyString [] false])%list
     (activeTorrents w) (magnetLink :: addCalls w),
   ref).

(** [activeTorrents.set(magnetLink, torrent)] *)
Definition register (magnetLink : string) (ref : nat) (w : World) : World :=
  mkWorld (torrents w) (<[magnetLink := ref]> (activeTorrents w)) (addCalls w).

(** The engine reports [ready] on a torrent object: the object itself
    changes, whoever holds a reference sees it. *)
Definition markReady (ref : nat) (w : World) : World :=
  mkWorld
    (alter (fun h => mkHandle (instance h) (torrentName h) (files h) true)
       ref (torrents w))
    (activeTorrents w) (addCalls w).

(** A request of the synchronous [/api/stream-torrent] path, after the
    magnet link has been resolved and validated. *)
Inductive Request : Type :=
| Arrived (magnetLink : string)
| AwaitingReady (magnetLink : string) (addedTorrent : nat)
| Serving (torrent : nat).

(** From [activeTorrents.get] to the [await]: an existing torrent is used,
    otherwise the client is asked for a new one and the handler waits for
    its [ready] event. Nothing is stored yet. *)
Definition arrive (magnetLink : string) (w : World) : World * Request :=
  match activeTorrents w !! magnetLink with
  | Some ref => (w, Serving ref)
  | None =>
      let '(w', ref) := clientAdd magnetLink w in
      (w', AwaitingReady magnetLink ref)
  end.

(** The [ready] event resolves the promise; the handler resumes and only
    now stores the torrent. *)
Definition resume (magnetLink : string) (ref : nat) (w : World)
  : World * Request :=
  (register magnetLink ref (markReady ref w), Serving ref).

Definition stepRequest (r : Request) (w : World) : World * Request :=
  match r with
  | Arrived m => arrive m w
  | AwaitingReady m ref => resume m ref w
  | Serving ref => (w, Serving ref)
  end.

(** Request number [i] takes its next step. *)
Definition step (i : nat) (st : World * list Request) : World * list Request :=
  match snd st !! i with
  | Some r =>
      let '(w', r') := stepRequest r (fst st) in
      (w', <[i := r']> (snd st))
  | None => st
  end.

Definition run (schedule : list nat) (st : World * list Request)
  : World * list Request :=
  fold_left (fun s i => step i s) schedule st.

(** How often [torrentClient.add] was called for a magnet link. *)
Definition addCount (magnetLink : string) (w : World) : nat :=
  List.length (List.filter (String.eqb magnetLink) (addCalls w)).

(** The pre-loader's registration, which has no [await] between the test
    [activeTorrents.has], the call of [torrentClient.add] and
    [activeTorrents.set]. *)
Definition preloadRegister (magnetLink : string) (w : World) : World :=
  match activeTorrents w !! magnetLink with
  | Some _ => w
  | None =>
      let '(w', ref) := clientAdd magnetLink w in
      register magnetLink ref w'
  end.

Definition sampleMagnet : string := "magnet:?xt=urn:btih:abc".

(** *** Properties of the registry *)

(** C1 on the code: two requests for the same unregistered magnet link, the
    second arriving while the first awaits [ready]. Each finds
    [activeTorrents] empty and calls [torrentClient.add]; they end up with
    two different torrent objects. *)
Theorem overlapping_requests_add_twice :
  let final :=
    run [0; 1; 0; 1]%nat (emptyWorld, [Arrived sampleMagnet; Arrived sampleMagnet]) in
  snd final = [Serving 0%nat; Serving 1%nat] /\
  addCount sampleMagnet (fst final) = 2%nat /\
  List.length (torrents (fst final)) = 2%nat /\
  activeTorrents (fst final) !! sampleMagnet = Some 1%nat.
Proof. vm_compute. repeat split. Qed.

(** The same two requests one after the other share one torrent. *)
Example consecutive_requests_add_once :
  let final :=
    run [0; 0; 1]%nat (emptyWorld, [Arrived sampleMagnet; Arrived sampleMagnet]) in
  snd final = [Serving 0%nat; Serving 0%nat] /\
  addCount sampleMagnet (fst final) = 1%nat.
Proof. vm_compute. repeat split. Qed.

(** The pre-loader's path registers at once, so a second registration of
    the same magnet link finds the first and adds nothing. *)
Lemma preloadRegister_registers (m : string) (w : World) :
  is_Some (activeTorrents (preloadRegister m w) !! m).
Proof.
  unfold preloadRegister. destruct (activeTorrents w !! m) as [ref|] eqn:E.
  - rewrite E. eauto.
  - simpl. rewrite lookup_insert_eq. eauto.
Qed.

Lemma preloadRegister_again (m : string) (w : World) :
  preloadRegister m (preloadRegister m w) = preloadRegister m w.
Proof.
  destruct (preloadRegister_registers m w) as [ref E].
  unfold preloadRegister at 1. now rewrite E.
Qed.

Lemma preloadRegister_adds_once (m : string) (w : World) :
  activeTorrents w !! m = None ->
  addCount m (preloadRegister m (preloadRegister m w)) = S (addCount m w).
Proof.
  intros E. rewrite preloadRegister_again.
  unfold preloadRegister. rewrite E. unfold addCount. simpl.
  now rewrite String.eqb_refl.
Qed.

End Registry.

(** ** The job orchestrator: [asyncJobs] and the two background tasks *)

Module Jobs.
Import Exn Swarm.

Inductive Status : Type := pending | processing | completed | failed.

(** The [result] of a finished job. *)
Inductive Payload : Type :=
| NoSuitableTorrents
| BestTorrent (bestTorrent : Ranking.Scored)
    (alternativeTorrents : list Ranking.Scored) (searchQueries : list string)
    (totalFound afterFiltering : Z)
| StreamPrepared (info : Selector.StreamInfo).

(** An entry of [asyncJobs]. The entries are built with object spread, so
    every field may be absent. *)
Record Job : Type := mkJob {
  status : option Status;
  jobType : option string;
  progress : option Z;
  result : option Payload;
  error : option string
}.

(** [{ ...undefined }] *)
Definition blankJob : Job := mkJob None None None None None.

(** The store and, for the proofs, every value written to it, in order. *)
Record Mem : Type := mkMem {
  asyncJobs : gmap string Job;
  writes : list (string * Job)
}.

(** A piece of a background task: it reads and writes the store and either
    completes or throws; what it wrote before throwing stays written. *)
Definition Task (A : Type) : Type := Mem -> Completion A * Mem.

Definition ret {A : Type} (a : A) : Task A := fun m => (Normal a, m).

Definition throw {A : Type} (message : string) : Task A :=
  fun m => (Throw message, m).

Definition andThen {A B : Type} (c : Task A) (k : A -> Task B) : Task B :=
  fun m =>
    match c m with
    | (Normal a, m') => k a m'
    | (Throw e, m') => (Throw e, m')
    end.

(** [try { c } catch (error) { handler(error.message) }] *)
Definition catch {A : Type} (c : Task A) (handler : string -> Task A) : Task A :=
  fun m =>
    match c m with
    | (Normal a, m') => (Normal a, m')
    | (Throw e, m') => handler e m'
    end.

(** The outcome of something awaited. *)
Definition lift {A : Type} (c : Completion A) : Task A := fun m => (c, m).

(** [asyncJobs.get(jobId)] *)
Definition getJob (jobId : string) : Task (option Job) :=
  fun m => (Normal (asyncJobs m !! jobId), m).

(** [asyncJobs.set(jobId, job)] *)
Definition setJob (jobId : string) (job : Job) : Task unit :=
  fun m =>
    (Normal tt,
     mkMem (<[jobId := job]> (asyncJobs m)) (writes m ++ [(jobId, job)])%list).

Notation "'perform' x ':=' c 'in' k" := (andThen c (fun x => k))
  (at level 10, x name, c at level 100, k at level 200).
Notation "c ';;' k" := (andThen c (fun _ => k))
  (at level 100, k at level 200, right associativity).

(** [asyncJobs.set(jobId, { ...asyncJobs.get(jobId), <fields> })] *)
Definition updateJob (jobId : string) (fields : Job -> Job) : Task unit :=
  perform current := getJob jobId in
  setJob jobId (fields (default blankJob current)).

Definition withProgress (p : Z) (j : Job) : Job :=
  mkJob (status j) (jobType j) (Some p) (result j) (error j).

Definition withStatus (s : Status) (p : Z) (j : Job) : Job :=
  mkJob (Some s) (jobType j) (Some p) (result j) (error j).

Definition withResult (payload : Payload) (j : Job) : Job :=
  mkJob (Some completed) (jobType j) (Some 100) (Some payload) (error j).

Definition withError (message : string) (j : Job) : Job :=
  mkJob (Some failed) (jobType j) (Some 100) (result j) (Some message).

(** The accept path of both endpoints: the entry is created [pending] with
    progress 0, before the task is started with [setImmediate]. *)
Definition acceptJob (jobId kind : string) : Task unit :=
  setJob jobId (mkJob (Some pending) (Some kind) (Some 0) None None).

(** A recording of the metadata service, with the fields the task reads. *)
Record Recording : Type := mkRecording {
  recordingTitle : string;
  creditedArtist : option string;
  releaseTitle : option string
}.

(** What the outside world does during one torrent search: the answer of
    the rate-limited metadata request (the recordings, or a failure), and
    the outcome of awaiting the indexer search for given queries (the
    candidates, or an exception). *)
Record SearchWorld : Type := mkSearchWorld {
  recordings : Completion (list Recording);
  searchMultipleTorrentQueries :
    list string -> Completion (list Ranking.Torrent)
}.

Definition sameTitle (trackTitle : string) (r : Recording) : bool :=
  String.eqb (Js.toLowerCase (recordingTitle r)) (Js.toLowerCase trackTitle).

(** The inner [try]: the best match among the recordings, [None] when there
    is none or the request failed. *)
Definition trackDetailsOf (world : SearchWorld) (trackTitle : string)
  : option Recording :=
  match recordings world with
  | Normal (first :: rest) =>
      match List.find (sameTitle trackTitle) (first :: rest) with
      | Some exact => Some exact
      | None => Some first
      end
  | Normal [] => None
  | Throw _ => None
  end.

Definition truthyText (s : string) : bool := negb (String.eqb s EmptyString).

Definition truthyOpt (s : option string) : bool :=
  match s with Some t => truthyText t | None => false end.

(** Step 2 of the task: the search queries. *)
Definition buildQueries (artist track : string) (album : option string)
  : list string :=
  ((if (truthyText artist && truthyText track)%bool
    then [Js.quoted artist +:+ " " +:+ Js.quoted track;
          artist +:+ " " +:+ track;
          Js.quoted track +:+ " " +:+ Js.quoted artist;
          track +:+ " " +:+ artist]
    else [])
   ++
   (if (truthyOpt album && truthyText artist && truthyText track)%bool
    then [Js.quoted artist +:+ " " +:+ Js.quoted track +:+ " "
            +:+ Js.quoted (Js.orEmpty album);
          artist +:+ " " +:+ track +:+ " " +:+ Js.orEmpty album;
          Js.quoted artist +:+ " " +:+ Js.quoted (Js.orEmpty album)]
    else []))%list.

Definition enhancedArtist (details : option Recording) (artist : string) : string :=
  match details with
  | Some d =>
      match creditedArtist d with
      | Some a => if truthyText a then a else artist
      | None => artist
      end
  | None => artist
  end.

Definition enhancedTrack (details : option Recording) (track : string) : string :=
  match details with
  | Some d => recordingTitle d
  | None => track
  end.

Definition enhancedAlbum (details : option Recording) (album : option string)
  : option string :=
  match details with
  | Some d => if truthyOpt (releaseTitle d) then releaseTitle d else album
  | None => album
  end.

(** The body of the [try] block of [processTorrentSearchAsync]. *)
Definition searchBody
  (world : SearchWorld) (jobId trackTitle artistName : string)
  (albumTitle : option string) : Task unit :=
  updateJob jobId (withStatus processing 10) ;;
  updateJob jobId (withProgress 20) ;;
  let trackDetails := trackDetailsOf world trackTitle in
  updateJob jobId (withProgress 40) ;;
  let artist := enhancedArtist trackDetails artistName in
  let track := enhancedTrack trackDetails trackTitle in
  let album := enhancedAlbum trackDetails albumTitle in
  let searchQueries := buildQueries artist track album in
  updateJob jobId (withProgress 50) ;;
  perform allTorrents := lift (searchMultipleTorrentQueries world searchQueries) in
  updateJob jobId (withProgress 70) ;;
  let scoredTorrents :=
    Ranking.scoreAndFilterTorrents allTorrents artist track album in
  updateJob jobId (withProgress 90) ;;
  match Js.slice0 10 scoredTorrents with
  | [] => updateJob jobId (withResult NoSuitableTorrents)
  | bestTorrent :: alternatives =>
      updateJob jobId
        (withResult
           (BestTorrent bestTorrent alternatives (Js.slice0 6 searchQueries)
              (Z.of_nat (List.length allTorrents))
              (Z.of_nat (List.length scoredTorrents))))
  end.

(** [processTorrentSearchAsync]: the body and its [catch]. *)
Definition processTorrentSearchAsync
  (world : SearchWorld) (jobId trackTitle artistName : string)
  (albumTitle : option string) : Task unit :=
  catch (searchBody world jobId trackTitle artistName albumTitle)
    (fun message => updateJob jobId (withError message)).

(** What the outside world does during one stream preparation: the torrent
    found in [activeTorrents], if any, and the outcome of waiting for a
    newly added torrent (its files once ready, or the error or time-out
    that rejects the promise). *)
Record StreamWorld : Type := mkStreamWorld {
  existing : option (list File);
  added : Completion (list File)
}.

Section StreamTask.
Variable localeCompare : string -> string -> Z.

(** The body of the [try] block of [processTorrentStreamAsync]. *)
Definition streamBody
  (world : StreamWorld) (jobId : string) (fileName : option string)
  (expectedFileCount : Selector.JsValue) : Task unit :=
  updateJob jobId (withStatus processing 10) ;;
  perform torrentFiles :=
    match existing world with
    | Some fs => ret fs
    | None => updateJob jobId (withProgress 20) ;; lift (added world)
    end in
  updateJob jobId (withProgress 80) ;;
  perform info :=
    lift (Selector.processStreamRequestAsync localeCompare torrentFiles
            fileName expectedFileCount) in
  updateJob jobId (withResult (StreamPrepared info)).

Definition processTorrentStreamAsync
  (world : StreamWorld) (jobId : string) (fileName : option string)
  (expectedFileCount : Selector.JsValue) : Task unit :=
  catch (streamBody world jobId fileName expectedFileCount)
    (fun message => updateJob jobId (withError message)).

End StreamTask.

(** The values one job went through: what the accept path wrote, then every
    later write. *)
Definition trace (m : Mem) : list Job := List.map snd (writes m).

(** The job ended: [completed] with a result and no error, or [failed] with
    an error and no result, at progress 100. *)
Definition terminal (j : Job) : Prop :=
  progress j = Some 100 /\
  ((status j = Some completed /\ result j <> None /\ error j = None) \/
   (status j = Some failed /\ error j <> None /\ result j = None)).

Definition progressLe (a b : Job) : Prop :=
  exists p q, progress a = Some p /\ progress b = Some q /\ 0 <= p <= q /\ q <= 100.

(** Entries in [processing] up to one terminal entry, the last. *)
Inductive runsToEnd : list Job -> Prop :=
| ends (j : Job) : terminal j -> runsToEnd [j]
| continues (j : Job) (rest : list Job) :
    status j = Some processing -> runsToEnd rest -> runsToEnd (j :: rest).

(** The state machine [pending -> processing -> completed | failed] as a
    property of a trace: one pending entry at progress 0, then entries in
    [processing], at least one, then exactly one terminal entry, with the
    progress never going down. *)
Definition lifecycle (t : list Job) : Prop :=
  match t with
  | first :: second :: rest =>
      status first = Some pending /\ progress first = Some 0 /\
      status second = Some processing /\ runsToEnd rest /\
      Sorted progressLe t
  | _ => False
  end.

(** A job after its task has run: accepted, then processed. *)
Definition searchJob
  (world : SearchWorld) (jobId trackTitle artistName : string)
  (albumTitle : option string) : Task unit :=
  acceptJob jobId "find-best-torrent" ;;
  processTorrentSearchAsync world jobId trackTitle artistName albumTitle.

Definition streamJob
  (localeCompare : string -> string -> Z) (world : StreamWorld)
  (jobId : string) (fileName : option string)
  (expectedFileCount : Selector.JsValue) : Task unit :=
  acceptJob jobId "stream-torrent" ;;
  processTorrentStreamAsync localeCompare world jobId fileName expectedFileCount.

(** The entry of the job in the store. *)
Definition finalJob (jobId : string) (m : Mem) : option Job :=
  asyncJobs m !! jobId.

(** The state machine read off a finished run: the run did not throw, the
    trace of the job is one pending entry at progress 0, then one or more
    entries in [processing], then a single terminal entry, which is the
    entry left in the store; the progress never goes down. *)
Definition ranItsCourse (jobId : string) (run : Completion unit * Mem) : Prop :=
  fst run = Normal tt /\
  exists first middle last,
    trace (snd run) = (first :: middle ++ [last])%list /\
    status first = Some pending /\ progress first = Some 0 /\
    middle <> [] /\
    Forall (fun j => status j = Some processing) middle /\
    terminal last /\
    Sorted progressLe (trace (snd run)) /\
    finalJob jobId (snd run) = Some last.

(** *** Properties of the job orchestrator *)

Lemma updateJob_after_write
  (jobId : string) (fields : Job -> Job) (store : gmap string Job)
  (log : list (string * Job)) (current : Job) :
  updateJob jobId fields (mkMem (<[jobId := current]> store) log)
  = (Normal tt,
     mkMem (<[jobId := fields current]> (<[jobId := current]> store))
       (log ++ [(jobId, fields current)])%list).
Proof.
  unfold updateJob, andThen, getJob, setJob. simpl.
  rewrite lookup_insert_eq. reflexivity.
Qed.

Lemma progressLe_intro (a b : Job) (p q : Z) :
  progress a = Some p -> progress b = Some q -> 0 <= p <= q -> q <= 100 ->
  progressLe a b.
Proof. intros Ha Hb Hpq Hq. exists p, q. auto. Qed.

(** Running a task step by step on a store written by the accept path. *)
Ltac run_task H :=
  unfold catch, andThen, lift, ret, throw, acceptJob, setJob in H;
  repeat first
    [ rewrite updateJob_after_write in H
    | progress cbn beta iota zeta in H
    | progress cbn [asyncJobs writes fst snd app] in H ].

(** The last value written is the entry of the store. *)
Ltac solve_final := cbn; now rewrite lookup_insert_eq.

Ltac solve_lifecycle :=
  cbn [trace writes List.map snd app lifecycle];
  repeat match goal with
  | |- _ /\ _ => split
  | |- runsToEnd [_] => apply ends
  | |- runsToEnd (_ :: _ :: _) => apply continues
  | |- terminal _ => split; [reflexivity|]
  | |- (_ /\ _ /\ _) \/ _ =>
      first [ left; repeat split; (reflexivity || discriminate)
            | right; repeat split; (reflexivity || discriminate) ]
  | |- Sorted _ _ => constructor
  | |- HdRel _ _ _ => constructor
  | |- progressLe _ _ =>
      eapply progressLe_intro; [reflexivity|reflexivity|lia|lia]
  | |- _ = _ => reflexivity
  end.

Lemma runsToEnd_shape (t : list Job) :
  runsToEnd t ->
  exists middle last,
    t = (middle ++ [last])%list /\
    Forall (fun j => status j = Some processing) middle /\ terminal last.
Proof.
  induction 1 as [j Hj|j rest Hj Hrest (middle & last & -> & Hmid & Hlast)].
  - exists [], j. repeat split; [constructor|apply Hj..].
  - exists (j :: middle), last. split; [reflexivity|].
    split; [now constructor|exact Hlast].
Qed.

(** A trace with a lifecycle is one pending entry, then one or more entries
    in [processing], then a single terminal entry: no entry after the
    terminal one, no terminal entry before the last. *)
Lemma lifecycle_shape (t : list Job) :
  lifecycle t ->
  exists first middle last,
    t = (first :: middle ++ [last])%list /\
    status first = Some pending /\ progress first = Some 0 /\
    middle <> [] /\
    Forall (fun j => status j = Some processing) middle /\
    terminal last /\
    Sorted progressLe t.
Proof.
  destruct t as [|first [|second rest]]; simpl; try contradiction.
  intros (Hp & Hz & Hs & Hrun & Hsorted).
  destruct (runsToEnd_shape rest Hrun) as (middle & last & -> & Hmid & Hlast).
  exists first, (second :: middle), last.
  split; [reflexivity|]. split; [exact Hp|]. split; [exact Hz|].
  split; [discriminate|]. split; [now constructor|]. split; assumption.
Qed.

Lemma search_job_runs
  (world : SearchWorld) (store : gmap string Job)
  (jobId trackTitle artistName : string) (albumTitle : option string) :
  let run := searchJob world jobId trackTitle artistName albumTitle
               (mkMem store []) in
  fst run = Normal tt /\
  lifecycle (trace (snd run)) /\
  finalJob jobId (snd run) = List.last (List.map Some (trace (snd run))) None /\
  Forall (fun w => fst w = jobId) (writes (snd run)) /\
  (forall queries e,
     queries = buildQueries
       (enhancedArtist (trackDetailsOf world trackTitle) artistName)
       (enhancedTrack (trackDetailsOf world trackTitle) trackTitle)
       (enhancedAlbum (trackDetailsOf world trackTitle) albumTitle) ->
     searchMultipleTorrentQueries world queries = Throw e ->
     exists j, finalJob jobId (snd run) = Some j /\
       status j = Some failed /\ error j = Some e /\ result j = None).
Proof.
  intros run.
  assert (Hrun : run = searchJob world jobId trackTitle artistName albumTitle
                         (mkMem store [])) by reflexivity.
  clearbody run.
  unfold searchJob, processTorrentSearchAsync, searchBody in Hrun.
  unfold finalJob.
  destruct (searchMultipleTorrentQueries world _) as [allTorrents|e] eqn:Hsearch.
  - run_task Hrun.
    match type of Hrun with
    | context [match Js.slice0 10 ?l with _ => _ end] =>
        destruct (Js.slice0 10 l) as [|bestTorrent alternatives]
    end;
      run_task Hrun; subst run; cbn [fst snd];
      (split; [reflexivity|]); (split; [solve_lifecycle|]);
      (split; [solve_final|]); (split; [repeat constructor|]);
      intros queries e -> He; rewrite He in Hsearch; discriminate.
  - run_task Hrun. subst run. cbn [fst snd].
    split; [reflexivity|]. split; [solve_lifecycle|].
    split; [solve_final|]. split; [repeat constructor|].
    intros queries e' -> He. rewrite He in Hsearch. injection Hsearch as ->.
    eexists. split; [solve_final|]. repeat split.
Qed.

Lemma stream_job_runs
  (localeCompare : string -> string -> Z) (world : StreamWorld)
  (store : gmap string Job) (jobId : string) (fileName : option string)
  (expectedFileCount : Selector.JsValue) :
  let run := streamJob localeCompare world jobId fileName expectedFileCount
               (mkMem store []) in
  fst run = Normal tt /\
  lifecycle (trace (snd run)) /\
  finalJob jobId (snd run) = List.last (List.map Some (trace (snd run))) None /\
  Forall (fun w => fst w = jobId) (writes (snd run)) /\
  (forall e, existing world = None -> added world = Throw e ->
     exists j, finalJob jobId (snd run) = Some j /\
       status j = Some failed /\ error j = Some e /\ result j = None) /\
  (forall torrentFiles e,
     (existing world = Some torrentFiles \/
      existing world = None /\ added world = Normal torrentFiles) ->
     Selector.processStreamRequestAsync localeCompare torrentFiles fileName
       expectedFileCount = Throw e ->
     exists j, finalJob jobId (snd run) = Some j /\
       status j = Some failed /\ error j = Some e /\ result j = None).
Proof.
  intros run.
  assert (Hrun : run = streamJob localeCompare world jobId fileName
                         expectedFileCount (mkMem store [])) by reflexivity.
  clearbody run.
  unfold streamJob, processTorrentStreamAsync, streamBody in Hrun.
  unfold finalJob.
  destruct (existing world) as [fs|] eqn:Hex.
  - destruct (Selector.processStreamRequestAsync localeCompare fs fileName
                expectedFileCount) as [info|e] eqn:Hsel;
      run_task Hrun; rewrite ?Hsel in Hrun; run_task Hrun;
      subst run; cbn [fst snd];
      (split; [reflexivity|]); (split; [solve_lifecycle|]);
      (split; [solve_final|]); (split; [repeat constructor|]);
      (split; [intros ? Hnone; discriminate Hnone|]).
    + intros fs' e [Hfs|[Hnone _]] Hthrow; [|discriminate Hnone].
      injection Hfs as <-. rewrite Hthrow in Hsel. discriminate.
    + intros fs' e' [Hfs|[Hnone _]] Hthrow; [|discriminate Hnone].
      injection Hfs as <-. rewrite Hthrow in Hsel. injection Hsel as ->.
      eexists. split; [solve_final|]. repeat split.
  - destruct (added world) as [fs|e] eqn:Hadd.
    + destruct (Selector.processStreamRequestAsync localeCompare fs fileName
                  expectedFileCount) as [info|e] eqn:Hsel;
        run_task Hrun; rewrite ?Hsel in Hrun; run_task Hrun;
        subst run; cbn [fst snd];
        (split; [reflexivity|]); (split; [solve_lifecycle|]);
        (split; [solve_final|]); (split; [repeat constructor|]);
        (split; [intros ? _ Habs; discriminate Habs|]).
      * intros fs' e [Hfs|[_ Hfs]] Hthrow; [discriminate Hfs|].
        injection Hfs as <-. rewrite Hthrow in Hsel. discriminate.
      * intros fs' e' [Hfs|[_ Hfs]] Hthrow; [discriminate Hfs|].
        injection Hfs as <-. rewrite Hthrow in Hsel. injection Hsel as ->.
        eexists. split; [solve_final|]. repeat split.
    + run_task Hrun. subst run. cbn [fst snd].
      split; [reflexivity|]. split; [solve_lifecycle|].
      split; [solve_final|].
      split; [repeat constructor|]. split.
      * intros e' _ He. injection He as ->.
        eexists. split; [solve_final|]. repeat split.
      * intros fs' e' [Hfs|[_ Hfs]] _; discriminate Hfs.
Qed.

Lemma ranItsCourse_intro (jobId : string) (run : Completion unit * Mem) :
  fst run = Normal tt ->
  lifecycle (trace (snd run)) ->
  finalJob jobId (snd run) = List.last (List.map Some (trace (snd run))) None ->
  ranItsCourse jobId run.
Proof.
  intros Hok Hlife Hfinal. split; [exact Hok|].
  destruct (lifecycle_shape _ Hlife)
    as (first & middle & last & E & Hp & Hz & Hne & Hmid & Hterm & Hsorted).
  exists first, middle, last. repeat split; try assumption.
  - apply Hterm.
  - apply Hterm.
  - rewrite Hfinal, E. cbn [List.map].
    rewrite List.map_app. cbn [List.map].
    change (Some first :: (List.map Some middle ++ [Some last])%list)
      with (((Some first :: List.map Some middle) ++ [Some last])%list).
    apply List.last_last.
Qed.

(** C6. A job created by an accept path starts [pending] at progress 0; its
    task moves it to [processing] and then to exactly one of [completed] and
    [failed], which is its last state; the progress goes from 0 to 100 and
    never down; and an exception raised inside the task does not leave it:
    it is recorded as the job's error, with status [failed]. This holds for
    the torrent search and for the stream preparation, whatever the outside
    world answers. *)
Theorem async_job_lifecycle :
  (forall (world : SearchWorld) (store : gmap string Job)
          (jobId trackTitle artistName : string) (albumTitle : option string),
     let run := searchJob world jobId trackTitle artistName albumTitle
                  (mkMem store []) in
     ranItsCourse jobId run /\
     (forall e,
        searchMultipleTorrentQueries world
          (buildQueries
             (enhancedArtist (trackDetailsOf world trackTitle) artistName)
             (enhancedTrack (trackDetailsOf world trackTitle) trackTitle)
             (enhancedAlbum (trackDetailsOf world trackTitle) albumTitle))
        = Throw e ->
        exists j, finalJob jobId (snd run) = Some j /\
          status j = Some failed /\ error j = Some e /\ result j = None)) /\
  (forall (localeCompare : string -> string -> Z) (world : StreamWorld)
          (store : gmap string Job) (jobId : string) (fileName : option string)
          (expectedFileCount : Selector.JsValue),
     let run := streamJob localeCompare world jobId fileName expectedFileCount
                  (mkMem store []) in
     ranItsCourse jobId run /\
     (forall e, existing world = None -> added world = Throw e ->
        exists j, finalJob jobId (snd run) = Some j /\
          status j = Some failed /\ error j = Some e /\ result j = None) /\
     (forall torrentFiles e,
        (existing world = Some torrentFiles \/
         existing world = None /\ added world = Normal torrentFiles) ->
        Selector.processStreamRequestAsync localeCompare torrentFiles fileName
          expectedFileCount = Throw e ->
        exists j, finalJob jobId (snd run) = Some j /\
          status j = Some failed /\ error j = Some e /\ result j = None)).
Proof.
  split.
  - intros world store jobId trackTitle artistName albumTitle run.
    destruct (search_job_runs world store jobId trackTitle artistName albumTitle)
      as (Hok & Hlife & Hfinal & _ & Hthrow).
    split; [now apply ranItsCourse_intro|].
    intros e He. now apply (Hthrow _ e eq_refl).
  - intros localeCompare world store jobId fileName expectedFileCount run.
    destruct (stream_job_runs localeCompare world store jobId fileName
                expectedFileCount)
      as (Hok & Hlife & Hfinal & _ & Hadd & Hsel).
    split; [now apply ranItsCourse_intro|]. split; assumption.
Qed.

(** A stream preparation on a torrent without audio files: the exception is
    recorded, the job ends [failed]. *)
Example stream_job_without_audio :
  let run := streamJob Selector.codeOrder
               (mkStreamWorld (Some [mkFile "cover.jpg" []]) (Throw "unused"))
               "job_1" None Selector.JUndefined (mkMem ∅ []) in
  fst run = Normal tt /\
  List.map status (trace (snd run))
  = [Some pending; Some processing; Some processing; Some failed] /\
  List.map progress (trace (snd run)) = [Some 0; Some 10; Some 80; Some 100] /\
  (error <$> finalJob "job_1" (snd run))
  = Some (Some "No audio files found in torrent").
Proof. vm_compute. repeat split. Qed.

End Jobs.

(** ** Spacing the calls to the metadata service

    Time is the clock of the event loop, in milliseconds. A handler that
    awaits a timer or an answer lets the clock advance. *)

Module RateLimit.
Import Exn.

(** The clock, the variable [lastMusicBrainzCall], and the times at which a
    request left for the metadata service, in order. *)
Record Clock : Type := mkClock {
  now : Z;
  lastMusicBrainzCall : Z;
  sent : list Z
}.

(** [MUSICBRAINZ_CONFIG.rateLimit] *)
Definition rateLimit : Z := 1000.

(** The metadata service: for the request number [n] that it receives, how
    long the answer takes and whether it is a success. *)
Definition Service : Type := nat -> Z * bool.

(** [await new Promise(resolve => setTimeout(resolve, ms))] *)
Definition sleep (ms : Z) (c : Clock) : Clock :=
  mkClock (now c + ms) (lastMusicBrainzCall c) (sent c).

(** [await axios.get(<metadata service>, ..)]: the request leaves now, the
    answer arrives after the latency of the service. *)
Definition axiosGet (service : Service) (c : Clock) : Completion unit * Clock :=
  let answer := service (List.length (sent c)) in
  (if snd answer then Normal tt else Throw "Request failed",
   mkClock (now c + fst answer) (lastMusicBrainzCall c) (sent c ++ [now c])%list).

(** [rateLimitedMusicBrainzCall] *)
Definition rateLimitedMusicBrainzCall (service : Service) (c : Clock)
  : Completion unit * Clock :=
  let timeSinceLastCall := now c - lastMusicBrainzCall c in
  let minInterval := rateLimit in
  let waited :=
    if timeSinceLastCall <? minInterval
    then sleep (minInterval - timeSinceLastCall) c
    else c in
  axiosGet service (mkClock (now waited) (now waited) (sent waited)).

(** [Math.min(baseDelay * Math.pow(1.5, attempt - 1), 10000)], cut to whole
    milliseconds by the timer. *)
Definition retryDelay (baseDelay : Z) (attempt : nat) : Z :=
  Z.min (baseDelay * 3 ^ Z.of_nat (attempt - 1) / 2 ^ Z.of_nat (attempt - 1)) 10000.

(** [retryApiCall]: the loop from [attempt] with [remaining] attempts left. *)
Fixpoint retryFrom
  (apiCall : Clock -> Completion unit * Clock) (baseDelay : Z)
  (attempt remaining : nat) (c : Clock) : Completion unit * Clock :=
  match remaining with
  | O => (Normal tt, c)
  | S rest =>
      match apiCall c with
      | (Normal a, c') => (Normal a, c')
      | (Throw e, c') =>
          match rest with
          | O => (Throw e, c')
          | S _ => retryFrom apiCall baseDelay (S attempt) rest
                     (sleep (retryDelay baseDelay attempt) c')
          end
      end
  end.

Definition retryApiCall
  (apiCall : Clock -> Completion unit * Clock) (maxAttempts : nat)
  (baseDelay : Z) (c : Clock) : Completion unit * Clock :=
  retryFrom apiCall baseDelay 1 maxAttempts c.

(** The requests of [/api/artist-albums] to the metadata service: one plain
    [axios.get]. *)
Definition artistAlbums (service : Service) (c : Clock) : Clock :=
  snd (axiosGet service c).

(** One turn of the loop over the release types in [/api/artist-details]:
    a retried plain [axios.get], then a pause of 200 ms; a failure is caught
    and skips the pause. *)
Definition fetchReleases (service : Service) (c : Clock) : Clock :=
  match retryApiCall (axiosGet service) 5 1000 c with
  | (Normal _, c') => sleep 200 c'
  | (Throw _, c') => c'
  end.

Definition releaseTypes : list string :=
  ["album"; "ep"; "single"; "broadcast"; "other"].

(** The requests of [/api/artist-details] to the metadata service. *)
Definition artistDetails (service : Service) (c : Clock) : Clock :=
  let c1 := snd (retryApiCall (axiosGet service) 10 1000 c) in
  fold_left (fun acc _ => fetchReleases service acc) releaseTypes c1.

(** A number of calls through the limiter, one after the other. *)
Fixpoint limitedCalls (service : Service) (n : nat) (c : Clock) : Clock :=
  match n with
  | O => c
  | S k => limitedCalls service k (snd (rateLimitedMusicBrainzCall service c))
  end.

(** The times between one request and the next. *)
Fixpoint gaps (times : list Z) : list Z :=
  match times with
  | t1 :: ((t2 :: _) as rest) => (t2 - t1) :: gaps rest
  | _ => []
  end.

Definition spaced (times : list Z) : Prop :=
  Forall (fun g => rateLimit <= g) (gaps times).

(** A service that answers every request after 100 ms. *)
Definition promptService : Service := fun _ => (100, true).

(** The clock when a request arrives, five seconds after start-up. *)
Definition atFiveSeconds : Clock := mkClock 5000 0 [].

(** The state between calls that all went through the limiter: the requests
    sent so far are spaced, and [lastMusicBrainzCall] is the time of the
    latest one. *)
Definition settled (c : Clock) : Prop :=
  spaced (sent c) /\
  lastMusicBrainzCall c <= now c /\
  (sent c = [] \/ List.last (sent c) 0 = lastMusicBrainzCall c).

(** *** Properties of the spacing *)

(** C9 on the code: the artist-details handler sends its six requests with
    plain [axios.get]; with a service that answers in 100 ms they leave 100
    and 300 ms apart, and [lastMusicBrainzCall] is never touched. *)
Theorem artist_details_bypasses_limiter :
  let after := artistDetails promptService atFiveSeconds in
  sent after = [5000; 5100; 5400; 5700; 6000; 6300] /\
  gaps (sent after) = [100; 300; 300; 300; 300] /\
  lastMusicBrainzCall after = 0 /\
  ~ spaced (sent after).
Proof.
  vm_compute. repeat split.
  intros H. inversion H as [|g rest Hg _]. apply Hg. reflexivity.
Qed.

(** Two artist-albums requests, the second arriving as the first is
    answered, reach the service 100 ms apart. *)
Example artist_albums_back_to_back :
  sent (artistAlbums promptService (artistAlbums promptService atFiveSeconds))
  = [5000; 5100].
Proof. reflexivity. Qed.

Lemma gaps_snoc (times : list Z) (t d : Z) :
  gaps (times ++ [t])%list
  = match times with
    | [] => []
    | _ => (gaps times ++ [t - List.last times d])%list
    end.
Proof.
  induction times as [|a [|b r] IH]; try reflexivity.
  change (gaps ((a :: b :: r) ++ [t])%list)
    with ((b - a) :: gaps ((b :: r) ++ [t])%list).
  rewrite IH. reflexivity.
Qed.

(** Calls that do go through the limiter, one after the other, keep the
    spacing. *)
Lemma rateLimited_keeps_spacing (service : Service) (c : Clock) :
  (forall n, 0 <= fst (service n)) ->
  settled c -> settled (snd (rateLimitedMusicBrainzCall service c)).
Proof.
  intros Hlat (Hsp & Hle & Hlast).
  unfold rateLimitedMusicBrainzCall, axiosGet, settled, rateLimit in *.
  set (w := if now c - lastMusicBrainzCall c <? 1000
            then sleep (1000 - (now c - lastMusicBrainzCall c)) c else c).
  assert (Hw : sent w = sent c /\ lastMusicBrainzCall c + 1000 <= now w).
  { unfold w. destruct (Z.ltb_spec (now c - lastMusicBrainzCall c) 1000);
      simpl; split; try reflexivity; lia. }
  destruct Hw as [Hsent Hnow]. cbn [snd sent now lastMusicBrainzCall].
  rewrite Hsent. split; [|split].
  - unfold spaced. rewrite (gaps_snoc _ _ 0).
    destruct (sent c) as [|a r] eqn:E; [constructor|].
    apply Forall_app. split; [exact Hsp|].
    constructor; [|constructor].
    destruct Hlast as [H|H]; [discriminate H|].
    rewrite H. unfold rateLimit. lia.
  - specialize (Hlat (List.length (sent c))). simpl. lia.
  - right. apply List.last_last.
Qed.

Lemma limitedCalls_spaced (service : Service) (n : nat) (c : Clock) :
  (forall k, 0 <= fst (service k)) ->
  settled c -> settled (limitedCalls service n c).
Proof.
  intros Hlat. revert c. induction n as [|n IH]; intros c Hc; simpl.
  - exact Hc.
  - apply IH. now apply rateLimited_keeps_spacing.
Qed.

End RateLimit.

(** * More of the backend

    The rest of this development covers code around the places studied
    above: the endpoint that exposes the resolver, the light ranking as a
    whole, the three copies of the file selection, the remaining helpers of
    [backend/index.js] and the endpoints built on them. *)

(** ** The resolver, applied twice, and [POST /api/resolve-magnet] *)

Module ResolveEndpoint.
Import Exn Resolver.

(** What the endpoint sends. *)
Inductive Answer : Type :=
| BadRequest (error : string)
| Resolved (magnetUrl originalUrl : string)
| Unresolved (originalUrl : string)
| ServerError (error : string).

(** The handler: [downloadUrl] is the field of the request body, [None]
    when it is absent. *)
Definition resolveMagnet (net : string -> Fetch) (downloadUrl : option string)
  : Answer :=
  match downloadUrl with
  | None => BadRequest "Download URL is required"
  | Some EmptyString => BadRequest "Download URL is required"
  | Some url =>
      match resolveMagnetUrl net url with
      | Normal resolvedMagnetLink =>
          if (negb (String.eqb resolvedMagnetLink EmptyString)
              && negb (String.eqb resolvedMagnetLink url))%bool
          then Resolved resolvedMagnetLink url
          else Unresolved url
      | Throw e => ServerError e
      end
  end.

(** The resolver asks the network about a URL only when the URL is not a
    magnet link and names the local indexer. *)
Lemma resolveMagnetUrl_same_answer
  (net net' : string -> Fetch) (downloadUrl : string) :
  (Js.startsWith downloadUrl "magnet:" = false -> isLocal downloadUrl = true ->
   net' downloadUrl = net downloadUrl) ->
  resolveMagnetUrl net' downloadUrl = resolveMagnetUrl net downloadUrl.
Proof.
  intros Hsame. unfold resolveMagnetUrl, resolveAttempt.
  destruct (Js.startsWith downloadUrl "magnet:"); [reflexivity|].
  destruct (isLocal downloadUrl); [|reflexivity].
  unfold axiosGet. now rewrite Hsame.
Qed.

(** Resolving a resolved link again, at any later time, gives the same
    link whatever the network then answers, with one exception: a URL of
    the local indexer that came back unresolved is requested again, and
    gives the same result when the network answers that URL as it did
    before. *)
Theorem resolved_link_resolves_to_itself
  (net net' : string -> Fetch) (downloadUrl resolved : string) :
  resolveMagnetUrl net downloadUrl = Normal resolved ->
  (Js.startsWith resolved "magnet:" = false -> isLocal resolved = true ->
   net' resolved = net resolved) ->
  resolveMagnetUrl net' resolved = Normal resolved.
Proof.
  intros H Hsame.
  assert (Hshape : resolved = downloadUrl \/ Js.startsWith resolved "magnet:" = true).
  { unfold resolveMagnetUrl in H.
    destruct (resolveAttempt net downloadUrl) as [s|m] eqn:E; simpl in H;
      injection H as <-.
    - now apply resolveAttempt_result with net.
    - now left. }
  destruct (Js.startsWith resolved "magnet:") eqn:Hm.
  - unfold resolveMagnetUrl, resolveAttempt. now rewrite Hm.
  - destruct Hshape as [->|Habs]; [|discriminate].
    rewrite <- H. apply resolveMagnetUrl_same_answer. intros _. now apply Hsame.
Qed.

(** The exception is a real one: an indexer that fails and later redirects
    to a magnet link. *)
Example unresolved_link_may_resolve_later :
  resolveMagnetUrl (fun _ => Failed "ECONNREFUSED")
    "http://localhost:9696/1/download?link=x"
  = Normal "http://localhost:9696/1/download?link=x" /\
  resolveMagnetUrl
    (fun _ => Answered (mkResponse 302 (Some "magnet:?xt=urn:btih:abc") OtherBody))
    "http://localhost:9696/1/download?link=x"
  = Normal "magnet:?xt=urn:btih:abc".
Proof. split; reflexivity. Qed.

Lemma resolved_link_example :
  resolveMagnetUrl (fun _ => Failed "ECONNREFUSED") "magnet:?xt=urn:btih:abc"
  = Normal "magnet:?xt=urn:btih:abc" /\
  resolveMagnetUrl (fun _ => Failed "ECONNREFUSED")
    "https://example.org/file.torrent"
  = Normal "https://example.org/file.torrent".
Proof.
  split.
  - apply (resolved_link_resolves_to_itself
             (fun _ => Answered
                (mkResponse 302 (Some "magnet:?xt=urn:btih:abc") OtherBody))
             (fun _ => Failed "ECONNREFUSED")
             "http://localhost:9696/1/download?link=x").
    + reflexivity.
    + intros H. discriminate H.
  - apply (resolved_link_resolves_to_itself
             (fun _ => Answered (mkResponse 200 None OtherBody))
             (fun _ => Failed "ECONNREFUSED")
             "https://example.org/file.torrent").
    + reflexivity.
    + intros _ H. vm_compute in H. discriminate H.
Defined.

(** The endpoint never answers 500; it reports success exactly when the
    resolver returned something other than the input, and that is then a
    magnet link; and it reports failure for an input that already is a
    magnet link, since the resolver returns it unchanged. *)
Theorem resolve_endpoint_outcomes
  (net : string -> Fetch) (downloadUrl : option string) :
  (forall e, resolveMagnet net downloadUrl <> ServerError e) /\
  (forall m u, resolveMagnet net downloadUrl = Resolved m u ->
     downloadUrl = Some u /\ m <> u /\ Js.startsWith m "magnet:" = true /\
     resolveMagnetUrl net u = Normal m) /\
  (forall u, downloadUrl = Some u -> Js.startsWith u "magnet:" = true ->
     resolveMagnet net downloadUrl = Unresolved u) /\
  (forall u m, downloadUrl = Some u -> u <> EmptyString ->
     resolveMagnetUrl net u = Normal m -> m <> u -> m <> EmptyString ->
     resolveMagnet net downloadUrl = Resolved m u).
Proof.
  assert (Hres : forall u, exists s, resolveMagnetUrl net u = Normal s /\
            (s = u \/ Js.startsWith s "magnet:" = true)).
  { intros u. unfold resolveMagnetUrl.
    destruct (resolveAttempt net u) as [s|m] eqn:E; simpl.
    - exists s. split; [reflexivity|]. now apply resolveAttempt_result with net.
    - exists u. split; [reflexivity|now left]. }
  split; [|split; [|split]].
  - intros e. unfold resolveMagnet.
    destruct downloadUrl as [[|c r]|]; try discriminate.
    destruct (Hres (String c r)) as (s & -> & _).
    destruct (_ && _)%bool; discriminate.
  - intros m u. unfold resolveMagnet.
    destruct downloadUrl as [[|c r]|]; try discriminate.
    destruct (Hres (String c r)) as (s & Hs & Hshape). rewrite Hs.
    destruct (String.eqb s EmptyString) eqn:Hempty; [discriminate|].
    destruct (String.eqb_spec s (String c r)) as [->|Hne]; [discriminate|].
    simpl. intros H. injection H as <- <-.
    split; [reflexivity|]. split; [exact Hne|].
    split; [|exact Hs]. destruct Hshape as [->|Hm]; [contradiction|exact Hm].
  - intros u -> Hm. unfold resolveMagnet.
    destruct u as [|c r]; [discriminate|].
    assert (Hsame : resolveMagnetUrl net (String c r) = Normal (String c r))
      by (unfold resolveMagnetUrl, resolveAttempt; now rewrite Hm).
    rewrite Hsame, String.eqb_refl, andb_false_r. reflexivity.
  - intros u m -> Hu Hm Hne Hnonempty. unfold resolveMagnet.
    destruct u as [|c r]; [contradiction|]. rewrite Hm.
    apply String.eqb_neq in Hne. apply String.eqb_neq in Hnonempty.
    now rewrite Hne, Hnonempty.
Qed.

End ResolveEndpoint.

(** ** The light ranking as a whole: [scoreAndFilterTorrents] *)

Module LightRanking.
Import Ranking.

Lemma wordPoints_nonneg (ttl : string) (words : list string) :
  0 <= wordPoints ttl words.
Proof. unfold wordPoints. rewrite wordPoints_from. lia. Qed.

Lemma seederBonus_active (s : Z) : 0 < s -> 20 <= seederBonus s.
Proof.
  intros Hs. unfold seederBonus.
  repeat match goal with |- context [?a <? ?b] => destruct (Z.ltb_spec a b) end;
    lia.
Qed.

(** The light ranking returns the candidates that have a seeder, each once,
    sorted by score with the highest first. Every score is the light score
    of the specification for the query made of artist, track and album, and
    is at least 20: the light ranking has no candidate to drop for its
    score. *)
Theorem light_ranking_output
  (torrents : list Torrent) (artist track : string) (album : option string) :
  let query := artist +:+ " " +:+ track +:+ " " +:+ Js.orEmpty album in
  let out := scoreAndFilterTorrents torrents artist track album in
  Permutation (List.map scoredTorrent out) (List.filter hasActiveSeeder torrents) /\
  StronglySorted (fun a b => lightScore a >= lightScore b) out /\
  (forall r, In r out ->
     In (scoredTorrent r) torrents /\
     0 < Js.orZero (seeders (scoredTorrent r)) /\
     lightScore r = specLightScore query (scoredTorrent r) /\
     20 <= lightScore r).
Proof.
  intros query out. unfold out, scoreAndFilterTorrents. fold query.
  split; [|split].
  - eapply perm_trans.
    + apply Permutation_map, sortBy_perm.
    + rewrite List.map_map. simpl. rewrite List.map_id. apply Permutation_refl.
  - eapply StronglySorted_weaken;
      [|apply sortBy_sorted; [apply scoredDesc_total|apply scoredDesc_trans]].
    intros a b. unfold scoredDesc. lia.
  - intros r Hr. apply (proj1 (sortBy_In scoredDesc _ _)) in Hr.
    apply in_map_iff in Hr. destruct Hr as (t & <- & Ht).
    apply filter_In in Ht. destruct Ht as [Ht Hs].
    unfold hasActiveSeeder in Hs. apply Z.ltb_lt in Hs. simpl.
    split; [exact Ht|]. split; [exact Hs|].
    split; [apply scoreLight_meets_spec|].
    unfold scoreLight.
    pose proof (seederBonus_active _ Hs).
    pose proof (wordPoints_nonneg
      (Js.toLowerCase (Js.orEmpty (title t)))
      (searchWords (Js.toLowerCase query))).
    lia.
Qed.

End LightRanking.

(** ** The three copies of the file selection, side by side *)

Module SelectorPaths.
Import Exn Swarm Selector.

(** The first run of decimal digits of a text. *)
Definition firstDigits (s : string) : string :=
  Js.takeWhile Js.isDigit (Js.dropWhile (fun c => negb (Js.isDigit c)) s).

Definition nonEmptyText (s : string) : option string :=
  match s with
  | EmptyString => None
  | String _ _ => Some s
  end.

(** Two hints on which the copies part ways. *)
Definition twoTracks : list File :=
  List.map audio ["01 - song.mp3"; "02 - other.mp3"].

Lemma lowerChar_digit (c : ascii) :
  Js.isDigit c = true -> Js.lowerChar c = c.
Proof.
  destruct c as [[] [] [] [] [] [] [] []]; try discriminate; reflexivity.
Qed.

Lemma takeWhile_digits_spaces (s : string) :
  Js.takeWhile Js.isDigit (Js.dropWhile Js.isSpace s) <> EmptyString ->
  firstDigits s = Js.takeWhile Js.isDigit (Js.dropWhile Js.isSpace s).
Proof.
  unfold firstDigits. induction s as [|c r IH]; simpl; [congruence|].
  destruct (Js.isSpace c) eqn:Hsp.
  - assert (Hd : Js.isDigit c = false).
    { destruct (Js.isDigit c) eqn:Hd; [|reflexivity].
      now rewrite (isDigit_not_space c Hd) in Hsp. }
    rewrite Hd. simpl. exact IH.
  - destruct (Js.isDigit c) eqn:Hd; simpl; rewrite Hd; [reflexivity|congruence].
Qed.

Lemma firstDigits_skip (c : ascii) (r : string) :
  Js.isDigit c = false -> firstDigits (String c r) = firstDigits r.
Proof. intros Hd. unfold firstDigits. simpl. now rewrite Hd. Qed.

Lemma prefix_lower_cons (k : ascii) (p s : string) :
  String.prefix (String k p) (Js.toLowerCase s) = true ->
  exists c r, s = String c r /\ k = Js.lowerChar c /\
    String.prefix p (Js.toLowerCase r) = true.
Proof.
  destruct s as [|c r]; simpl; [discriminate|].
  destruct (ascii_dec k (Js.lowerChar c)) as [e|]; [|discriminate].
  intros H. now exists c, r.
Qed.

Lemma lowered_letter_not_digit (k c : ascii) :
  Js.isDigit k = false -> k = Js.lowerChar c -> Js.isDigit c = false.
Proof.
  intros Hk Heq. destruct (Js.isDigit c) eqn:Hd; [|reflexivity].
  rewrite (lowerChar_digit c Hd) in Heq. congruence.
Qed.

Lemma prefix_track_digits (s : string) :
  String.prefix "track" (Js.toLowerCase s) = true ->
  firstDigits s = firstDigits (Js.dropChars 5 s) /\
  Js.takeWhile Js.isDigit s = EmptyString.
Proof.
  intros H.
  apply prefix_lower_cons in H. destruct H as (c1 & s1 & -> & E1 & H).
  apply prefix_lower_cons in H. destruct H as (c2 & s2 & -> & E2 & H).
  apply prefix_lower_cons in H. destruct H as (c3 & s3 & -> & E3 & H).
  apply prefix_lower_cons in H. destruct H as (c4 & s4 & -> & E4 & H).
  apply prefix_lower_cons in H. destruct H as (c5 & s5 & -> & E5 & _).
  apply lowered_letter_not_digit in E1, E2, E3, E4, E5; try reflexivity.
  split.
  - rewrite !firstDigits_skip by assumption. reflexivity.
  - simpl. now rewrite E1.
Qed.

Lemma trackNumberAt_Some (s digits : string) :
  trackNumberAt s = Some digits ->
  digits <> EmptyString /\ firstDigits s = digits.
Proof.
  unfold trackNumberAt.
  destruct (String.prefix "track" (Js.toLowerCase s)) eqn:Hp.
  - destruct (prefix_track_digits s Hp) as [Hfirst Hnone].
    destruct (Js.takeWhile Js.isDigit
                (Js.dropWhile Js.isSpace (Js.dropChars 5 s))) as [|c r] eqn:E.
    + rewrite Hnone. discriminate.
    + intros H. injection H as <-. split; [discriminate|].
      rewrite Hfirst, takeWhile_digits_spaces; rewrite E; [reflexivity|discriminate].
  - destruct (Js.takeWhile Js.isDigit s) as [|c r] eqn:E; [discriminate|].
    intros H. injection H as <-. split; [discriminate|].
    unfold firstDigits. destruct s as [|c0 r0]; [discriminate|].
    simpl in *. destruct (Js.isDigit c0) eqn:Hd; [|discriminate].
    simpl. rewrite Hd. exact E.
Qed.

Lemma trackNumberAt_None (s : string) :
  trackNumberAt s = None ->
  match s with
  | EmptyString => True
  | String c _ => Js.isDigit c = false
  end.
Proof.
  unfold trackNumberAt.
  destruct (if String.prefix "track" (Js.toLowerCase s) then _ else _);
    [|discriminate].
  destruct s as [|c r]; [trivial|]. simpl.
  destruct (Js.isDigit c); [discriminate|reflexivity].
Qed.

Lemma trackNumberMatch_firstDigits (s : string) :
  trackNumberMatch s = nonEmptyText (firstDigits s).
Proof.
  induction s as [|c r IH]; [reflexivity|].
  cbn [trackNumberMatch].
  destruct (trackNumberAt (String c r)) as [digits|] eqn:E.
  - apply trackNumberAt_Some in E. destruct E as [Hne <-].
    destruct (firstDigits (String c r)); [contradiction|reflexivity].
  - apply trackNumberAt_None in E. rewrite firstDigits_skip by exact E. exact IH.
Qed.

Lemma firstDigits_allDigits (s : string) :
  Js.allChars Js.isDigit (firstDigits s) = true.
Proof.
  unfold firstDigits.
  induction (Js.dropWhile (fun c => negb (Js.isDigit c)) s) as [|c r IH];
    [reflexivity|].
  simpl. destruct (Js.isDigit c) eqn:Hd; [|reflexivity].
  simpl. now rewrite Hd.
Qed.

(** The track number read from a hint is the value of the first run of
    digits anywhere in it, whatever surrounds them: the optional word
    [track] of the pattern plays no part. A hint without a digit has no
    track number. *)
Theorem track_number_is_first_digit_run (hint : string) :
  trackNumberOf hint =
    match firstDigits hint with
    | EmptyString => None
    | String _ _ => Some (Js.digitsValue 0 (firstDigits hint))
    end.
Proof.
  unfold trackNumberOf. rewrite trackNumberMatch_firstDigits.
  pose proof (firstDigits_allDigits hint) as Hall.
  destruct (firstDigits hint) as [|c r]; [reflexivity|].
  simpl in Hall. apply andb_prop in Hall. destruct Hall as [Hc _].
  unfold nonEmptyText, Js.parseInt.
  assert (Hsp : Js.isSpace c = false).
  { destruct (Js.isSpace c) eqn:Hsp; [|reflexivity].
    now rewrite (isDigit_not_space c Hc) in Hsp. }
  cbn [Js.dropWhile]. rewrite Hsp.
  destruct (Ascii.eqb_spec c "-") as [->|Hm]; [discriminate|].
  destruct (Ascii.eqb_spec c "+") as [->|Hpl]; [discriminate|].
  assert (Hsigned :
    match String c r with
    | String "-"%char r0 => (-1, r0)
    | String "+"%char r0 => (1, r0)
    | _ => (1, String c r)
    end = (1, String c r)).
  { destruct c as [[] [] [] [] [] [] [] []]; try reflexivity; congruence. }
  rewrite Hsigned. cbn [snd fst]. rewrite Hc.
  f_equal. destruct (Js.digitsValue 0 (String c r)); reflexivity.
Qed.

(** The answers of the three preparation paths agree when the hint is
    absent or matches a file name exactly or as a part. They need not agree
    otherwise: a hint that only carries a track number is honoured by the
    handler and by [processStreamRequest] but not by the background
    variant, and a hint that only matches once track prefixes are removed
    is honoured by the handler alone. *)
Theorem preparation_paths_agree_on_name_match
  (localeCompare : string -> string -> Z)
  (hint : option string) (audioFiles : list File) :
  (hinted hint = None \/
   exists h, hinted hint = Some h /\
     (exactMatch h audioFiles <> None \/ partialMatch h audioFiles <> None)) ->
  targetFileReady localeCompare hint audioFiles
    = targetFile localeCompare hint audioFiles /\
  targetFileAsync localeCompare hint audioFiles
    = targetFile localeCompare hint audioFiles.
Proof.
  unfold targetFileReady, targetFileAsync, targetFile, matchedFile.
  intros [->|(h & -> & Hfound)]; [split; reflexivity|].
  destruct (exactMatch h audioFiles) as [f|]; [split; reflexivity|].
  destruct (partialMatch h audioFiles) as [f|]; [split; reflexivity|].
  destruct Hfound; contradiction.
Qed.

Lemma preparation_paths_agree_example :
  targetFileReady codeOrder (Some "B.MP3") fiveTracks
    = targetFile codeOrder (Some "B.MP3") fiveTracks /\
  targetFileAsync codeOrder (Some "B.MP3") fiveTracks
    = targetFile codeOrder (Some "B.MP3") fiveTracks.
Proof.
  apply (preparation_paths_agree_on_name_match codeOrder (Some "B.MP3") fiveTracks).
  right. exists "B.MP3". split; [reflexivity|]. left. vm_compute. discriminate.
Defined.

(** Outside those cases the copies do part ways. *)
Example preparation_paths_differ :
  targetFile codeOrder (Some "Track 3") fiveTracks = Some (audio "c.mp3") /\
  targetFileReady codeOrder (Some "Track 3") fiveTracks = Some (audio "c.mp3") /\
  targetFileAsync codeOrder (Some "Track 3") fiveTracks = Some (audio "a.flac") /\
  targetFile codeOrder (Some "9. other.mp3") twoTracks
    = Some (audio "02 - other.mp3") /\
  targetFileReady codeOrder (Some "9. other.mp3") twoTracks
    = Some (audio "01 - song.mp3").
Proof. repeat split; vm_compute; reflexivity. Qed.

(** Whatever the hint and the collation, the handler of
    [/api/stream-torrent] never fails on the selection: with no audio file
    it answers 404, otherwise 400 for a count mismatch or a stream
    description. The file it describes is an audio file of the torrent,
    with that file's length, and [totalTracks] counts the audio files. *)
Theorem stream_answer_describes_audio_file
  (localeCompare : string -> string -> Z)
  (torrentFiles : list File) (hint : option string) (expectedFileCount : JsValue) :
  (forall e, streamTorrentAnswer localeCompare torrentFiles hint expectedFileCount
             <> InternalError e) /\
  (forall info,
     streamTorrentAnswer localeCompare torrentFiles hint expectedFileCount
       = StreamReady info ->
     exists f, In f torrentFiles /\ isAudio f = true /\
       fileName info = name f /\ fileSize info = fileLength f /\
       totalTracks info
         = Z.of_nat (List.length (List.filter isAudio torrentFiles))) /\
  (streamTorrentAnswer localeCompare torrentFiles hint expectedFileCount
     = NoAudioFiles <-> List.filter isAudio torrentFiles = []).
Proof.
  unfold streamTorrentAnswer.
  set (audioFiles := List.filter isAudio torrentFiles).
  destruct audioFiles as [|a rest] eqn:Eaudio.
  - simpl. split; [discriminate|]. split; [discriminate|]. tauto.
  - cbn [List.length Nat.eqb].
    destruct (countMismatch _ _).
    + split; [discriminate|]. split; [discriminate|]. split; discriminate.
    + destruct (targetFile_Some localeCompare hint (a :: rest)) as (f & Hf & Hin);
        [discriminate|].
      rewrite Hf. split; [discriminate|]. split; [|split; discriminate].
      intros info H. injection H as <-. exists f.
      rewrite <- Eaudio in Hin. unfold audioFiles in Hin.
      apply filter_In in Hin. destruct Hin as [Hin Haudio].
      repeat split; assumption || reflexivity.
Qed.

Lemma stream_answer_example :
  exists f, In f fiveTracks /\ isAudio f = true /\ name f = "c.mp3".
Proof.
  destruct (stream_answer_describes_audio_file codeOrder fiveTracks
              (Some "Track 3") JUndefined) as (_ & Hready & _).
  destruct (Hready (mkStreamInfo "c.mp3" 0 5)) as (f & Hin & Haudio & Hname & _).
  - vm_compute. reflexivity.
  - exists f. repeat split; try assumption. symmetry. exact Hname.
Defined.

End SelectorPaths.

(** ** The streaming responder away from well-formed ranges

    What the swarm engine does with a bound that is not a number is not
    code of this repository; nothing below depends on it. The content type
    of the answer is left to the section on content types. *)

Module StreamingEdges.
Import Swarm Selector Streaming.


(** The header [bytes=-n], which asks for the last [n] bytes. *)
Definition suffixRange (n : Z) : string := "bytes=-" +:+ Js.numberToString n.

(** The largest integer below which every integer is a number of
    JavaScript: [Number.MAX_SAFE_INTEGER]. *)
Definition maxSafeInteger : Z := 9007199254740991.





(** A suffix range [bytes=-n] is not read as the last [n] bytes: the start
    is read from the empty text before the dash and is not a number, and
    the end is [n]. An answer that is streamed for it carries the status
    206, [Content-Range: bytes NaN-n/L] and a content length that is not a
    number. The number [n] is one that JavaScript represents exactly. *)
Theorem suffix_range_not_a_number
  (activeTorrents : gmap string Handle) (magnetLink fileName : string)
  (torrent : Handle) (targetFile : File) (n : Z) :
  activeTorrents !! magnetLink = Some torrent ->
  List.find (fun f => String.eqb (name f) fileName) (files torrent)
  = Some targetFile ->
  0 <= n <= maxSafeInteger ->
  rangeStart (suffixRange n) = None /\
  rangeEnd (suffixRange n) (fileLength targetFile) = Some n /\
  forall status headers body,
    streamFile activeTorrents magnetLink fileName (Some (suffixRange n))
    = Streamed status headers body ->
    status = 206 /\
    headers !! "Content-Range"
    = Some ("bytes NaN-" +:+ Js.numberToString n +:+ "/"
            +:+ Js.numberToString (fileLength targetFile)) /\
    headers !! "Content-Length" = Some "NaN".
Proof.
  intros Hreg Hfile [Hn _].
  assert (Hparts : rangeParts (suffixRange n) = [EmptyString; Js.numberToString n]).
  { unfold rangeParts, suffixRange.
    change ("bytes=-" +:+ Js.numberToString n)
      with ("bytes=" +:+ (EmptyString +:+ String "-"%char (Js.numberToString n))).
    rewrite removeFirst_bytes, splitOn_app by reflexivity.
    destruct (numberToString_digits n Hn) as (c & r & E & Hd).
    rewrite splitOn_whole by (rewrite E; now apply digits_no_dash).
    reflexivity. }
  assert (Hstart : rangeStart (suffixRange n) = None).
  { unfold rangeStart. rewrite Hparts. reflexivity. }
  assert (Hstop : rangeEnd (suffixRange n) (fileLength targetFile) = Some n).
  { unfold rangeEnd. rewrite Hparts. simpl.
    destruct (numberToString_digits n Hn) as (c & r & E & _).
    rewrite E. simpl. rewrite <- E. now apply parseInt_numberToString. }
  split; [exact Hstart|]. split; [exact Hstop|].
  intros status headers body. unfold streamFile. rewrite Hreg, Hfile.
  assert (Hh : exists c r, suffixRange n = String c r)
    by (unfold suffixRange; simpl; eauto).
  destruct Hh as (c & r & Eh). rewrite Eh, <- Eh, Hstart, Hstop.
  intros H. injection H as <- <- _. split; [reflexivity|]. split.
  - rewrite lookup_insert_ne by discriminate. now rewrite lookup_insert_eq.
  - now rewrite lookup_insert_eq.
Qed.

Lemma suffix_range_example :
  rangeStart "bytes=-500" = None /\
  rangeEnd "bytes=-500" 1000 = Some 500 /\
  forall status headers body,
    streamFile sampleTorrents "magnet:?xt=urn:btih:abc" "a.mp3"
      (Some "bytes=-500")
    = Streamed status headers body ->
    status = 206 /\
    headers !! "Content-Range" = Some "bytes NaN-500/1000" /\
    headers !! "Content-Length" = Some "NaN".
Proof.
  apply (suffix_range_not_a_number sampleTorrents "magnet:?xt=urn:btih:abc"
           "a.mp3" (mkHandle 0 "album" [blankFile "a.mp3" 1000] true)
           (blankFile "a.mp3" 1000) 500 eq_refl eq_refl).
  unfold maxSafeInteger. lia.
Defined.

End StreamingEdges.

(** ** The content type of the files the selection can choose *)

Module ContentType.
Import Swarm Selector Streaming.

Lemma substring_all (s : string) : String.substring 0 (String.length s) s = s.
Proof. induction s as [|c r IH]; simpl; [reflexivity|now rewrite IH]. Qed.

Lemma substring_suffix (s suf : string) (i : nat) :
  String.substring i (String.length suf) s = suf ->
  (i + String.length suf)%nat = String.length s ->
  exists pre, s = pre +:+ suf.
Proof.
  revert i. induction s as [|c r IH]; intros i Hsub Hlen.
  - exists EmptyString. destruct suf; [reflexivity|simpl in Hlen; lia].
  - destruct i as [|i].
    + exists EmptyString. simpl in Hlen. rewrite Hlen in Hsub.
      rewrite <- Hsub. simpl. now rewrite substring_all.
    + simpl in Hsub, Hlen. destruct (IH i Hsub) as [pre ->]; [lia|].
      now exists (String c pre).
Qed.

Lemma endsWith_app (s suf : string) :
  Js.endsWith s suf = true -> exists pre, s = pre +:+ suf.
Proof.
  unfold Js.endsWith. intros H. apply andb_prop in H. destruct H as [Hle Heq].
  apply Nat.leb_le in Hle. apply String.eqb_eq in Heq.
  apply substring_suffix with (String.length s - String.length suf)%nat;
    [exact Heq|lia].
Qed.

Lemma splitOn_before (sep : ascii) (pre rest : string) :
  exists w ws,
    Js.splitOn sep (pre +:+ String sep rest)
    = ((w :: ws) ++ Js.splitOn sep rest)%list.
Proof.
  induction pre as [|c r (w & ws & IH)].
  - exists EmptyString, []. simpl. now rewrite Ascii.eqb_refl.
  - change (String c r +:+ String sep rest)
      with (String c (r +:+ String sep rest)).
    cbn [Js.splitOn]. rewrite IH. destruct (Ascii.eqb c sep).
    + now exists EmptyString, (w :: ws).
    + now exists (String c w), ws.
Qed.

(** [split('.').pop()] of a name that ends with a dot and an extension
    without dots. *)
Lemma extension_of (pre ext : string) :
  Js.allChars (fun c => negb (Ascii.eqb c "."%char)) ext = true ->
  lastOr EmptyString (Js.splitOn "."%char (pre +:+ String "."%char ext)) = ext.
Proof.
  intros Hext. destruct (splitOn_before "."%char pre ext) as (w & ws & ->).
  rewrite (splitOn_whole _ _ Hext). unfold lastOr. apply List.last_last.
Qed.

(** Every file that passes the audio filter is served with the content
    type of its own extension, upper or lower case; the default of
    [getMimeType] is never what decides for such a file. *)
Theorem audio_file_content_type (f : File) :
  isAudio f = true ->
  exists ext mime,
    In (ext, mime)
      [(".mp3", "audio/mpeg"); (".flac", "audio/flac"); (".wav", "audio/wav");
       (".m4a", "audio/mp4"); (".aac", "audio/aac"); (".ogg", "audio/ogg");
       (".wma", "audio/x-ms-wma")] /\
    Js.endsWith (Js.toLowerCase (name f)) ext = true /\
    getMimeType (name f) = mime.
Proof.
  unfold isAudio, audioExtensions. intros H.
  apply existsb_exists in H. destruct H as (ext & Hin & Hends).
  assert (Hone : forall e : string,
            Js.allChars (fun c => negb (Ascii.eqb c "."%char)) e = true ->
            Js.endsWith (Js.toLowerCase (name f)) (String "."%char e) = true ->
            lastOr EmptyString (Js.splitOn "."%char (Js.toLowerCase (name f))) = e).
  { intros e He Hend. apply endsWith_app in Hend. destruct Hend as [pre ->].
    now apply extension_of. }
  simpl in Hin.
  destruct Hin as [<-|[<-|[<-|[<-|[<-|[<-|[<-|[]]]]]]]];
    [ exists ".mp3", "audio/mpeg" | exists ".flac", "audio/flac"
    | exists ".wav", "audio/wav" | exists ".m4a", "audio/mp4"
    | exists ".aac", "audio/aac" | exists ".ogg", "audio/ogg"
    | exists ".wma", "audio/x-ms-wma" ];
    (split; [simpl; tauto|]); (split; [exact Hends|]);
    unfold getMimeType.
  - now rewrite (Hone "mp3" eq_refl Hends).
  - now rewrite (Hone "flac" eq_refl Hends).
  - now rewrite (Hone "wav" eq_refl Hends).
  - now rewrite (Hone "m4a" eq_refl Hends).
  - now rewrite (Hone "aac" eq_refl Hends).
  - now rewrite (Hone "ogg" eq_refl Hends).
  - now rewrite (Hone "wma" eq_refl Hends).
Qed.

Lemma audio_file_content_type_example :
  exists ext mime,
    In (ext, mime)
      [(".mp3", "audio/mpeg"); (".flac", "audio/flac"); (".wav", "audio/wav");
       (".m4a", "audio/mp4"); (".aac", "audio/aac"); (".ogg", "audio/ogg");
       (".wma", "audio/x-ms-wma")] /\
    Js.endsWith (Js.toLowerCase "01 Intro.FLAC") ext = true /\
    getMimeType "01 Intro.FLAC" = mime.
Proof.
  apply (audio_file_content_type (audio "01 Intro.FLAC")). reflexivity.
Defined.

End ContentType.

(** ** The registry after a magnet link has been registered

    Four handlers look a magnet link up with [activeTorrents.get] and, when
    it is missing, call [torrentClient.add], await [ready] and only then
    call [activeTorrents.set]: the synchronous path of
    [/api/stream-torrent], [processTorrentStreamAsync],
    [/api/torrent-tracks] and [/api/play-album-track]. A request of any of
    them goes through the steps of [Registry.Request]. Besides them the
    registry is changed by the pre-loader, which registers a link at once,
    by the [error] handler of a pre-loaded torrent, which deletes its link,
    and by [/api/cleanup-torrents], which destroys every torrent and
    deletes the entries whose [destroy] did not throw.
    [/api/test-torrent] adds its link to the engine without looking at the
    registry and without changing it; it is not among the events here. *)

Module RegistryReuse.
Import Swarm Registry.

(** [torrentClient.add] throws: the call was made, no torrent object comes
    back. *)
Definition failedAdd (magnetLink : string) (w : World) : World :=
  mkWorld (torrents w) (activeTorrents w) (magnetLink :: addCalls w).

(** A request of one of the four handlers arrives and [torrentClient.add]
    throws inside the promise: the promise is rejected, the handler
    answers with an error and stores nothing. *)
Definition arriveThrowing (magnetLink : string) (w : World) : World :=
  match activeTorrents w !! magnetLink with
  | Some _ => w
  | None => failedAdd magnetLink w
  end.

(** The pre-loader's registration with its [try] and [catch]: nothing for
    a link that is registered; otherwise [torrentClient.add], which may
    throw, and then [activeTorrents.set]. *)
Definition preloadAdd (addThrows : bool) (magnetLink : string) (w : World)
  : World :=
  match activeTorrents w !! magnetLink with
  | Some _ => w
  | None =>
      if addThrows then failedAdd magnetLink w
      else let '(w', ref) := clientAdd magnetLink w in register magnetLink ref w'
  end.

(** The [error] handler of a pre-loaded torrent:
    [activeTorrents.delete(resolvedMagnetUrl)]. *)
Definition torrentError (magnetLink : string) (w : World) : World :=
  mkWorld (torrents w) (delete magnetLink (activeTorrents w)) (addCalls w).

(** [/api/cleanup-torrents]: [destroyThrows] says for which links
    [torrent.destroy()] throws; their entries stay. *)
Definition cleanupTorrents (destroyThrows : string -> bool) (w : World) : World :=
  mkWorld (torrents w)
    (filter (fun entry => destroyThrows (fst entry) = true) (activeTorrents w))
    (addCalls w).

(** What can happen to the registry, one thing after the other. *)
Inductive Event : Type :=
| RequestStep (i : nat)
| RequestThrows (magnetLink : string)
| Preloaded (magnetLink : string) (addThrows : bool)
| TorrentError (magnetLink : string)
| CleanUp (destroyThrows : string -> bool).

Definition handleEvent (e : Event) (st : World * list Request)
  : World * list Request :=
  match e with
  | RequestStep i => step i st
  | RequestThrows m => (arriveThrowing m (fst st), snd st)
  | Preloaded m addThrows => (preloadAdd addThrows m (fst st), snd st)
  | TorrentError m => (torrentError m (fst st), snd st)
  | CleanUp destroyThrows => (cleanupTorrents destroyThrows (fst st), snd st)
  end.

Definition runEvents (events : list Event) (st : World * list Request)
  : World * list Request :=
  fold_left (fun s e => handleEvent e s) events st.

(** The event leaves the registration of [magnetLink] in place. *)
Definition keeps (magnetLink : string) (e : Event) : Prop :=
  match e with
  | TorrentError m => m <> magnetLink
  | CleanUp destroyThrows => destroyThrows magnetLink = true
  | _ => True
  end.

Lemma stepRequest_registered (m : string) (r : Request) (w : World) :
  is_Some (activeTorrents w !! m) ->
  is_Some (activeTorrents (fst (stepRequest r w)) !! m) /\
  addCount m (fst (stepRequest r w)) = addCount m w.
Proof.
  intros Hreg. destruct r as [m'|m' ref|ref]; simpl.
  - unfold arrive. destruct (activeTorrents w !! m') as [ref|] eqn:E; simpl.
    + split; [exact Hreg|reflexivity].
    + split; [exact Hreg|].
      assert (Hne : m <> m') by (intros ->; rewrite E in Hreg; now destruct Hreg).
      apply String.eqb_neq in Hne. unfold addCount. simpl. now rewrite Hne.
  - split; [|reflexivity].
    destruct (decide (m' = m)) as [->|Hne].
    + rewrite lookup_insert_eq. eauto.
    + now rewrite lookup_insert_ne.
  - split; [exact Hreg|reflexivity].
Qed.

Lemma step_registered (m : string) (i : nat) (st : World * list Request) :
  is_Some (activeTorrents (fst st) !! m) ->
  is_Some (activeTorrents (fst (step i st)) !! m) /\
  addCount m (fst (step i st)) = addCount m (fst st).
Proof.
  intros Hreg. unfold step. destruct (snd st !! i) as [r|]; [|now split].
  pose proof (stepRequest_registered m r (fst st) Hreg) as H.
  destruct (stepRequest r (fst st)) as [w' r']. exact H.
Qed.

(** The pre-loader's registration, seen from a link [m]. *)
Lemma preloadAdd_effect (addThrows : bool) (m0 m : string) (w : World) :
  (is_Some (activeTorrents w !! m) ->
   is_Some (activeTorrents (preloadAdd addThrows m0 w) !! m) /\
   addCount m (preloadAdd addThrows m0 w) = addCount m w) /\
  (m0 <> m ->
   activeTorrents (preloadAdd addThrows m0 w) !! m = activeTorrents w !! m /\
   addCount m (preloadAdd addThrows m0 w) = addCount m w) /\
  (addThrows = false -> is_Some (activeTorrents (preloadAdd addThrows m0 w) !! m0)) /\
  (addCount m (preloadAdd addThrows m0 w) <= addCount m w + 1)%nat.
Proof.
  unfold preloadAdd.
  destruct (activeTorrents w !! m0) as [ref|] eqn:E.
  - split; [auto|]. split; [auto|]. split; [intros _; rewrite E; eauto|lia].
  - assert (Hcount : forall w', addCalls w' = m0 :: addCalls w ->
              addCount m w' = (addCount m w + if String.eqb m m0 then 1 else 0)%nat).
    { intros w' Hcalls. unfold addCount. rewrite Hcalls. cbn.
      destruct (String.eqb m m0); cbn; lia. }
    set (W := if addThrows then failedAdd m0 w
              else let '(w', ref) := clientAdd m0 w in register m0 ref w').
    assert (Hcalls : addCalls W = m0 :: addCalls w)
      by (unfold W; destruct addThrows; reflexivity).
    assert (Hact : activeTorrents W =
                   if addThrows then activeTorrents w
                   else <[m0 := List.length (torrents w)]> (activeTorrents w))
      by (unfold W; destruct addThrows; reflexivity).
    rewrite (Hcount W Hcalls), Hact. clearbody W.
    split; [|split; [|split]].
    + intros Hreg.
      destruct (String.eqb_spec m m0) as [->|Hne].
      * rewrite E in Hreg. now destruct Hreg.
      * split; [|lia]. destruct addThrows; [exact Hreg|].
        rewrite lookup_insert_ne by congruence. exact Hreg.
    + intros Hne. split.
      * destruct addThrows; [reflexivity|]. now rewrite lookup_insert_ne.
      * destruct (String.eqb_spec m m0) as [->|_]; [contradiction|lia].
    + intros ->. rewrite lookup_insert_eq. eauto.
    + destruct (String.eqb m m0); lia.
Qed.

Lemma handleEvent_registered (m : string) (e : Event) (st : World * list Request) :
  keeps m e ->
  is_Some (activeTorrents (fst st) !! m) ->
  is_Some (activeTorrents (fst (handleEvent e st)) !! m) /\
  addCount m (fst (handleEvent e st)) = addCount m (fst st).
Proof.
  intros Hkeep Hreg. destruct e as [i|m0|m0 addThrows|m0|destroyThrows]; cbn in *.
  - now apply step_registered.
  - now apply (preloadAdd_effect true m0 m).
  - now apply preloadAdd_effect.
  - split; [|reflexivity]. now rewrite lookup_delete_ne.
  - split; [|reflexivity]. destruct Hreg as [ref Href]. exists ref.
    apply map_lookup_filter_Some. now split.
Qed.

(** As long as no torrent error and no clean-up removes its registration,
    a magnet link that is in [activeTorrents] is not passed to
    [torrentClient.add] again, neither by a request of a handler that
    looks the link up first nor by the pre-loader, whichever requests are
    under way, whether or not the engine throws, and in whatever order
    things happen; and the link stays registered. *)
Theorem registered_magnet_is_not_added_again
  (m : string) (events : list Event) (w : World) (requests : list Request) :
  is_Some (activeTorrents w !! m) ->
  Forall (keeps m) events ->
  addCount m (fst (runEvents events (w, requests))) = addCount m w /\
  is_Some (activeTorrents (fst (runEvents events (w, requests))) !! m).
Proof.
  unfold runEvents.
  change w with (fst (w, requests)) at 1 3.
  generalize (w, requests). clear w requests.
  induction events as [|e rest IH]; intros st Hreg Hkeep; simpl.
  - split; [reflexivity|exact Hreg].
  - apply Forall_cons_1 in Hkeep. destruct Hkeep as [He Hrest].
    destruct (handleEvent_registered m e st He Hreg) as [Hreg' Hcount].
    destruct (IH (handleEvent e st) Hreg' Hrest) as [Hc Hr].
    split; [now rewrite Hc|exact Hr].
Qed.

Lemma registered_magnet_example :
  let w := fst (runEvents [RequestStep 0; RequestStep 0]%nat
                  (emptyWorld, [Arrived sampleMagnet])) in
  addCount sampleMagnet
    (fst (runEvents
            [RequestStep 1; Preloaded sampleMagnet false; RequestStep 0;
             TorrentError "magnet:?xt=urn:btih:other"; RequestStep 1;
             RequestThrows sampleMagnet;
             CleanUp (fun _ => true); RequestStep 0]%nat
            (w, [Arrived sampleMagnet; Arrived sampleMagnet])))
  = 1%nat.
Proof.
  intros w.
  destruct (registered_magnet_is_not_added_again sampleMagnet
              [RequestStep 1; Preloaded sampleMagnet false; RequestStep 0;
               TorrentError "magnet:?xt=urn:btih:other"; RequestStep 1;
               RequestThrows sampleMagnet;
               CleanUp (fun _ => true); RequestStep 0]%nat
              w [Arrived sampleMagnet; Arrived sampleMagnet]) as [Hcount _].
  - vm_compute. eauto.
  - repeat constructor. discriminate.
  - rewrite Hcount. reflexivity.
Defined.

(** After a clean-up the link is gone, and the next request adds it
    again. *)
Example removed_magnet_is_added_again :
  let final :=
    runEvents
      [RequestStep 0; RequestStep 0; CleanUp (fun _ => false);
       RequestStep 1; RequestStep 1]%nat
      (emptyWorld, [Arrived sampleMagnet; Arrived sampleMagnet]) in
  addCount sampleMagnet (fst final) = 2%nat /\
  snd final = [Serving 0%nat; Serving 1%nat].
Proof. vm_compute. repeat split. Qed.

End RegistryReuse.

(** ** What a finished job holds *)

Module JobResults.
Import Exn Swarm Ranking Jobs.

(** The ranked list starts with a best candidate. *)
Lemma ranked_head_is_best
  (torrents : list Torrent) (artist track : string) (album : option string)
  (best : Scored) (rest : list Scored) :
  scoreAndFilterTorrents torrents artist track album = best :: rest ->
  In (scoredTorrent best) torrents /\
  hasActiveSeeder (scoredTorrent best) = true /\
  (forall r, In r rest -> lightScore r <= lightScore best) /\
  (forall t, In t torrents -> hasActiveSeeder t = true ->
     scoreLight
       (Js.toLowerCase (artist +:+ " " +:+ track +:+ " " +:+ Js.orEmpty album)) t
     <= lightScore best).
Proof.
  intros E.
  pose proof (sortBy_sorted scoredDesc scoredDesc_total scoredDesc_trans
    (List.map
       (fun t => mkScored t
          (scoreLight
             (Js.toLowerCase
                (artist +:+ " " +:+ track +:+ " " +:+ Js.orEmpty album)) t))
       (List.filter hasActiveSeeder torrents))) as Hsorted.
  unfold scoreAndFilterTorrents in E. cbv zeta in E. rewrite E in Hsorted.
  apply StronglySorted_inv in Hsorted. destruct Hsorted as [_ Hall].
  rewrite List.Forall_forall in Hall.
  assert (Hmem : forall r, In r (best :: rest) ->
            In (scoredTorrent r) torrents /\
            hasActiveSeeder (scoredTorrent r) = true).
  { intros r Hr. rewrite <- E in Hr.
    apply (proj1 (sortBy_In scoredDesc _ _)) in Hr.
    apply in_map_iff in Hr. destruct Hr as (t & <- & Ht).
    apply filter_In in Ht. exact Ht. }
  destruct (Hmem best (or_introl eq_refl)) as [Hin Hact].
  split; [exact Hin|]. split; [exact Hact|]. split.
  - intros r Hr. specialize (Hall r Hr). unfold scoredDesc in Hall. lia.
  - intros t Ht Hseed.
    set (q := Js.toLowerCase
                (artist +:+ " " +:+ track +:+ " " +:+ Js.orEmpty album)) in *.
    assert (Hr : In (mkScored t (scoreLight q t)) (best :: rest)).
    { rewrite <- E. apply (proj2 (sortBy_In scoredDesc _ _)).
      apply in_map_iff. exists t. split; [reflexivity|].
      apply filter_In. now split. }
    destruct Hr as [Eb|Hr]; [rewrite Eb; simpl; lia|].
    specialize (Hall _ Hr). unfold scoredDesc in Hall. simpl in Hall. lia.
Qed.

Lemma ranked_length
  (torrents : list Torrent) (artist track : string) (album : option string) :
  List.length (scoreAndFilterTorrents torrents artist track album)
  = List.length (List.filter hasActiveSeeder torrents).
Proof.
  unfold scoreAndFilterTorrents. cbv zeta.
  now rewrite sortBy_length, List.length_map.
Qed.

Lemma ranked_nil
  (torrents : list Torrent) (artist track : string) (album : option string) :
  scoreAndFilterTorrents torrents artist track album = [] ->
  forall t, In t torrents -> hasActiveSeeder t = false.
Proof.
  intros E t Ht. pose proof (ranked_length torrents artist track album) as Hlen.
  rewrite E in Hlen. simpl in Hlen.
  destruct (hasActiveSeeder t) eqn:Hact; [|reflexivity].
  assert (Hin : In t (List.filter hasActiveSeeder torrents))
    by (apply filter_In; now split).
  destruct (List.filter hasActiveSeeder torrents); [contradiction|discriminate].
Qed.

(** What the result of a job says about the candidates, for each shape a
    result can have after a search that returned [allTorrents] and was
    ranked for [artist], [track] and [album]. *)
Definition describes
  (allTorrents : list Torrent) (artist track : string) (album : option string)
  (payload : Payload) : Prop :=
  match payload with
  | NoSuitableTorrents =>
      forall t, In t allTorrents -> hasActiveSeeder t = false
  | BestTorrent best alternatives queries totalFound afterFiltering =>
      totalFound = Z.of_nat (List.length allTorrents) /\
      afterFiltering
      = Z.of_nat (List.length (List.filter hasActiveSeeder allTorrents)) /\
      (List.length alternatives <= 9)%nat /\
      queries = Js.slice0 6 (buildQueries artist track album) /\
      In (scoredTorrent best) allTorrents /\
      hasActiveSeeder (scoredTorrent best) = true /\
      (forall r, In r alternatives -> lightScore r <= lightScore best) /\
      (forall t, In t allTorrents -> hasActiveSeeder t = true ->
         scoreLight
           (Js.toLowerCase
              (artist +:+ " " +:+ track +:+ " " +:+ Js.orEmpty album)) t
         <= lightScore best)
  | StreamPrepared _ => False
  end.

(** The outcome of a torrent-search job whose indexer search answers. *)
Lemma search_job_completes
  (world : SearchWorld) (store : gmap string Job)
  (jobId trackTitle artistName : string) (albumTitle : option string)
  (allTorrents : list Torrent) :
  let details := trackDetailsOf world trackTitle in
  let artist := enhancedArtist details artistName in
  let track := enhancedTrack details trackTitle in
  let album := enhancedAlbum details albumTitle in
  searchMultipleTorrentQueries world (buildQueries artist track album)
  = Normal allTorrents ->
  exists j payload,
    finalJob jobId
      (snd (searchJob world jobId trackTitle artistName albumTitle
              (mkMem store [])))
    = Some j /\
    status j = Some completed /\ progress j = Some 100 /\ error j = None /\
    jobType j = Some "find-best-torrent" /\
    result j = Some payload /\
    describes allTorrents artist track album payload.
Proof.
  intros details artist track album Hsearch.
  set (run := searchJob world jobId trackTitle artistName albumTitle
                (mkMem store [])).
  assert (Hrun : run = searchJob world jobId trackTitle artistName albumTitle
                         (mkMem store [])) by reflexivity.
  clearbody run.
  unfold searchJob, processTorrentSearchAsync, searchBody in Hrun.
  fold details in Hrun. fold artist track album in Hrun.
  rewrite Hsearch in Hrun. unfold finalJob.
  run_task Hrun.
  destruct (scoreAndFilterTorrents allTorrents artist track album)
    as [|best rest] eqn:Eranked.
  - cbn [Js.slice0 firstn] in Hrun. run_task Hrun. subst run. cbn [fst snd].
    eexists _, _. split; [solve_final|].
    repeat (split; [reflexivity|]).
    simpl. now apply ranked_nil with artist track album.
  - cbn [Js.slice0 firstn] in Hrun. run_task Hrun. subst run. cbn [fst snd].
    eexists _, _. split; [solve_final|].
    repeat (split; [reflexivity|]).
    destruct (ranked_head_is_best _ _ _ _ _ _ Eranked)
      as (Hin & Hact & Hrest & Hbest).
    pose proof (ranked_length allTorrents artist track album) as Hlen.
    rewrite Eranked in Hlen.
    split; [rewrite <- Hlen; reflexivity|].
    split; [rewrite length_firstn; lia|].
    split; [reflexivity|].
    split; [exact Hin|]. split; [exact Hact|]. split; [|exact Hbest].
    intros r Hr. apply Hrest. rewrite <- (List.firstn_skipn 9 rest).
    apply in_or_app. now left.
Qed.

(** When the indexer search of a torrent-search job answers, the job ends
    [completed], also when nothing is found. Its result then says that no
    candidate has a seeder; otherwise it names a candidate with a seeder
    whose light score no other candidate with a seeder exceeds, at most
    nine alternatives that score no higher, the first six queries, and the
    numbers of candidates found and of candidates with a seeder. *)
Theorem search_job_result
  (world : SearchWorld) (store : gmap string Job)
  (jobId trackTitle artistName : string) (albumTitle : option string)
  (allTorrents : list Torrent) :
  let details := trackDetailsOf world trackTitle in
  let artist := enhancedArtist details artistName in
  let track := enhancedTrack details trackTitle in
  let album := enhancedAlbum details albumTitle in
  searchMultipleTorrentQueries world (buildQueries artist track album)
  = Normal allTorrents ->
  exists j payload,
    finalJob jobId
      (snd (searchJob world jobId trackTitle artistName albumTitle
              (mkMem store [])))
    = Some j /\
    status j = Some completed /\ progress j = Some 100 /\ error j = None /\
    jobType j = Some "find-best-torrent" /\
    result j = Some payload /\
    describes allTorrents artist track album payload.
Proof.
  intros details artist track album Hsearch.
  now apply search_job_completes.
Qed.

(** A metadata service that is down and an indexer with two candidates,
    one of them without seeders. *)
Definition sampleWorld : SearchWorld :=
  mkSearchWorld (Throw "service unavailable")
    (fun _ =>
       Normal [mkTorrent (Some "Artist - Song (flac)") (Some 0) None None None None;
               mkTorrent (Some "Artist - Song") (Some 7) None None None None]).

Lemma search_job_result_example :
  exists j payload,
    finalJob "job_1"
      (snd (searchJob sampleWorld "job_1" "Song" "Artist" None (mkMem ∅ [])))
    = Some j /\
    status j = Some completed /\ progress j = Some 100 /\ error j = None /\
    jobType j = Some "find-best-torrent" /\
    result j = Some payload /\
    describes
      [mkTorrent (Some "Artist - Song (flac)") (Some 0) None None None None;
       mkTorrent (Some "Artist - Song") (Some 7) None None None None]
      "Artist" "Song" None payload.
Proof.
  apply (search_job_result sampleWorld ∅ "job_1" "Song" "Artist" None
           [mkTorrent (Some "Artist - Song (flac)") (Some 0) None None None None;
            mkTorrent (Some "Artist - Song") (Some 7) None None None None]).
  reflexivity.
Defined.

(** A background task writes no entry of [asyncJobs] but its own: every
    other job is left as it was, for the torrent search and for the stream
    preparation, whatever the outside world answers. *)
Theorem job_leaves_other_jobs_alone
  (store : gmap string Job) (jobId other : string) :
  jobId <> other ->
  (forall (world : SearchWorld) (trackTitle artistName : string)
          (albumTitle : option string),
     asyncJobs
       (snd (searchJob world jobId trackTitle artistName albumTitle
               (mkMem store [])))
     !! other = store !! other) /\
  (forall (localeCompare : string -> string -> Z) (world : StreamWorld)
          (fileName : option string) (expectedFileCount : Selector.JsValue),
     asyncJobs
       (snd (streamJob localeCompare world jobId fileName expectedFileCount
               (mkMem store [])))
     !! other = store !! other).
Proof.
  intros Hne. split.
  - intros world trackTitle artistName albumTitle.
    set (run := searchJob world jobId trackTitle artistName albumTitle
                  (mkMem store [])).
    assert (Hrun : run = searchJob world jobId trackTitle artistName albumTitle
                           (mkMem store [])) by reflexivity.
    clearbody run.
    unfold searchJob, processTorrentSearchAsync, searchBody in Hrun.
    destruct (searchMultipleTorrentQueries world _) as [allTorrents|e].
    + run_task Hrun.
      match type of Hrun with
      | context [match Js.slice0 10 ?l with _ => _ end] =>
          destruct (Js.slice0 10 l) as [|bestTorrent alternatives]
      end;
        run_task Hrun; subst run; cbn [fst snd asyncJobs];
        now rewrite !lookup_insert_ne by exact Hne.
    + run_task Hrun. subst run. cbn [fst snd asyncJobs].
      now rewrite !lookup_insert_ne by exact Hne.
  - intros localeCompare world fileName expectedFileCount.
    set (run := streamJob localeCompare world jobId fileName expectedFileCount
                  (mkMem store [])).
    assert (Hrun : run = streamJob localeCompare world jobId fileName
                           expectedFileCount (mkMem store [])) by reflexivity.
    clearbody run.
    unfold streamJob, processTorrentStreamAsync, streamBody in Hrun.
    destruct (existing world) as [fs|].
    + destruct (Selector.processStreamRequestAsync localeCompare fs fileName
                  expectedFileCount) as [info|e] eqn:Hsel;
        run_task Hrun; rewrite ?Hsel in Hrun; run_task Hrun;
        subst run; cbn [fst snd asyncJobs];
        now rewrite !lookup_insert_ne by exact Hne.
    + destruct (added world) as [fs|e].
      * destruct (Selector.processStreamRequestAsync localeCompare fs fileName
                    expectedFileCount) as [info|e] eqn:Hsel;
          run_task Hrun; rewrite ?Hsel in Hrun; run_task Hrun;
          subst run; cbn [fst snd asyncJobs];
          now rewrite !lookup_insert_ne by exact Hne.
      * run_task Hrun. subst run. cbn [fst snd asyncJobs].
        now rewrite !lookup_insert_ne by exact Hne.
Qed.

Lemma job_leaves_other_jobs_alone_example :
  asyncJobs
    (snd (searchJob sampleWorld "job_2" "Song" "Artist" None
            (mkMem {[ "job_1" := blankJob ]} [])))
  !! "job_1" = Some blankJob.
Proof.
  destruct (job_leaves_other_jobs_alone {[ "job_1" := blankJob ]} "job_2" "job_1")
    as [Hsearch _]; [discriminate|].
  rewrite Hsearch. reflexivity.
Defined.

End JobResults.

(** ** Polling a job: [GET /api/job-status/:jobId]

    The handler answers with the entry of the job and, when the job has
    ended, sets a timer that deletes the entry five minutes later. The
    timers are part of the state; a timer runs as soon as it is due, before
    a request that arrives at that time or later. *)

Module JobStatus.
Import Jobs.

Record Server : Type := mkServer {
  jobs : gmap string Job;
  timers : list (Z * string)
}.

Inductive Answer : Type :=
| NotFound
| Found (job : Job).

(** [job.status === 'completed' || job.status === 'failed'] *)
Definition finished (job : Job) : bool :=
  match status job with
  | Some completed | Some failed => true
  | _ => false
  end.

Definition due (now : Z) (timer : Z * string) : bool := fst timer <=? now.

(** The callbacks of the timers that are due: [asyncJobs.delete(jobId)]. *)
Definition fireDue (now : Z) (s : Server) : Server :=
  mkServer
    (fold_left
       (fun store timer => if due now timer then delete (snd timer) store else store)
       (timers s) (jobs s))
    (List.filter (fun timer => negb (due now timer)) (timers s)).

(** The handler, at time [now]. *)
Definition jobStatus (now : Z) (jobId : string) (s : Server) : Answer * Server :=
  match jobs s !! jobId with
  | None => (NotFound, s)
  | Some job =>
      (Found job,
       if finished job
       then mkServer (jobs s) (timers s ++ [(now + 300000, jobId)])%list
       else s)
  end.

(** Requests, each with its time of arrival, served in order. *)
Fixpoint serve (requests : list (Z * string)) (s : Server)
  : list Answer * Server :=
  match requests with
  | [] => ([], s)
  | (now, jobId) :: rest =>
      let '(answer, s1) := jobStatus now jobId (fireDue now s) in
      let '(answers, s2) := serve rest s1 in
      (answer :: answers, s2)
  end.

(** The time of the first request for a job. *)
Fixpoint firstPoll (jobId : string) (requests : list (Z * string)) : option Z :=
  match requests with
  | [] => None
  | (now, j) :: rest => if String.eqb j jobId then Some now else firstPoll jobId rest
  end.

Section OneJob.
Variables (jobId : string) (job : Job).

Definition hits (now : Z) (timer : Z * string) : bool :=
  (due now timer && String.eqb (snd timer) jobId)%bool.

Lemma fold_delete_lookup (now : Z) (l : list (Z * string)) (store : gmap string Job) :
  fold_left
    (fun store timer => if due now timer then delete (snd timer) store else store)
    l store !! jobId
  = if existsb (hits now) l then None else store !! jobId.
Proof.
  revert store. induction l as [|t l IH]; intros store; [reflexivity|].
  cbn [fold_left existsb]. rewrite IH. unfold hits at 2.
  destruct (due now t); cbn [andb orb]; [|reflexivity].
  destruct (String.eqb_spec (snd t) jobId) as [->|Hne]; cbn [orb].
  - rewrite lookup_delete_eq. now destruct (existsb _ l).
  - now rewrite lookup_delete_ne.
Qed.

Lemma fireDue_lookup (now : Z) (s : Server) :
  jobs (fireDue now s) !! jobId
  = if existsb (hits now) (timers s) then None else jobs s !! jobId.
Proof. apply fold_delete_lookup. Qed.

Lemma fireDue_timers (now : Z) (s : Server) (timer : Z * string) :
  In timer (timers (fireDue now s)) <-> In timer (timers s) /\ now < fst timer.
Proof.
  unfold fireDue. cbn [timers]. rewrite filter_In. unfold due.
  destruct (Z.leb_spec (fst timer) now); simpl; intuition (discriminate || lia).
Qed.

Lemma jobStatus_other (now : Z) (j : string) (s : Server) :
  jobs (snd (jobStatus now j s)) = jobs s /\
  (forall timer, In timer (timers (snd (jobStatus now j s))) ->
     In timer (timers s) \/ timer = (now + 300000, j)) /\
  (forall timer, In timer (timers s) ->
     In timer (timers (snd (jobStatus now j s)))).
Proof.
  unfold jobStatus. destruct (jobs s !! j) as [found|]; cbn [snd].
  - destruct (finished found); cbn [jobs timers].
    + split; [reflexivity|]. split.
      * intros timer Hin. apply in_app_or in Hin.
        destruct Hin as [Hin|[<-|[]]]; auto.
      * intros timer Hin. apply in_or_app. now left.
    + repeat split; auto.
  - repeat split; auto.
Qed.

(** The three states of the entry: never fetched, fetched and waiting for
    its deadline [d], deleted. *)
Definition fresh (s : Server) : Prop :=
  jobs s !! jobId = Some job /\
  forall timer, In timer (timers s) -> snd timer <> jobId.

Definition live (d : Z) (s : Server) : Prop :=
  jobs s !! jobId = Some job /\ In (d, jobId) (timers s) /\
  forall x, In (x, jobId) (timers s) -> d <= x.

Definition gone (s : Server) : Prop := jobs s !! jobId = None.

Lemma no_hit (now : Z) (l : list (Z * string)) :
  (forall timer, In timer l -> snd timer = jobId -> now < fst timer) ->
  existsb (hits now) l = false.
Proof.
  intros H. destruct (existsb (hits now) l) eqn:E; [|reflexivity].
  apply existsb_exists in E. destruct E as (t & Hin & Hhit).
  unfold hits, due in Hhit. apply andb_prop in Hhit. destruct Hhit as [Hdue Hid].
  apply Z.leb_le in Hdue. apply String.eqb_eq in Hid.
  specialize (H t Hin Hid). lia.
Qed.

Lemma serve_gone (requests : list (Z * string)) (s : Server) :
  gone s ->
  forall k now, requests !! k = Some (now, jobId) ->
    fst (serve requests s) !! k = Some NotFound.
Proof.
  revert s. induction requests as [|[t j] rest IH]; intros s Hgone k now Hk;
    [discriminate|].
  cbn [serve].
  assert (Hfired : gone (fireDue t s)).
  { unfold gone in *. rewrite fireDue_lookup, Hgone. now destruct (existsb _ _). }
  destruct (jobStatus_other t j (fireDue t s)) as (Hjobs & _ & _).
  assert (Hnext : gone (snd (jobStatus t j (fireDue t s))))
    by (unfold gone; now rewrite Hjobs).
  destruct (jobStatus t j (fireDue t s)) as [answer s1] eqn:Estatus.
  specialize (IH s1 Hnext).
  destruct (serve rest s1) as [answers s2]. cbn [fst snd] in *.
  destruct k as [|k]; cbn in Hk |- *; [|now apply IH with now].
  injection Hk as -> ->.
  unfold jobStatus in Estatus. unfold gone in Hfired. rewrite Hfired in Estatus.
  now injection Estatus as <- _.
Qed.

Lemma serve_live (requests : list (Z * string)) (s : Server) (d : Z) :
  live d s ->
  StronglySorted Z.le (List.map fst requests) ->
  Forall (fun r => d - 300000 <= fst r) requests ->
  forall k now, requests !! k = Some (now, jobId) ->
    fst (serve requests s) !! k
    = Some (if now <? d then Found job else NotFound).
Proof.
  revert s. induction requests as [|[t j] rest IH];
    intros s (Hjob & Htimer & Hmin) Hsorted Hlow k now Hk; [discriminate|].
  cbn [List.map fst] in Hsorted. apply StronglySorted_inv in Hsorted.
  destruct Hsorted as [Hsorted Hafter].
  apply Forall_cons_1 in Hlow. destruct Hlow as [Ht Hlow]. cbn [fst] in Ht.
  destruct (Z.ltb_spec t d) as [Hbefore|Hpast].
  - (* the deadline has not come *)
    assert (Hfired : live d (fireDue t s)).
    { split; [|split].
      - rewrite fireDue_lookup, no_hit; [exact Hjob|].
        intros [x i] Hin Hid. cbn in Hid |- *. subst i.
        specialize (Hmin x Hin). lia.
      - apply fireDue_timers. split; [exact Htimer|cbn; lia].
      - intros x Hin. apply fireDue_timers in Hin. now apply Hmin. }
    destruct Hfired as (Hjob' & Htimer' & Hmin').
    destruct (jobStatus_other t j (fireDue t s)) as (Hjobs & Hnew & Hold).
    assert (Hnext : live d (snd (jobStatus t j (fireDue t s)))).
    { split; [now rewrite Hjobs|]. split; [now apply Hold|].
      intros x Hin. apply Hnew in Hin. destruct Hin as [Hin|Hin].
      - now apply Hmin'.
      - injection Hin as -> _. lia. }
    cbn [serve].
    destruct (jobStatus t j (fireDue t s)) as [answer s1] eqn:Estatus.
    specialize (IH s1 Hnext Hsorted Hlow).
    destruct (serve rest s1) as [answers s2]. cbn [fst snd] in *.
    destruct k as [|k]; cbn in Hk |- *; [|now apply IH].
    injection Hk as -> ->.
    destruct (Z.ltb_spec now d); [|lia].
    unfold jobStatus in Estatus. rewrite Hjob' in Estatus.
    now injection Estatus as <- _.
  - (* the timer has run *)
    assert (Hfired : gone (fireDue t s)).
    { unfold gone. rewrite fireDue_lookup.
      assert (Hex : existsb (hits t) (timers s) = true).
      { apply existsb_exists. exists (d, jobId). split; [exact Htimer|].
        unfold hits, due. cbn. rewrite String.eqb_refl, andb_true_r.
        apply Z.leb_le. lia. }
      now rewrite Hex. }
    pose proof (serve_gone ((t, j) :: rest) s) as Hgone.
    assert (Hall : forall k now, ((t, j) :: rest) !! k = Some (now, jobId) ->
              fst (serve ((t, j) :: rest) s) !! k = Some NotFound).
    { clear k now Hk. intros k now Hk. cbn [serve].
      destruct (jobStatus_other t j (fireDue t s)) as (Hjobs & _ & _).
      assert (Hnext : gone (snd (jobStatus t j (fireDue t s))))
        by (unfold gone; now rewrite Hjobs).
      destruct (jobStatus t j (fireDue t s)) as [answer s1] eqn:Estatus.
      pose proof (serve_gone rest s1 Hnext) as Hrest.
      destruct (serve rest s1) as [answers s2]. cbn [fst snd] in *.
      destruct k as [|k]; cbn in Hk |- *; [|now apply Hrest with now].
      injection Hk as -> ->.
      unfold jobStatus in Estatus. unfold gone in Hfired.
      rewrite Hfired in Estatus. now injection Estatus as <- _. }
    rewrite (Hall k now Hk).
    assert (Hnow : t <= now).
    { destruct k as [|k]; cbn in Hk; [injection Hk as -> _; lia|].
      rewrite List.Forall_forall in Hafter. apply Hafter.
      apply in_map_iff. exists (now, jobId). split; [reflexivity|].
      apply list_elem_of_In. now apply list_elem_of_lookup_2 with k. }
    destruct (Z.ltb_spec now d); [lia|reflexivity].
Qed.

Lemma serve_fresh (requests : list (Z * string)) (s : Server) :
  finished job = true ->
  fresh s ->
  StronglySorted Z.le (List.map fst requests) ->
  (forall k now first,
     requests !! k = Some (now, jobId) ->
     firstPoll jobId requests = Some first ->
     fst (serve requests s) !! k
     = Some (if now <? first + 300000 then Found job else NotFound)) /\
  (firstPoll jobId requests = None ->
   jobs (snd (serve requests s)) !! jobId = Some job).
Proof.
  intros Hfinished. revert s.
  induction requests as [|[t j] rest IH]; intros s (Hjob & Hnone) Hsorted.
  - split; [discriminate|]. intros _. exact Hjob.
  - cbn [List.map fst] in Hsorted. apply StronglySorted_inv in Hsorted.
    destruct Hsorted as [Hsorted Hafter].
    assert (Hfired : fresh (fireDue t s)).
    { split.
      - rewrite fireDue_lookup, no_hit; [exact Hjob|].
        intros timer Hin Hid. now apply Hnone in Hin.
      - intros timer Hin. apply fireDue_timers in Hin. now apply Hnone. }
    destruct Hfired as (Hjob' & Hnone').
    destruct (jobStatus_other t j (fireDue t s)) as (Hjobs & Hnew & Hold).
    cbn [serve firstPoll].
    destruct (String.eqb_spec j jobId) as [->|Hne].
    + (* the first request for the job *)
      assert (Hnext : live (t + 300000) (snd (jobStatus t jobId (fireDue t s)))).
      { split; [now rewrite Hjobs|].
        unfold jobStatus. rewrite Hjob', Hfinished. cbn [snd timers]. split.
        - apply in_or_app. right. now left.
        - intros x Hin. apply in_app_or in Hin. destruct Hin as [Hin|[Hin|[]]].
          + now apply Hnone' in Hin.
          + injection Hin as ->. lia. }
      assert (Hlow : Forall (fun r => t + 300000 - 300000 <= fst r) rest).
      { rewrite List.Forall_forall in Hafter |- *. intros r Hr.
        replace (t + 300000 - 300000) with t by lia. apply Hafter.
        now apply in_map. }
      destruct (jobStatus t jobId (fireDue t s)) as [answer s1] eqn:Estatus.
      cbn [snd] in Hnext.
      pose proof (serve_live rest s1 _ Hnext Hsorted Hlow) as Hrest.
      destruct (serve rest s1) as [answers s2]. cbn [fst snd] in *.
      split; [|discriminate].
      intros k now first Hk Hfirst. injection Hfirst as <-.
      destruct k as [|k]; cbn in Hk |- *; [|now apply Hrest].
      injection Hk as <-.
      destruct (Z.ltb_spec t (t + 300000)); [|lia].
      unfold jobStatus in Estatus. rewrite Hjob' in Estatus.
      now injection Estatus as <- _.
    + (* a request for another job *)
      assert (Hnext : fresh (snd (jobStatus t j (fireDue t s)))).
      { split; [now rewrite Hjobs|].
        intros timer Hin. apply Hnew in Hin. destruct Hin as [Hin| ->].
        - now apply Hnone'.
        - exact Hne. }
      destruct (jobStatus t j (fireDue t s)) as [answer s1] eqn:Estatus.
      destruct (IH s1 Hnext Hsorted) as [Hanswers Hleft].
      destruct (serve rest s1) as [answers s2]. cbn [fst snd] in *.
      split; [|exact Hleft].
      intros k now first Hk Hfirst.
      destruct k as [|k]; cbn in Hk |- *; [|now apply Hanswers].
      injection Hk as _ ->. contradiction.
Qed.

End OneJob.

(** The entry of a job that has ended is kept until it is fetched, however
    long that takes, and whatever happens to other jobs: if it is never
    fetched it is never deleted. Once fetched, it is answered for five
    minutes from the first request that found it, and is 404 from then on;
    later requests do not extend the time. *)
Theorem finished_job_kept_five_minutes
  (jobId : string) (job : Job) (s : Server) (requests : list (Z * string)) :
  jobs s !! jobId = Some job ->
  finished job = true ->
  (forall timer, In timer (timers s) -> snd timer <> jobId) ->
  StronglySorted Z.le (List.map fst requests) ->
  (forall k now first,
     requests !! k = Some (now, jobId) ->
     firstPoll jobId requests = Some first ->
     fst (serve requests s) !! k
     = Some (if now <? first + 300000 then Found job else NotFound)) /\
  (firstPoll jobId requests = None ->
   jobs (snd (serve requests s)) !! jobId = Some job).
Proof.
  intros Hjob Hfinished Hnone Hsorted.
  apply serve_fresh; [exact Hfinished|now split|exact Hsorted].
Qed.

Definition doneJob : Job :=
  mkJob (Some completed) (Some "find-best-torrent") (Some 100)
    (Some NoSuitableTorrents) None.

Lemma finished_job_example :
  let s := mkServer {[ "job_1" := doneJob ]} [] in
  let requests :=
    [(1000, "job_1"); (200000, "job_2"); (300999, "job_1"); (301000, "job_1")] in
  fst (serve requests s) !! 2%nat = Some (Found doneJob) /\
  fst (serve requests s) !! 3%nat = Some NotFound.
Proof.
  intros s requests.
  destruct (finished_job_kept_five_minutes "job_1" doneJob s requests)
    as [Hanswers _].
  - reflexivity.
  - reflexivity.
  - intros timer [].
  - repeat (constructor; try (cbn; lia)).
  - split.
    + apply (Hanswers 2%nat 300999 1000); reflexivity.
    + apply (Hanswers 3%nat 301000 1000); reflexivity.
Defined.

End JobStatus.

(** ** Retrying a request: [retryApiCall] *)

Module Retry.
Import Exn RateLimit.

Lemma retryDelay_le (baseDelay : Z) (attempt : nat) :
  retryDelay baseDelay attempt <= 10000.
Proof. unfold retryDelay. lia. Qed.

Section Retried.
Variables (service : Service) (baseDelay latency : Z).
Hypothesis latency_bound : forall n, 0 <= fst (service n) <= latency.

Lemma retryFrom_outcome (remaining attempt : nat) (c : Clock) :
  let r := retryFrom (axiosGet service) baseDelay attempt remaining c in
  let first := List.length (sent c) in
  (List.length (sent (snd r)) <= first + remaining)%nat /\
  now (snd r)
  <= now c + Z.of_nat remaining * latency
     + Z.of_nat (Nat.pred remaining) * 10000 /\
  (forall e, fst r = Throw e ->
     (0 < remaining)%nat /\
     List.length (sent (snd r)) = (first + remaining)%nat /\
     forall i, (i < remaining)%nat -> snd (service (first + i)%nat) = false) /\
  (fst r = Normal tt ->
     remaining = 0%nat \/
     exists k, (k < remaining)%nat /\
       List.length (sent (snd r)) = (first + k + 1)%nat /\
       snd (service (first + k)%nat) = true /\
       forall i, (i < k)%nat -> snd (service (first + i)%nat) = false).
Proof.
  revert attempt c. induction remaining as [|rest IH]; intros attempt c r first.
  - subst r first. simpl. repeat split; try lia; try discriminate.
  - subst r. cbn [retryFrom].
    assert (Eget : axiosGet service c
                   = (if snd (service (List.length (sent c)))
                      then Normal tt else Throw "Request failed",
                      mkClock (now c + fst (service (List.length (sent c))))
                        (lastMusicBrainzCall c) (sent c ++ [now c])%list))
      by reflexivity.
    rewrite Eget. clear Eget.
    pose proof (latency_bound first) as Hlat. fold first.
    cbn [Nat.pred]. rewrite Nat2Z.inj_succ.
    destruct (snd (service first)) eqn:Hok.
    + (* the request succeeds *)
      cbn [fst snd sent now]. rewrite length_app. cbn [List.length].
      fold first. split; [lia|]. split; [nia|]. split; [discriminate|].
      intros _. right. exists 0%nat. split; [lia|]. split; [lia|].
      rewrite Nat.add_0_r. split; [exact Hok|]. intros i Hi. lia.
    + (* the request fails *)
      destruct rest as [|rest'].
      * cbn [fst snd sent now]. rewrite length_app. cbn [List.length].
        fold first. split; [lia|]. split; [nia|]. split; [|discriminate].
        intros e _. split; [lia|]. split; [lia|].
        intros i Hi. replace i with 0%nat by lia. now rewrite Nat.add_0_r.
      * set (c' := sleep (retryDelay baseDelay attempt)
                     (mkClock (now c + fst (service first))
                        (lastMusicBrainzCall c) (sent c ++ [now c])%list)).
        specialize (IH (S attempt) c'). cbv zeta in IH.
        assert (Hsent : List.length (sent c') = S first).
        { unfold c', sleep. cbn [sent]. rewrite length_app. simpl.
          unfold first. lia. }
        assert (Hnow : now c' <= now c + latency + 10000).
        { unfold c', sleep. cbn [now].
          pose proof (retryDelay_le baseDelay attempt). lia. }
        rewrite Hsent in IH. destruct IH as (Hlen & Htime & Hthrow & Hnormal).
        split; [lia|].
        split; [cbn [Nat.pred] in Htime; rewrite Nat2Z.inj_succ in Htime; nia|].
        split.
        -- intros e He. destruct (Hthrow e He) as (_ & Hl & Hall).
           split; [lia|]. split; [lia|].
           intros i Hi. destruct i as [|i]; [now rewrite Nat.add_0_r|].
           replace (first + S i)%nat with (S first + i)%nat by lia.
           apply Hall. lia.
        -- intros Hn. right. destruct (Hnormal Hn) as [Hz|(k & Hk & Hl & Hs & Hall)];
             [discriminate|].
           exists (S k). split; [lia|]. split; [lia|].
           replace (first + S k)%nat with (S first + k)%nat by lia.
           split; [exact Hs|].
           intros i Hi. destruct i as [|i]; [now rewrite Nat.add_0_r|].
           replace (first + S i)%nat with (S first + i)%nat by lia.
           apply Hall. lia.
Qed.

End Retried.

(** [retryApiCall] on a request to the metadata service whose answers take
    at most [latency]: it sends at most [maxAttempts] requests and returns
    within [maxAttempts] latencies and [maxAttempts - 1] pauses of at most
    ten seconds. It throws only after [maxAttempts] requests have all
    failed, and then [maxAttempts] is not zero. It returns normally after
    the first request that succeeds, sending none after it, or, when
    [maxAttempts] is zero, without sending any. *)
Theorem retry_attempts_and_outcome
  (service : Service) (maxAttempts : nat) (baseDelay latency : Z) (c : Clock) :
  (forall n, 0 <= fst (service n) <= latency) ->
  let r := retryApiCall (axiosGet service) maxAttempts baseDelay c in
  let first := List.length (sent c) in
  (List.length (sent (snd r)) <= first + maxAttempts)%nat /\
  now (snd r)
  <= now c + Z.of_nat maxAttempts * latency
     + Z.of_nat (Nat.pred maxAttempts) * 10000 /\
  (forall e, fst r = Throw e ->
     (0 < maxAttempts)%nat /\
     List.length (sent (snd r)) = (first + maxAttempts)%nat /\
     forall i, (i < maxAttempts)%nat -> snd (service (first + i)%nat) = false) /\
  (fst r = Normal tt ->
     maxAttempts = 0%nat \/
     exists k, (k < maxAttempts)%nat /\
       List.length (sent (snd r)) = (first + k + 1)%nat /\
       snd (service (first + k)%nat) = true /\
       forall i, (i < k)%nat -> snd (service (first + i)%nat) = false).
Proof.
  intros Hlat. unfold retryApiCall.
  apply (retryFrom_outcome service baseDelay latency Hlat).
Qed.

(** A service that fails twice and then answers, each time after 100 ms. *)
Definition thirdTimeLucky : Service := fun n => (100, Nat.leb 2 n).

Lemma retry_example :
  let r := retryApiCall (axiosGet thirdTimeLucky) 10 1000 atFiveSeconds in
  (List.length (sent (snd r)) <= 10)%nat /\
  now (snd r) <= 5000 + 10 * 100 + 9 * 10000.
Proof.
  destruct (retry_attempts_and_outcome thirdTimeLucky 10 1000 100 atFiveSeconds)
    as (Hsent & Htime & _).
  - intros n. simpl. lia.
  - split; [exact Hsent|exact Htime].
Defined.

End Retry.

(** ** The metadata search: [searchMusicBrainz]

    The three requests of a search go through the limiter, one after the
    other; the first failure ends the search, which reports it in its
    result instead of throwing. What the answers contain plays no part in
    when the requests leave, and is left out. *)

Module Metadata.
Import Exn RateLimit.

(** The result: the three lists, or empty lists and the error. *)
Inductive SearchResult : Type :=
| Results
| Failure (error : string).

Definition searchMusicBrainz (service : Service) (c : Clock)
  : SearchResult * Clock :=
  match rateLimitedMusicBrainzCall service c with
  | (Throw e, c1) => (Failure e, c1)
  | (Normal _, c1) =>
      match rateLimitedMusicBrainzCall service c1 with
      | (Throw e, c2) => (Failure e, c2)
      | (Normal _, c2) =>
          match rateLimitedMusicBrainzCall service c2 with
          | (Throw e, c3) => (Failure e, c3)
          | (Normal _, c3) => (Results, c3)
          end
      end
  end.

(** Searches one after the other. *)
Fixpoint searches (service : Service) (n : nat) (c : Clock) : Clock :=
  match n with
  | O => c
  | S k => searches service k (snd (searchMusicBrainz service c))
  end.




End Metadata.

(** ** The enhanced search: queries and duplicate results *)

Module Search.
Import Ranking.

(** A value that may be [undefined], as a template literal prints it. *)
Definition renderText (x : option string) : string :=
  match x with
  | Some s => s
  | None => "undefined"
  end.


(** An artist, a release and a recording of the metadata service, with the
    fields the query generation reads. [artistCredit] is the field
    [artist-credit], a list of names when it is there. *)
Record Artist : Type := mkArtist { artistName : option string }.

Record Release : Type := mkRelease {
  releaseTitle : option string;
  releaseCredit : option (list (option string))
}.

Record Recording : Type := mkRecording {
  recordingTitle : option string;
  recordingCredit : option (list (option string))
}.

Record MusicBrainzResults : Type := mkResults {
  artists : list Artist;
  releases : list Release;
  recordings : list Recording
}.

(** [a === b] on two values that are a string or [undefined]. *)
Definition sameText (a b : option string) : bool :=
  match a, b with
  | Some x, Some y => String.eqb x y
  | None, None => true
  | _, _ => false
  end.

(** [release['artist-credit'] && release['artist-credit'][0]?.name ===
    artist.name] *)
Definition creditedTo (artist : Artist) (release : Release) : bool :=
  match releaseCredit release with
  | Some (first :: _) => sameText first (artistName artist)
  | Some [] => sameText None (artistName artist)
  | None => false
  end.

Definition artistReleaseQueries (mb : MusicBrainzResults) : list string :=
  List.flat_map
    (fun artist =>
       List.map
         (fun release =>
            renderText (artistName artist) +:+ " "
            +:+ renderText (releaseTitle release))
         (List.filter (creditedTo artist) (releases mb)))
    (artists mb).

Definition recordingQueries (mb : MusicBrainzResults) : list string :=
  List.flat_map
    (fun recording =>
       match recordingCredit recording with
       | Some (first :: _) =>
           [renderText first +:+ " " +:+ renderText (recordingTitle recording)]
       | _ => []
       end)
    (recordings mb).

(** [[...new Set(l)]]: the elements in the order of their first
    occurrence. *)
Fixpoint distinct (l : list string) : list string :=
  match l with
  | [] => []
  | x :: rest => x :: List.filter (fun y => negb (String.eqb y x)) (distinct rest)
  end.

(** [generateEnhancedQueries] *)
Definition generateEnhancedQueries
  (mb : MusicBrainzResults) (originalQuery : string) : list string :=
  Js.slice0 3
    (distinct
       (originalQuery :: artistReleaseQueries mb ++ recordingQueries mb)).




(** *** Properties *)

Lemma distinct_In (l : list string) (x : string) : In x (distinct l) <-> In x l.
Proof.
  induction l as [|a r IH]; simpl; [tauto|].
  rewrite filter_In, IH.
  destruct (String.eqb_spec x a) as [->|Hne]; simpl; intuition congruence.
Qed.

Lemma NoDup_filter_string (p : string -> bool) (l : list string) :
  List.NoDup l -> List.NoDup (List.filter p l).
Proof.
  induction 1 as [|x l Hx Hl IH]; simpl; [constructor|].
  destruct (p x); [|exact IH].
  constructor; [|exact IH]. rewrite filter_In. tauto.
Qed.

Lemma distinct_NoDup (l : list string) : List.NoDup (distinct l).
Proof.
  induction l as [|a r IH]; simpl; constructor.
  - rewrite filter_In, String.eqb_refl. simpl. intros [_ H]. discriminate.
  - now apply NoDup_filter_string.
Qed.

Lemma NoDup_firstn_string (n : nat) (l : list string) :
  List.NoDup l -> List.NoDup (firstn n l).
Proof.
  intros H. revert n. induction H as [|x l Hx Hl IH]; intros [|n]; simpl;
    try constructor.
  - intros Hin. apply Hx. rewrite <- (List.firstn_skipn n l).
    apply in_or_app. now left.
  - apply IH.
Qed.

Lemma In_firstn_string (n : nat) (l : list string) (x : string) :
  In x (firstn n l) -> In x l.
Proof.
  intros H. rewrite <- (List.firstn_skipn n l). apply in_or_app. now left.
Qed.

(** The queries of the enhanced search start with the query the user
    typed; there are between one and three of them, no two the same; and
    each of the others is the name of an artist with the title of a release
    credited to that artist, or the first credited name of a recording with
    its title. *)
Theorem enhanced_queries_start_with_original
  (mb : MusicBrainzResults) (originalQuery : string) :
  let queries := generateEnhancedQueries mb originalQuery in
  List.hd_error queries = Some originalQuery /\
  (1 <= List.length queries <= 3)%nat /\
  List.NoDup queries /\
  (forall q, In q queries ->
     q = originalQuery \/
     (exists artist release,
        In artist (artists mb) /\ In release (releases mb) /\
        creditedTo artist release = true /\
        q = renderText (artistName artist) +:+ " "
            +:+ renderText (releaseTitle release)) \/
     (exists recording first others,
        In recording (recordings mb) /\
        recordingCredit recording = Some (first :: others) /\
        q = renderText first +:+ " "
            +:+ renderText (recordingTitle recording))).
Proof.
  intros queries. subst queries. unfold generateEnhancedQueries, Js.slice0.
  cbn [distinct]. cbn [firstn hd_error List.length].
  split; [reflexivity|]. split; [|split].
  - split; [lia|]. apply le_n_S. rewrite length_firstn. lia.
  - change (originalQuery
            :: firstn 2
                 (List.filter (fun y => negb (String.eqb y originalQuery))
                    (distinct (artistReleaseQueries mb ++ recordingQueries mb))))
      with (firstn 3
              (distinct
                 (originalQuery
                  :: artistReleaseQueries mb ++ recordingQueries mb))).
    apply NoDup_firstn_string, distinct_NoDup.
  - intros q [<-|Hq]; [now left|]. right.
    apply In_firstn_string in Hq. apply filter_In in Hq. destruct Hq as [Hq _].
    apply (proj1 (distinct_In _ _)) in Hq. apply in_app_or in Hq. destruct Hq as [Hq|Hq].
    + left. unfold artistReleaseQueries in Hq. apply in_flat_map in Hq.
      destruct Hq as (artist & Hartist & Hq). apply in_map_iff in Hq.
      destruct Hq as (release & <- & Hrelease). apply filter_In in Hrelease.
      destruct Hrelease as [Hrelease Hcredit]. now exists artist, release.
    + right. unfold recordingQueries in Hq. apply in_flat_map in Hq.
      destruct Hq as (recording & Hrecording & Hq).
      destruct (recordingCredit recording) as [[|first others]|] eqn:E;
        try contradiction.
      destruct Hq as [<-|[]]. now exists recording, first, others.
Qed.






End Search.

(** ** Track lengths: [formatTrackLength] *)

Module TrackLength.

(** [s.padStart(2, '0')] *)
Definition padStart2 (s : string) : string :=
  match String.length s with
  | O => "00" +:+ s
  | S O => "0" +:+ s
  | _ => s
  end.

(** [formatTrackLength]: [lengthMs] is a whole number of milliseconds, or
    [None] when it is missing. [Math.floor] of a quotient is the floored
    division, [%] the remainder with the sign of the dividend. *)
Definition formatTrackLength (lengthMs : option Z) : option string :=
  match lengthMs with
  | None => None
  | Some 0 => None
  | Some ms =>
      let totalSeconds := ms / 1000 in
      let minutes := totalSeconds / 60 in
      let seconds := Z.rem totalSeconds 60 in
      Some (Js.numberToString minutes +:+ ":"
            +:+ padStart2 (Js.numberToString seconds))
  end.

Lemma seconds_text (s : Z) :
  0 <= s < 60 ->
  String.length (padStart2 (Js.numberToString s)) = 2%nat /\
  Js.parseInt (padStart2 (Js.numberToString s)) = Some s.
Proof.
  intros Hs.
  assert (Hall :
    forallb
      (fun n =>
         let two := padStart2 (Js.numberToString (Z.of_nat n)) in
         (Nat.eqb (String.length two) 2
          && match Js.parseInt two with
             | Some v => v =? Z.of_nat n
             | None => false
             end)%bool)
      (seq 0 60) = true) by (vm_compute; reflexivity).
  rewrite forallb_forall in Hall.
  specialize (Hall (Z.to_nat s)). rewrite Z2Nat.id in Hall by lia.
  cbv zeta in Hall.
  destruct (andb_prop _ _ (Hall ltac:(apply in_seq; lia))) as [Hlen Hval].
  apply Nat.eqb_eq in Hlen. split; [exact Hlen|].
  destruct (Js.parseInt _) as [v|]; [|discriminate].
  apply Z.eqb_eq in Hval. now subst v.
Qed.

(** A positive length is shown as minutes, a colon and seconds: the
    seconds are written with two digits and are below 60, and minutes and
    seconds together are the length in whole seconds, rounded down. A
    length that is missing or zero has no text. *)
Theorem track_length_text (ms : Z) :
  0 < ms ->
  exists minutes seconds secondsText,
    formatTrackLength (Some ms)
    = Some (Js.numberToString minutes +:+ ":" +:+ secondsText) /\
    String.length secondsText = 2%nat /\
    Js.parseInt secondsText = Some seconds /\
    Js.parseInt (Js.numberToString minutes) = Some minutes /\
    0 <= minutes /\ 0 <= seconds < 60 /\
    60 * minutes + seconds = ms / 1000 /\
    formatTrackLength (Some 0) = None /\ formatTrackLength None = None.
Proof.
  intros Hms.
  assert (Htotal : 0 <= ms / 1000) by (apply Z.div_pos; lia).
  exists (ms / 1000 / 60), (Z.rem (ms / 1000) 60),
    (padStart2 (Js.numberToString (Z.rem (ms / 1000) 60))).
  assert (Hrem : Z.rem (ms / 1000) 60 = (ms / 1000) mod 60)
    by (apply Z.rem_mod_nonneg; lia).
  pose proof (Z.mod_pos_bound (ms / 1000) 60 ltac:(lia)) as Hbound.
  pose proof (Z.div_mod (ms / 1000) 60 ltac:(lia)) as Hdiv.
  assert (Hmin : 0 <= ms / 1000 / 60) by (apply Z.div_pos; lia).
  destruct (seconds_text (Z.rem (ms / 1000) 60)) as [Hlen Hparse]; [lia|].
  split; [destruct ms; try lia; reflexivity|].
  split; [exact Hlen|]. split; [exact Hparse|].
  split; [now apply parseInt_numberToString|].
  repeat split; try lia.
Qed.

Lemma track_length_example :
  exists minutes seconds secondsText,
    formatTrackLength (Some 185999)
    = Some (Js.numberToString minutes +:+ ":" +:+ secondsText) /\
    String.length secondsText = 2%nat /\
    Js.parseInt secondsText = Some seconds /\
    Js.parseInt (Js.numberToString minutes) = Some minutes /\
    0 <= minutes /\ 0 <= seconds < 60 /\
    60 * minutes + seconds = 185999 / 1000 /\
    formatTrackLength (Some 0) = None /\ formatTrackLength None = None.
Proof. apply (track_length_text 185999). lia. Defined.

End TrackLength.

(** ** The budget of image searches: [POST /api/artist-image]

    Before its first [await] the handler decides whether a search may
    start and counts it; nothing else runs in between. The image lookup
    itself is left to the outside world: all that comes back into the state
    is whether an image was found, in which case the entry of the artist
    is removed again. *)

Module ArtistImage.

Record Limiter : Type := mkLimiter {
  count : Z;
  resetTime : Z;
  artistImageSearchCache : gmap string Z
}.

Definition MAX_GLOBAL_IMAGE_SEARCH_ATTEMPTS : Z := 10.
Definition MAX_ATTEMPTS_PER_ARTIST : Z := 1.
Definition RESET_INTERVAL : Z := 5 * 60 * 1000.

Inductive Gate : Type :=
| BadRequest
| GlobalLimitReached
| ArtistLimitReached
| Searching (searchKey : string).

(** [`${artistId}-${artistName}`] *)
Definition searchKeyOf (artistId : string) (artistName : option string) : string :=
  artistId +:+ "-" +:+ Search.renderText artistName.

(** The handler up to its [try] block, at time [now]. *)
Definition enter
  (now : Z) (artistId : option string) (artistName : option string) (l : Limiter)
  : Gate * Limiter :=
  match Selector.hinted artistId with
  | None => (BadRequest, l)
  | Some artist =>
      let l1 :=
        if RESET_INTERVAL <? now - resetTime l
        then mkLimiter 0 now ∅
        else l in
      if MAX_GLOBAL_IMAGE_SEARCH_ATTEMPTS <=? count l1
      then (GlobalLimitReached, l1)
      else
        let searchKey := searchKeyOf artist artistName in
        let attempts :=
          match artistImageSearchCache l1 !! searchKey with
          | Some n => if n =? 0 then 0 else n
          | None => 0
          end in
        if MAX_ATTEMPTS_PER_ARTIST <=? attempts
        then (ArtistLimitReached, l1)
        else (Searching searchKey,
              mkLimiter (count l1 + 1) (resetTime l1)
                (<[searchKey := attempts + 1]> (artistImageSearchCache l1)))
  end.

(** [artistImageSearchCache.delete(searchKey)], when an image was found. *)
Definition imageFound (searchKey : string) (l : Limiter) : Limiter :=
  mkLimiter (count l) (resetTime l) (delete searchKey (artistImageSearchCache l)).

(** The callback of [setInterval], every 30 minutes. *)
Definition cleanUp (now : Z) (l : Limiter) : Limiter := mkLimiter 0 now ∅.

Inductive Event : Type :=
| Request (now : Z) (artistId artistName : option string)
| ImageFound (searchKey : string)
| CleanUp (now : Z).

Definition handle (e : Event) (l : Limiter) : list Gate * Limiter :=
  match e with
  | Request now artistId artistName =>
      let '(gate, l') := enter now artistId artistName l in ([gate], l')
  | ImageFound searchKey => ([], imageFound searchKey l)
  | CleanUp now => ([], cleanUp now l)
  end.

Fixpoint run (events : list Event) (l : Limiter) : list Gate * Limiter :=
  match events with
  | [] => ([], l)
  | e :: rest =>
      let '(gates, l1) := handle e l in
      let '(more, l2) := run rest l1 in
      ((gates ++ more)%list, l2)
  end.

Definition isSearching (g : Gate) : bool :=
  match g with Searching _ => true | _ => false end.

Definition isSearchingFor (searchKey : string) (g : Gate) : bool :=
  match g with Searching k => String.eqb k searchKey | _ => false end.

(** The number of searches started. *)
Definition searches (gates : list Gate) : Z :=
  Z.of_nat (List.length (List.filter isSearching gates)).

(** An event that does not set the counter back: no clean-up, and no
    request later than [RESET_INTERVAL] after [since]. *)
Definition withinInterval (since : Z) (e : Event) : Prop :=
  match e with
  | Request now _ _ => now - since <= RESET_INTERVAL
  | ImageFound _ => True
  | CleanUp _ => False
  end.

Definition notFoundFor (searchKey : string) (e : Event) : Prop :=
  match e with
  | ImageFound k => k <> searchKey
  | _ => True
  end.

Lemma enter_within (now : Z) (artistId artistName : option string) (l : Limiter) :
  now - resetTime l <= RESET_INTERVAL ->
  0 <= count l <= MAX_GLOBAL_IMAGE_SEARCH_ATTEMPTS ->
  let r := enter now artistId artistName l in
  resetTime (snd r) = resetTime l /\
  count (snd r) = count l + (if isSearching (fst r) then 1 else 0) /\
  count (snd r) <= MAX_GLOBAL_IMAGE_SEARCH_ATTEMPTS.
Proof.
  intros Hnow Hcount. unfold enter.
  destruct (Selector.hinted artistId) as [artist|]; cbn [fst snd isSearching];
    [|lia].
  destruct (Z.ltb_spec RESET_INTERVAL (now - resetTime l)); [lia|].
  destruct (Z.leb_spec MAX_GLOBAL_IMAGE_SEARCH_ATTEMPTS (count l));
    cbn [fst snd isSearching]; [lia|].
  destruct (MAX_ATTEMPTS_PER_ARTIST <=? _); cbn [fst snd isSearching count resetTime];
    lia.
Qed.

Lemma enter_bounded (now : Z) (artistId artistName : option string) (l : Limiter) :
  0 <= count l <= MAX_GLOBAL_IMAGE_SEARCH_ATTEMPTS ->
  0 <= count (snd (enter now artistId artistName l))
  <= MAX_GLOBAL_IMAGE_SEARCH_ATTEMPTS.
Proof.
  intros Hcount. unfold enter.
  destruct (Selector.hinted artistId) as [artist|]; cbn [snd]; [|exact Hcount].
  set (l1 := if RESET_INTERVAL <? now - resetTime l then mkLimiter 0 now ∅ else l).
  assert (H1 : 0 <= count l1 <= MAX_GLOBAL_IMAGE_SEARCH_ATTEMPTS).
  { unfold l1. destruct (RESET_INTERVAL <? now - resetTime l); [|exact Hcount].
    cbn. unfold MAX_GLOBAL_IMAGE_SEARCH_ATTEMPTS. lia. }
  destruct (Z.leb_spec MAX_GLOBAL_IMAGE_SEARCH_ATTEMPTS (count l1));
    cbn [snd]; [exact H1|].
  destruct (MAX_ATTEMPTS_PER_ARTIST <=? _); cbn [snd count]; lia.
Qed.

(** The counter of image searches never leaves the range from 0 to 10,
    whatever requests, results and clean-ups follow one another. As long as
    the counter is not set back, it counts the searches started, so no more
    than ten are started; and an artist for whom a search was started and
    no image found is not searched for again. *)
Theorem image_search_budget (events : list Event) (l : Limiter) :
  0 <= count l <= MAX_GLOBAL_IMAGE_SEARCH_ATTEMPTS ->
  0 <= count (snd (run events l)) <= MAX_GLOBAL_IMAGE_SEARCH_ATTEMPTS /\
  (Forall (withinInterval (resetTime l)) events ->
   count (snd (run events l)) = count l + searches (fst (run events l)) /\
   searches (fst (run events l)) <= MAX_GLOBAL_IMAGE_SEARCH_ATTEMPTS - count l /\
   forall searchKey n,
     artistImageSearchCache l !! searchKey = Some n -> 1 <= n ->
     Forall (notFoundFor searchKey) events ->
     List.filter (isSearchingFor searchKey) (fst (run events l)) = []).
Proof.
  revert l. induction events as [|e rest IH]; intros l Hcount.
  - cbn. unfold searches. cbn. split; [exact Hcount|]. intros _.
    repeat split; try lia.
  - cbn [run].
    assert (Hstep : 0 <= count (snd (handle e l))
                    <= MAX_GLOBAL_IMAGE_SEARCH_ATTEMPTS).
    { destruct e as [now artistId artistName|key|now]; cbn [handle].
      - pose proof (enter_bounded now artistId artistName l Hcount) as H.
        now destruct (enter now artistId artistName l).
      - exact Hcount.
      - cbn. unfold MAX_GLOBAL_IMAGE_SEARCH_ATTEMPTS. lia. }
    destruct (handle e l) as [gates l1] eqn:Ehandle. cbn [snd] in Hstep.
    destruct (IH l1 Hstep) as [Hbound Hwithin].
    destruct (run rest l1) as [more l2]. cbn [fst snd] in *.
    split; [exact Hbound|].
    intros Hall. apply Forall_cons_1 in Hall. destruct Hall as [He Hrest].
    assert (Hsame : resetTime l1 = resetTime l /\
              count l1 = count l + searches gates /\
              forall searchKey n,
                artistImageSearchCache l !! searchKey = Some n -> 1 <= n ->
                notFoundFor searchKey e ->
                List.filter (isSearchingFor searchKey) gates = [] /\
                exists n', artistImageSearchCache l1 !! searchKey = Some n' /\
                  1 <= n').
    { destruct e as [now artistId artistName|key|now]; cbn [handle] in Ehandle.
      - cbn in He.
        destruct (enter_within now artistId artistName l He Hcount)
          as (Hreset & Hc & _).
        destruct (enter now artistId artistName l) as [gate l'] eqn:Eenter.
        injection Ehandle as <- <-. cbn [fst snd] in *.
        split; [exact Hreset|]. split.
        + rewrite Hc. unfold searches. cbn. destruct (isSearching gate); cbn; lia.
        + intros searchKey n Hentry Hn _.
          unfold enter in Eenter.
          destruct (Selector.hinted artistId) as [artist|].
          2:{ injection Eenter as <- <-. split; [reflexivity|eauto]. }
          destruct (Z.ltb_spec RESET_INTERVAL (now - resetTime l)); [lia|].
          destruct (MAX_GLOBAL_IMAGE_SEARCH_ATTEMPTS <=? count l).
          { injection Eenter as <- <-. split; [reflexivity|eauto]. }
          cbv zeta in Eenter.
          destruct (String.eqb_spec (searchKeyOf artist artistName) searchKey)
            as [Hkey|Hkey].
          * rewrite Hkey, Hentry in Eenter.
            destruct (Z.eqb_spec n 0); [lia|].
            destruct (Z.leb_spec MAX_ATTEMPTS_PER_ARTIST n);
              [|unfold MAX_ATTEMPTS_PER_ARTIST in *; lia].
            injection Eenter as <- <-. split; [reflexivity|eauto].
          * destruct (MAX_ATTEMPTS_PER_ARTIST <=? _);
              injection Eenter as <- <-; cbn [artistImageSearchCache].
            -- split; [reflexivity|eauto].
            -- split.
               ++ cbn. apply String.eqb_neq in Hkey. now rewrite Hkey.
               ++ rewrite lookup_insert_ne by exact Hkey. eauto.
      - injection Ehandle as <- <-. cbn. unfold searches. cbn.
        split; [reflexivity|]. split; [lia|].
        intros searchKey n Hentry Hn Hother. cbn in Hother.
        split; [reflexivity|]. rewrite lookup_delete_ne by exact Hother. eauto.
      - contradiction. }
    destruct Hsame as (Hreset & Hc & Hkeys).
    rewrite <- Hreset in Hrest.
    destruct (Hwithin Hrest) as (Hcount2 & Hbudget & Hartist).
    assert (Hsum : searches (gates ++ more) = searches gates + searches more).
    { unfold searches. rewrite List.filter_app, length_app. lia. }
    rewrite Hsum. split; [lia|]. split; [lia|].
    intros searchKey n Hentry Hn Hquiet.
    apply Forall_cons_1 in Hquiet. destruct Hquiet as [Hq Hquiet].
    destruct (Hkeys searchKey n Hentry Hn Hq) as (Hnone & n' & Hentry' & Hn').
    rewrite List.filter_app, Hnone. cbn.
    now apply Hartist with n'.
Qed.

(** The limiter at start-up. *)
Definition atStart : Limiter := mkLimiter 0 0 ∅.

Lemma image_search_budget_example :
  let events :=
    [Request 1000 (Some "id-1") (Some "First"); ImageFound "id-1-First";
     Request 2000 (Some "id-1") (Some "First");
     Request 3000 (Some "id-2") None; Request 4000 (Some "id-2") None] in
  0 <= count (snd (run events atStart)) <= MAX_GLOBAL_IMAGE_SEARCH_ATTEMPTS /\
  count (snd (run events atStart)) = 0 + searches (fst (run events atStart)).
Proof.
  intros events.
  destruct (image_search_budget events atStart) as [Hbound Hwithin].
  - cbn. unfold MAX_GLOBAL_IMAGE_SEARCH_ATTEMPTS. lia.
  - split; [exact Hbound|]. apply Hwithin.
    repeat constructor; cbn; unfold RESET_INTERVAL; lia.
Defined.

End ArtistImage.

(** ** Choosing the track of an album: [POST /api/play-album-track] *)

Module AlbumTrack.
Import Swarm Selector.

(** The class [\w] of a regular expression. *)
Definition isWordChar (c : ascii) : bool :=
  (Js.isDigit c || Js.charBetween 65 90 c || Js.charBetween 97 122 c
   || Ascii.eqb c "_"%char)%bool.

(** [s.replace(/[^\w\s]/g, '')] *)
Fixpoint keepWordsAndSpaces (s : string) : string :=
  match s with
  | EmptyString => EmptyString
  | String c r =>
      if (isWordChar c || Js.isSpace c)%bool
      then String c (keepWordsAndSpaces r)
      else keepWordsAndSpaces r
  end.

(** [s.replace(/\s+/g, ' ')]: [inRun] says that the previous character was
    white space. *)
Fixpoint collapseSpaces (inRun : bool) (s : string) : string :=
  match s with
  | EmptyString => EmptyString
  | String c r =>
      if Js.isSpace c
      then if inRun then collapseSpaces true r
           else String " "%char (collapseSpaces true r)
      else String c (collapseSpaces false r)
  end.

Fixpoint trimEnd (s : string) : string :=
  match s with
  | EmptyString => EmptyString
  | String c r =>
      match trimEnd r with
      | EmptyString => if Js.isSpace c then EmptyString else String c EmptyString
      | t => String c t
      end
  end.

(** [s.trim()] *)
Definition trim (s : string) : string := trimEnd (Js.dropWhile Js.isSpace s).

Definition cleaned (s : string) : string :=
  collapseSpaces false (keepWordsAndSpaces s).

(** [l.find(p)], as the place of the element found: the files of a torrent
    are distinct objects, so the place identifies the object. *)
Fixpoint findIndex {A : Type} (p : A -> bool) (l : list A) : option nat :=
  match l with
  | [] => None
  | x :: rest => if p x then Some 0%nat else option_map S (findIndex p rest)
  end.

(** The fields of the request body that choose the track; [trackIndex] is
    a whole number when it is there. *)
Record Body : Type := mkBody {
  trackName : option string;
  trackIndex : option Z;
  trackTitle : option string;
  artistName : option string
}.

Record Track : Type := mkTrack {
  index : Z;
  trackFile : string;
  trackSize : Z
}.

Record Playing : Type := mkPlaying {
  fileName : string;
  fileSize : Z;
  albumName : string;
  playingIndex : Z;
  totalTracks : Z;
  albumTracks : list Track
}.

Inductive Answer : Type :=
| NotFound (error : string)
| Play (info : Playing).

Section Choice.
Variable localeCompare : string -> string -> Z.

(** Strategy 1: the same name, as it is written. *)
Definition byExactName (body : Body) (audioFiles : list File) : option nat :=
  match hinted (trackName body) with
  | Some wanted => findIndex (fun f => String.eqb (name f) wanted) audioFiles
  | None => None
  end.

(** Strategy 2: the track index, 1-based. *)
Definition byIndex (body : Body) (audioFiles : list File) : option nat :=
  match trackIndex body with
  | Some k =>
      if ((1 <=? k) && (k <=? Z.of_nat (List.length audioFiles)))%bool
      then Some (Z.to_nat (k - 1))
      else None
  | None => None
  end.

(** Strategy 3: the title within the file name, then title and artist,
    then both without punctuation. *)
Definition byTitle (body : Body) (audioFiles : list File) : option nat :=
  match hinted (trackTitle body) with
  | Some wantedTitle =>
      let searchTerm := Js.toLowerCase wantedTitle in
      orElse
        (findIndex
           (fun f => Js.includes (Js.toLowerCase (name f)) searchTerm)
           audioFiles)
        (orElse
           match hinted (artistName body) with
           | Some artist =>
               let artistTerm := Js.toLowerCase artist in
               findIndex
                 (fun f =>
                    (Js.includes (Js.toLowerCase (name f)) searchTerm
                     && Js.includes (Js.toLowerCase (name f)) artistTerm)%bool)
                 audioFiles
           | None => None
           end
           (let cleanSearchTerm := trim (cleaned searchTerm) in
            findIndex
              (fun f =>
                 Js.includes (cleaned (Js.toLowerCase (name f))) cleanSearchTerm)
              audioFiles))
  | None => None
  end.

(** The place of [targetFile] in the sorted files; strategy 4 is the first
    file. *)
Definition targetIndex (body : Body) (audioFiles : list File) : nat :=
  default 0%nat
    (orElse (byExactName body audioFiles)
       (orElse (byIndex body audioFiles) (byTitle body audioFiles))).

(** The handler once the torrent is at hand. *)
Definition playAlbumTrack (torrent : Handle) (body : Body) : Answer :=
  let audioFiles := sortedAudioFiles localeCompare (List.filter isAudio (files torrent)) in
  if Nat.eqb (List.length audioFiles) 0
  then NotFound "No audio files found in album"
  else
    match audioFiles !! targetIndex body audioFiles with
    | None => NotFound "Could not find specified track in album"
    | Some targetFile =>
        Play
          {| fileName := name targetFile;
             fileSize := fileLength targetFile;
             albumName := torrentName torrent;
             playingIndex := Z.of_nat (targetIndex body audioFiles) + 1;
             totalTracks := Z.of_nat (List.length audioFiles);
             albumTracks :=
               imap (fun i f => mkTrack (Z.of_nat i + 1) (name f) (fileLength f))
                 audioFiles |}
    end.

Lemma findIndex_Some {A : Type} (p : A -> bool) (l : list A) (i : nat) :
  findIndex p l = Some i ->
  exists x, l !! i = Some x /\ p x = true.
Proof.
  revert i. induction l as [|a rest IH]; intros i; simpl; [discriminate|].
  destruct (p a) eqn:Hp.
  - intros H. injection H as <-. now exists a.
  - destruct (findIndex p rest) as [j|]; [|discriminate].
    intros H. injection H as <-. destruct (IH j eq_refl) as (x & Hx & Hpx).
    now exists x.
Qed.

Lemma findIndex_weaker {A : Type} (p q : A -> bool) (l : list A) :
  (forall x, q x = true -> p x = true) ->
  findIndex p l = None -> findIndex q l = None.
Proof.
  intros Hqp. induction l as [|a rest IH]; simpl; [reflexivity|].
  destruct (p a) eqn:Hp; [discriminate|].
  destruct (q a) eqn:Hq; [rewrite (Hqp a Hq) in Hp; discriminate|].
  destruct (findIndex p rest); [discriminate|].
  intros _. now rewrite IH.
Qed.

Lemma targetIndex_in_range (body : Body) (audioFiles : list File) :
  audioFiles <> [] ->
  (targetIndex body audioFiles < List.length audioFiles)%nat.
Proof.
  intros Hne. unfold targetIndex.
  assert (Hlen : (0 < List.length audioFiles)%nat)
    by (destruct audioFiles; [contradiction|simpl; lia]).
  assert (Hfind : forall (p : File -> bool) i,
            findIndex p audioFiles = Some i -> (i < List.length audioFiles)%nat).
  { intros p i H. apply findIndex_Some in H. destruct H as (x & Hx & _).
    now apply lookup_lt_Some in Hx. }
  destruct (byExactName body audioFiles) as [i|] eqn:E1; cbn.
  { unfold byExactName in E1. destruct (hinted (trackName body)); [|discriminate].
    now apply Hfind in E1. }
  destruct (byIndex body audioFiles) as [i|] eqn:E2; cbn.
  { unfold byIndex in E2. destruct (trackIndex body) as [k|]; [|discriminate].
    destruct (Z.leb_spec 1 k); [|discriminate].
    destruct (Z.leb_spec k (Z.of_nat (List.length audioFiles))); [|discriminate].
    injection E2 as <-. lia. }
  destruct (byTitle body audioFiles) as [i|] eqn:E3; cbn; [|exact Hlen].
  unfold byTitle in E3. destruct (hinted (trackTitle body)); [|discriminate].
  cbv zeta in E3.
  destruct (findIndex _ audioFiles) as [j|] eqn:F1 in E3; cbn in E3.
  { injection E3 as <-. now apply Hfind in F1. }
  destruct (hinted (artistName body)).
  - destruct (findIndex _ audioFiles) as [j|] eqn:F2 in E3; cbn in E3.
    { injection E3 as <-. now apply Hfind in F2. }
    now apply Hfind in E3.
  - cbn in E3. now apply Hfind in E3.
Qed.

End Choice.

(** The artist name of the request never changes which track is chosen:
    the strategy that uses it runs only after no file name was found to
    contain the title, and then no file name contains title and artist. *)
Theorem artist_name_plays_no_part
  (localeCompare : string -> string -> Z) (torrent : Handle)
  (body : Body) (otherArtist : option string) :
  playAlbumTrack localeCompare torrent
    (mkBody (trackName body) (trackIndex body) (trackTitle body) otherArtist)
  = playAlbumTrack localeCompare torrent body.
Proof.
  assert (Htitle : forall (b : Body) (l : list File),
            byTitle b l
            = byTitle (mkBody (trackName b) (trackIndex b) (trackTitle b) None) l).
  { intros b l. unfold byTitle. cbn [trackTitle artistName hinted].
    destruct (hinted (trackTitle b)) as [wantedTitle|]; [|reflexivity].
    cbv zeta.
    destruct (findIndex
                (fun f => Js.includes (Js.toLowerCase (name f))
                            (Js.toLowerCase wantedTitle)) l) eqn:F1;
      [reflexivity|].
    cbn [orElse].
    destruct (hinted (artistName b)) as [artist|]; [|reflexivity].
    rewrite (findIndex_weaker _ _ l
               (fun x H => proj1 (andb_prop _ _ H)) F1).
    reflexivity. }
  assert (Hindex : forall l,
            targetIndex
              (mkBody (trackName body) (trackIndex body) (trackTitle body)
                 otherArtist) l
            = targetIndex body l).
  { intros l. unfold targetIndex, byExactName, byIndex.
    cbn [trackName trackIndex].
    rewrite (Htitle body l), (Htitle (mkBody _ _ _ otherArtist) l).
    reflexivity. }
  unfold playAlbumTrack. cbv zeta. rewrite Hindex. reflexivity.
Qed.

(** With at least one audio file the handler always answers with a track,
    and the answer hangs together: the track index lies between 1 and the
    number of tracks, and the entry of the track list at that index carries
    the index, the name and the size of the file that is played. A valid
    track index in the request is the track index of the answer unless a
    file has exactly the requested name. *)
Theorem album_track_answer
  (localeCompare : string -> string -> Z) (torrent : Handle) (body : Body) :
  List.filter isAudio (files torrent) <> [] ->
  exists info,
    playAlbumTrack localeCompare torrent body = Play info /\
    totalTracks info
    = Z.of_nat (List.length (List.filter isAudio (files torrent))) /\
    List.length (albumTracks info)
    = List.length (List.filter isAudio (files torrent)) /\
    1 <= playingIndex info <= totalTracks info /\
    albumTracks info !! Z.to_nat (playingIndex info - 1)
    = Some (mkTrack (playingIndex info) (fileName info) (fileSize info)) /\
    (exists f, In f (files torrent) /\ isAudio f = true /\
       name f = fileName info /\ fileLength f = fileSize info) /\
    (forall k, trackIndex body = Some k ->
       1 <= k <= Z.of_nat (List.length (List.filter isAudio (files torrent))) ->
       byExactName body
         (sortedAudioFiles localeCompare (List.filter isAudio (files torrent)))
       = None ->
       playingIndex info = k).
Proof.
  intros Hne. unfold playAlbumTrack. cbv zeta.
  set (audioFiles := sortedAudioFiles localeCompare
                       (List.filter isAudio (files torrent))).
  assert (Hlen : List.length audioFiles
                 = List.length (List.filter isAudio (files torrent)))
    by apply sorted_length.
  assert (Hne' : audioFiles <> []).
  { intros E. rewrite E in Hlen. simpl in Hlen. symmetry in Hlen.
    now apply length_zero_iff_nil in Hlen. }
  pose proof (targetIndex_in_range body audioFiles Hne') as Hrange.
  destruct (lookup_lt_is_Some_2 audioFiles (targetIndex body audioFiles) Hrange)
    as [target Htarget].
  destruct (Nat.eqb_spec (List.length audioFiles) 0) as [Hz|_]; [lia|].
  rewrite Htarget. eexists. split; [reflexivity|].
  cbn [totalTracks albumTracks playingIndex fileName fileSize].
  split; [now rewrite Hlen|]. split; [now rewrite length_imap|].
  split; [lia|]. split; [|split].
  - replace (Z.to_nat (Z.of_nat (targetIndex body audioFiles) + 1 - 1))
      with (targetIndex body audioFiles) by lia.
    rewrite list_lookup_imap, Htarget. reflexivity.
  - exists target. apply sorted_lookup_In in Htarget.
    apply filter_In in Htarget. destruct Htarget as [Hin Haudio].
    repeat split; assumption.
  - intros k Hk Hvalid Hexact. unfold targetIndex. rewrite Hexact.
    unfold byIndex. rewrite Hk, Hlen.
    destruct (Z.leb_spec 1 k); [|lia].
    destruct (Z.leb_spec k
                (Z.of_nat (List.length (List.filter isAudio (files torrent)))));
      [|lia].
    cbn. lia.
Qed.

Lemma album_track_example :
  exists info,
    playAlbumTrack codeOrder (mkHandle 0 "album" fiveTracks true)
      (mkBody None (Some 3) (Some "e") None)
    = Play info /\
    playingIndex info = 3 /\ fileName info = "c.mp3".
Proof.
  destruct (album_track_answer codeOrder (mkHandle 0 "album" fiveTracks true)
              (mkBody None (Some 3) (Some "e") None))
    as (info & Hplay & _ & _ & _ & _ & _ & Hindex).
  - discriminate.
  - exists info. split; [exact Hplay|].
    split; [apply Hindex; [reflexivity|vm_compute; split; discriminate|reflexivity]|].
    revert Hplay. vm_compute. intros H. injection H as <-. reflexivity.
Defined.

End AlbumTrack.

(** ** The pre-loader's registrations

    For every candidate it kept, the pre-loader of [/api/artist-details]
    picks a link, resolves it and registers the magnet link. The
    resolutions run side by side; what follows a resolution, from the test
    of the result to the [return], has no [await] and runs in one piece.
    The call of [torrentClient.add] is inside a [try] whose [catch] only
    logs, and the torrent that was added gets an [error] handler that
    deletes its link from [activeTorrents]; [/api/cleanup-torrents]
    deletes links too, one after the other. The candidates are taken here
    in the order in which their resolutions complete, with the deletions
    in between, and with no other handler adding torrents meanwhile. *)

Module Preload.
Import Exn Resolver Registry RegistryReuse.

(** The fields of a candidate that may hold its link. *)
Record Links : Type := mkLinks {
  url : option string;
  magnetUrl : option string;
  magnet : option string;
  downloadUrl : option string;
  link : option string
}.

(** What the pre-loader records for a candidate. *)
Record Loaded : Type := mkLoaded {
  loadedMagnetUrl : option string;
  webTorrentReady : bool
}.

(** [torrent.url || torrent.magnetUrl || torrent.magnet ||
    torrent.downloadUrl || torrent.link] *)
Definition chosenLink (t : Links) : option string :=
  Selector.orElse (Selector.hinted (url t))
    (Selector.orElse (Selector.hinted (magnetUrl t))
       (Selector.orElse (Selector.hinted (magnet t))
          (Selector.orElse (Selector.hinted (downloadUrl t))
             (Selector.hinted (link t))))).

(** One candidate. [net] is what the network answers while its link is
    resolved; [addThrows w m] says whether [torrentClient.add] throws for
    the link [m] in the state [w]. A throw is caught and logged, and the
    candidate is reported as ready all the same. *)
Definition preloadOne (net : string -> Fetch) (addThrows : World -> string -> bool)
  (t : Links) (w : World) : Loaded * World :=
  match chosenLink t with
  | None => (mkLoaded None false, w)
  | Some downloadUrl =>
      match resolveMagnetUrl net downloadUrl with
      | Normal resolvedMagnetUrl =>
          if Js.startsWith resolvedMagnetUrl "magnet:"
          then (mkLoaded (Some resolvedMagnetUrl) true,
                preloadAdd (addThrows w resolvedMagnetUrl) resolvedMagnetUrl w)
          else (mkLoaded None false, w)
      | Throw _ => (mkLoaded None false, w)
      end
  end.

(** What happens while the pre-loader runs: the resolution of a candidate
    completes, or a link is deleted from [activeTorrents], by the [error]
    handler of its torrent or by a clean-up. *)
Inductive Occurrence : Type :=
| Resolved (net : string -> Fetch) (t : Links)
| Unregistered (magnetLink : string).

Definition occur (addThrows : World -> string -> bool) (o : Occurrence) (w : World)
  : list Loaded * World :=
  match o with
  | Resolved net t =>
      let '(loaded, w') := preloadOne net addThrows t w in ([loaded], w')
  | Unregistered m => ([], torrentError m w)
  end.

Fixpoint preloadAll (addThrows : World -> string -> bool)
  (occurrences : list Occurrence) (w : World) : list Loaded * World :=
  match occurrences with
  | [] => ([], w)
  | o :: rest =>
      let '(loaded, w1) := occur addThrows o w in
      let '(others, w2) := preloadAll addThrows rest w1 in
      ((loaded ++ others)%list, w2)
  end.

(** What the pre-loader reports never depends on the engine. *)
Definition wellReported (loaded : Loaded) : Prop :=
  (webTorrentReady loaded = true <-> loadedMagnetUrl loaded <> None) /\
  forall m, loadedMagnetUrl loaded = Some m -> Js.startsWith m "magnet:" = true.

Lemma occur_effect
  (addThrows : World -> string -> bool) (o : Occurrence) (w : World) (m : string) :
  (forall w', addThrows w' m = false) ->
  o <> Unregistered m ->
  let r := occur addThrows o w in
  (is_Some (activeTorrents w !! m) ->
   is_Some (activeTorrents (snd r) !! m) /\ addCount m (snd r) = addCount m w) /\
  (addCount m (snd r) <= addCount m w + 1)%nat /\
  (is_Some (activeTorrents (snd r) !! m) \/ addCount m (snd r) = addCount m w) /\
  (forall loaded, In loaded (fst r) -> loadedMagnetUrl loaded = Some m ->
     is_Some (activeTorrents (snd r) !! m)) /\
  (forall loaded, In loaded (fst r) -> wellReported loaded).
Proof.
  intros Hengine Ho.
  assert (Hidle :
    (is_Some (activeTorrents w !! m) ->
     is_Some (activeTorrents w !! m) /\ addCount m w = addCount m w) /\
    (addCount m w <= addCount m w + 1)%nat /\
    (is_Some (activeTorrents w !! m) \/ addCount m w = addCount m w) /\
    (forall loaded, In loaded [mkLoaded None false] -> loadedMagnetUrl loaded = Some m ->
       is_Some (activeTorrents w !! m)) /\
    (forall loaded, In loaded [mkLoaded None false] -> wellReported loaded)).
  { split; [auto|]. split; [lia|]. split; [now right|]. split.
    - intros loaded [<-|[]]. discriminate.
    - intros loaded [<-|[]]. split; [split; [discriminate|now intros H]|discriminate]. }
  destruct o as [net t|m']; cbn [occur].
  - unfold preloadOne.
    destruct (chosenLink t) as [downloadUrl|]; [|exact Hidle].
    destruct (resolveMagnetUrl net downloadUrl) as [m0|e]; [|exact Hidle].
    destruct (Js.startsWith m0 "magnet:") eqn:Hm; [|exact Hidle].
    cbn [fst snd].
    destruct (preloadAdd_effect (addThrows w m0) m0 m w) as (Hkeep & Hother & Hnew & Hbound).
    split; [exact Hkeep|]. split; [exact Hbound|]. split; [|split].
    + destruct (decide (m0 = m)) as [->|Hne].
      * left. apply Hnew, Hengine.
      * right. now apply Hother.
    + intros loaded [<-|[]] H. injection H as <-. apply Hnew, Hengine.
    + intros loaded [<-|[]]. split; [split; [discriminate|reflexivity]|].
      intros m1 H. injection H as <-. exact Hm.
  - assert (Hne : m' <> m) by congruence.
    assert (Hcount : addCount m (torrentError m' w) = addCount m w) by reflexivity.
    assert (Hlookup : activeTorrents (torrentError m' w) !! m = activeTorrents w !! m)
      by (cbn; now rewrite lookup_delete_ne).
    cbn [fst snd]. rewrite Hcount, Hlookup.
    split; [auto|]. split; [lia|]. split; [now right|]. split; intros loaded [].
Qed.

Lemma preloadAll_registered
  (addThrows : World -> string -> bool) (occurrences : list Occurrence)
  (w : World) (m : string) :
  (forall w', addThrows w' m = false) ->
  Forall (fun o => o <> Unregistered m) occurrences ->
  is_Some (activeTorrents w !! m) ->
  is_Some (activeTorrents (snd (preloadAll addThrows occurrences w)) !! m) /\
  addCount m (snd (preloadAll addThrows occurrences w)) = addCount m w.
Proof.
  intros Hengine. revert w.
  induction occurrences as [|o rest IH]; intros w Hos Hreg; cbn [preloadAll].
  - now split.
  - apply Forall_cons_1 in Hos. destruct Hos as [Ho Hrest].
    destruct (occur_effect addThrows o w m Hengine Ho) as (Hkeep & _).
    destruct (occur addThrows o w) as [loaded w1]. cbn [fst snd] in *.
    destruct (Hkeep Hreg) as [Hreg1 Hcount1].
    destruct (IH w1 Hrest Hreg1) as [Hreg2 Hcount2].
    destruct (preloadAll addThrows rest w1) as [others w2]. cbn [fst snd] in *.
    split; [exact Hreg2|lia].
Qed.

(** Take a magnet link for which the engine's [torrentClient.add] does
    not throw and which is not deleted from [activeTorrents] while the
    pre-loader runs, neither by an [error] on its torrent nor by a
    clean-up. The pre-loader calls [torrentClient.add] at most once
    for it, in whatever order the resolutions complete, whatever the
    network answers and however many candidates share the link, and not at
    all when the link is registered already; and when the pre-loader has
    finished, the link of every candidate reported with it is in
    [activeTorrents]. With any engine, a candidate is reported as ready
    exactly when it is reported with a magnet link, and that link starts
    with [magnet:]. *)
Theorem preload_adds_each_magnet_once
  (addThrows : World -> string -> bool) (occurrences : list Occurrence)
  (w : World) (m : string) :
  (forall w', addThrows w' m = false) ->
  Forall (fun o => o <> Unregistered m) occurrences ->
  let r := preloadAll addThrows occurrences w in
  (addCount m (snd r) <= addCount m w + 1)%nat /\
  (is_Some (activeTorrents w !! m) ->
   addCount m (snd r) = addCount m w /\ is_Some (activeTorrents (snd r) !! m)) /\
  (forall loaded, In loaded (fst r) -> loadedMagnetUrl loaded = Some m ->
     is_Some (activeTorrents (snd r) !! m)) /\
  (forall loaded, In loaded (fst r) ->
     (webTorrentReady loaded = true <-> loadedMagnetUrl loaded <> None) /\
     forall m', loadedMagnetUrl loaded = Some m' -> Js.startsWith m' "magnet:" = true).
Proof.
  intros Hengine Hos r. subst r. split; [|split].
  - revert w Hos.
    induction occurrences as [|o rest IH]; intros w Hos; cbn [preloadAll].
    + cbn. lia.
    + apply Forall_cons_1 in Hos. destruct Hos as [Ho Hrest].
      destruct (occur_effect addThrows o w m Hengine Ho) as (_ & Hbound & Hcases & _).
      destruct (occur addThrows o w) as [loaded w1]. cbn [fst snd] in *.
      specialize (IH w1 Hrest).
      pose proof (preloadAll_registered addThrows rest w1 m Hengine Hrest) as Hreg.
      destruct (preloadAll addThrows rest w1) as [others w2]. cbn [fst snd] in *.
      destruct Hcases as [Hreg1|Hsame].
      * destruct (Hreg Hreg1) as [_ Hcount]. lia.
      * lia.
  - intros Hreg.
    destruct (preloadAll_registered addThrows occurrences w m Hengine Hos Hreg).
    now split.
  - revert w Hos.
    induction occurrences as [|o rest IH]; intros w Hos; cbn [preloadAll].
    + split; intros loaded [].
    + apply Forall_cons_1 in Hos. destruct Hos as [Ho Hrest].
      destruct (occur_effect addThrows o w m Hengine Ho) as (_ & _ & _ & Hlink & Hwell).
      destruct (occur addThrows o w) as [loaded w1]. cbn [fst snd] in *.
      destruct (IH w1 Hrest) as [IHlink IHwell].
      pose proof (preloadAll_registered addThrows rest w1 m Hengine Hrest) as Hreg.
      destruct (preloadAll addThrows rest w1) as [others w2]. cbn [fst snd] in *.
      split; intros l Hl; apply in_app_or in Hl; destruct Hl as [Hl|Hl].
      * intros Hm. now apply Hreg, (Hlink l).
      * now apply IHlink.
      * now apply Hwell.
      * now apply IHwell.
Qed.

(** Two candidates with the same magnet link, a third without any link,
    and the deletion of another link in between. *)
Lemma preload_example :
  let noNetwork := fun _ : string => Failed "unreachable" in
  let r :=
    preloadAll (fun _ _ => false)
      [Resolved noNetwork (mkLinks None (Some "magnet:?xt=urn:btih:abc") None None None);
       Unregistered "magnet:?xt=urn:btih:other";
       Resolved noNetwork (mkLinks None None None None (Some "magnet:?xt=urn:btih:abc"));
       Resolved noNetwork (mkLinks None None None None None)]
      emptyWorld in
  (addCount "magnet:?xt=urn:btih:abc" (snd r) <= 0 + 1)%nat /\
  List.map webTorrentReady (fst r) = [true; true; false].
Proof.
  intros noNetwork r.
  destruct (preload_adds_each_magnet_once (fun _ _ => false)
      [Resolved noNetwork (mkLinks None (Some "magnet:?xt=urn:btih:abc") None None None);
       Unregistered "magnet:?xt=urn:btih:other";
       Resolved noNetwork (mkLinks None None None None (Some "magnet:?xt=urn:btih:abc"));
       Resolved noNetwork (mkLinks None None None None None)]
      emptyWorld "magnet:?xt=urn:btih:abc") as (Honce & _).
  - reflexivity.
  - repeat constructor; discriminate.
  - split; [exact Honce|reflexivity].
Defined.

(** When [torrentClient.add] throws, the candidate is reported as ready
    although nothing is registered, and the next candidate with the same
    link calls [torrentClient.add] again. *)
Example preload_with_throwing_engine :
  let noNetwork := fun _ : string => Failed "unreachable" in
  let r :=
    preloadAll (fun _ _ => true)
      [Resolved noNetwork (mkLinks None (Some "magnet:?xt=urn:btih:abc") None None None);
       Resolved noNetwork (mkLinks None None None None (Some "magnet:?xt=urn:btih:abc"))]
      emptyWorld in
  List.map webTorrentReady (fst r) = [true; true] /\
  activeTorrents (snd r) !! "magnet:?xt=urn:btih:abc" = None /\
  addCount "magnet:?xt=urn:btih:abc" (snd r) = 2%nat.
Proof. vm_compute. repeat split. Qed.

(** After an [error] on its torrent or a clean-up the link is no longer
    registered, and the next candidate with the same link adds it
    again. *)
Example preload_after_torrent_error :
  let noNetwork := fun _ : string => Failed "unreachable" in
  let r :=
    preloadAll (fun _ _ => false)
      [Resolved noNetwork (mkLinks None (Some "magnet:?xt=urn:btih:abc") None None None);
       Unregistered "magnet:?xt=urn:btih:abc";
       Resolved noNetwork (mkLinks None None None None (Some "magnet:?xt=urn:btih:abc"))]
      emptyWorld in
  addCount "magnet:?xt=urn:btih:abc" (snd r) = 2%nat.
Proof. vm_compute. reflexivity. Qed.

End Preload.

(** ** One release per title: the deduplication in [/api/artist-details] *)

Module Releases.

(** A release of the metadata service, with [releaseType] as the loop over
    the release types has set it. *)
Record Release : Type := mkRelease {
  id : string;
  title : string;
  date : option string;
  trackCount : option Z;
  status : option string;
  barcode : option string;
  releaseType : string;
  country : option string
}.

(** [`${release.title.toLowerCase().trim()}-${release.releaseType}`] *)
Definition keyOf (r : Release) : string :=
  AlbumTrack.trim (Js.toLowerCase (title r)) +:+ "-" +:+ releaseType r.

(** [release.date], as a condition. *)
Definition dated (r : Release) : bool :=
  match Selector.hinted (date r) with Some _ => true | None => false end.

(** [a < b] on two strings: the order of the character codes. *)
Definition before (a b : string) : bool :=
  match String_as_OT.cmp a b with Lt => true | _ => false end.

(** [release.date && release.date < existing.date]: a comparison with a
    date that is missing is false. *)
Definition replaces (r existing : Release) : bool :=
  match Selector.hinted (date r), date existing with
  | Some d, Some e => before d e
  | _, _ => false
  end.

(** The [Map], in the order of insertion of its keys. *)
Fixpoint mapGet (key : string) (m : list (string * Release)) : option Release :=
  match m with
  | [] => None
  | (k, v) :: rest => if String.eqb k key then Some v else mapGet key rest
  end.

Fixpoint mapSet (key : string) (v : Release) (m : list (string * Release))
  : list (string * Release) :=
  match m with
  | [] => [(key, v)]
  | (k, x) :: rest =>
      if String.eqb k key then (k, v) :: rest else (k, x) :: mapSet key v rest
  end.

(** The body of the [forEach]. *)
Definition addRelease (m : list (string * Release)) (r : Release)
  : list (string * Release) :=
  match mapGet (keyOf r) m with
  | None => mapSet (keyOf r) r m
  | Some existing => if replaces r existing then mapSet (keyOf r) r m else m
  end.

Definition releasesMap (allReleases : list Release) : list (string * Release) :=
  fold_left addRelease allReleases [].

(** *** Properties *)

(** What one key holds, release after release. *)
Definition hold (existing r : Release) : Release :=
  if replaces r existing then r else existing.

Definition holder (existing : option Release) (r : Release) : option Release :=
  match existing with
  | None => Some r
  | Some o => Some (hold o r)
  end.

Definition dateOf (r : Release) : string := Js.orEmpty (date r).

Lemma mapGet_mapSet (key k : string) (v : Release) (m : list (string * Release)) :
  mapGet k (mapSet key v m) = if String.eqb key k then Some v else mapGet k m.
Proof.
  induction m as [|[k0 x] rest IH]; simpl.
  - reflexivity.
  - destruct (String.eqb_spec k0 key) as [->|Hne]; simpl.
    + destruct (String.eqb key k); reflexivity.
    + rewrite IH. destruct (String.eqb_spec k0 k) as [->|Hk]; [|reflexivity].
      apply String.eqb_neq in Hne. rewrite String.eqb_sym in Hne.
      now rewrite Hne.
Qed.

Lemma mapGet_addRelease (k : string) (m : list (string * Release)) (r : Release) :
  mapGet k (addRelease m r)
  = if String.eqb (keyOf r) k then holder (mapGet k m) r else mapGet k m.
Proof.
  unfold addRelease, holder, hold.
  destruct (String.eqb_spec (keyOf r) k) as [<-|Hne].
  - destruct (mapGet (keyOf r) m) as [o|] eqn:E.
    + destruct (replaces r o); [|exact E].
      now rewrite mapGet_mapSet, String.eqb_refl.
    + now rewrite mapGet_mapSet, String.eqb_refl.
  - apply String.eqb_neq in Hne.
    destruct (mapGet (keyOf r) m) as [o|].
    + destruct (replaces r o); [|reflexivity]. now rewrite mapGet_mapSet, Hne.
    + now rewrite mapGet_mapSet, Hne.
Qed.

Lemma mapGet_fold (k : string) (l : list Release) (m : list (string * Release)) :
  mapGet k (fold_left addRelease l m)
  = fold_left holder (List.filter (fun r => String.eqb (keyOf r) k) l) (mapGet k m).
Proof.
  revert m. induction l as [|r rest IH]; intros m; simpl; [reflexivity|].
  rewrite IH, mapGet_addRelease.
  destruct (String.eqb (keyOf r) k); reflexivity.
Qed.

Lemma holder_fold (l : list Release) (o : Release) :
  fold_left holder l (Some o) = Some (fold_left hold l o).
Proof. revert o. induction l as [|r rest IH]; intros o; simpl; auto. Qed.

Lemma before_false (a b : string) :
  before a b = false <-> Selector.codeOrder b a <= 0.
Proof.
  unfold before, Selector.codeOrder. rewrite (String_as_OT.cmp_antisym b a).
  destruct (String_as_OT.cmp a b); simpl; split; intros H;
    try reflexivity; try discriminate; lia.
Qed.

Lemma hold_undated (l : list Release) (o : Release) :
  dated o = false -> fold_left hold l o = o.
Proof.
  intros Ho. induction l as [|r rest IH]; simpl; [reflexivity|].
  assert (Hkeep : hold o r = o).
  { unfold hold, replaces.
    destruct (Selector.hinted (date r)) as [d|]; [|reflexivity].
    unfold dated, Selector.hinted in Ho.
    destruct (date o) as [e|]; [|reflexivity].
    destruct (String.eqb_spec e EmptyString) as [He|]; [|discriminate].
    rewrite He. unfold before. now destruct d. }
  now rewrite Hkeep.
Qed.

Lemma hold_dated (l : list Release) (o : Release) :
  dated o = true ->
  let e := fold_left hold l o in
  dated e = true /\ In e (o :: l) /\
  before (dateOf o) (dateOf e) = false /\
  forall r, In r l -> dated r = true -> before (dateOf r) (dateOf e) = false.
Proof.
  revert o. induction l as [|r rest IH]; intros o Ho e; subst e; simpl.
  - split; [exact Ho|]. split; [now left|]. split; [|intros r []].
    apply before_false, Selector.codeOrder_le. now left.
  - assert (Hnext : dated (hold o r) = true /\
              before (dateOf o) (dateOf (hold o r)) = false /\
              (dated r = true -> before (dateOf r) (dateOf (hold o r)) = false) /\
              (hold o r = o \/ hold o r = r)).
    { unfold hold, replaces, dated in *. unfold Selector.hinted in *.
      destruct (date r) as [d|] eqn:Er.
      - destruct (String.eqb_spec d EmptyString) as [->|Hd].
        + split; [exact Ho|]. split; [|split; [discriminate|now left]].
          apply before_false, Selector.codeOrder_le. now left.
        + destruct (date o) as [d0|] eqn:Eo; [|discriminate].
          destruct (before d d0) eqn:Hb.
          * rewrite Er. apply String.eqb_neq in Hd. rewrite Hd.
            split; [reflexivity|]. unfold dateOf. rewrite Er, Eo. simpl.
            split; [|split; [|now right]].
            -- apply before_false. unfold before in Hb.
               unfold Selector.codeOrder.
               destruct (String_as_OT.cmp d d0); try discriminate; lia.
            -- intros _. apply before_false, Selector.codeOrder_le. now left.
          * split; [rewrite Eo; exact Ho|]. unfold dateOf. rewrite Er, Eo. simpl.
            split; [|split; [intros _; exact Hb|now left]].
            apply before_false, Selector.codeOrder_le. now left.
      - split; [exact Ho|]. split; [|split; [discriminate|now left]].
        apply before_false, Selector.codeOrder_le. now left. }
    destruct Hnext as (Hd & Hle & Hr & Hwho).
    destruct (IH (hold o r) Hd) as (He & Hin & Hle2 & Hall).
    split; [exact He|]. split; [|split].
    + destruct Hin as [Hin|Hin]; [|now right; right].
      rewrite <- Hin. destruct Hwho as [->| ->]; [now left|now right; left].
    + apply before_false. apply before_false in Hle, Hle2.
      now apply Selector.codeOrder_trans with (dateOf (hold o r)).
    + intros r' [<-|Hr'] Hdr.
      * apply before_false. specialize (Hr Hdr). apply before_false in Hr, Hle2.
        now apply Selector.codeOrder_trans with (dateOf (hold o r)).
      * now apply Hall.
Qed.

(** Of the releases with the same title and type, one is kept. It is the
    first of them when that one has no date, whatever dates the others
    have; otherwise it is one with a date that none of the others comes
    before. *)
Theorem one_release_per_title (allReleases : list Release) (r : Release) :
  In r allReleases ->
  let same :=
    List.filter (fun x => String.eqb (keyOf x) (keyOf r)) allReleases in
  exists first rest kept,
    same = first :: rest /\
    mapGet (keyOf r) (releasesMap allReleases) = Some kept /\
    In kept allReleases /\ keyOf kept = keyOf r /\
    (dated first = false -> kept = first) /\
    (dated first = true ->
     dated kept = true /\
     forall x, In x same -> dated x = true ->
       before (dateOf x) (dateOf kept) = false).
Proof.
  intros Hr same.
  assert (Hin : In r same) by (apply filter_In; now rewrite String.eqb_refl).
  destruct same as [|first rest] eqn:Esame; [contradiction|].
  exists first, rest.
  assert (Hget : mapGet (keyOf r) (releasesMap allReleases)
                 = Some (fold_left hold rest first)).
  { unfold releasesMap. rewrite mapGet_fold. fold same. rewrite Esame.
    simpl. apply holder_fold. }
  assert (Hfrom : forall x, In x (first :: rest) ->
            In x allReleases /\ keyOf x = keyOf r).
  { intros x Hx. rewrite <- Esame in Hx. unfold same in Hx.
    apply filter_In in Hx. destruct Hx as [Hx Hk].
    apply String.eqb_eq in Hk. now split. }
  destruct (dated first) eqn:Hfirst.
  - destruct (hold_dated rest first Hfirst) as (He & Hmem & Hle & Hall).
    exists (fold_left hold rest first).
    split; [reflexivity|]. split; [exact Hget|].
    destruct (Hfrom _ Hmem) as [Hal Hkey].
    split; [exact Hal|]. split; [exact Hkey|]. split; [discriminate|].
    intros _. split; [exact He|].
    intros x [<-|Hx] Hdx; [exact Hle|now apply Hall].
  - exists first. rewrite (hold_undated rest first Hfirst) in Hget.
    split; [reflexivity|]. split; [exact Hget|].
    destruct (Hfrom first (or_introl eq_refl)) as [Hal Hkey].
    split; [exact Hal|]. split; [exact Hkey|]. split; [reflexivity|discriminate].
Qed.

(** Two editions of one album, the first without a date. *)
Definition edition (i : string) (d : option string) : Release :=
  mkRelease i "Blue  " d None None None "album" None.

Lemma one_release_per_title_example :
  mapGet "blue-album"
    (releasesMap [edition "a" None; edition "b" (Some "1999-01-01")])
  = Some (edition "a" None).
Proof.
  destruct (one_release_per_title
              [edition "a" None; edition "b" (Some "1999-01-01")]
              (edition "b" (Some "1999-01-01")))
    as (first & rest & kept & Hsame & Hget & _ & _ & Hundated & _).
  - right. now left.
  - injection Hsame as <- _. rewrite (Hundated eq_refl) in Hget. exact Hget.
Defined.

End Releases.

(** ** Track numbers across the endpoints: [POST /api/torrent-tracks] *)

Module TrackListing.
Import Swarm Selector AlbumTrack.

(** What the endpoint sends once the torrent is at hand. The [duration] of
    an entry is always [null] and is left out. *)
Inductive Answer : Type :=
| NoAudio
| Listing (torrentName : string) (trackListing : list Track) (totalTracks : Z).

Definition torrentTracks
  (localeCompare : string -> string -> Z) (torrent : Handle) : Answer :=
  let audioFiles := List.filter isAudio (files torrent) in
  if Nat.eqb (List.length audioFiles) 0 then NoAudio
  else
    Listing (torrentName torrent)
      (imap (fun i f => mkTrack (Z.of_nat i + 1) (name f) (fileLength f))
         (sortedAudioFiles localeCompare audioFiles))
      (Z.of_nat (List.length audioFiles)).

Lemma takeWhile_all (p : ascii -> bool) (s : string) :
  Js.allChars p s = true -> Js.takeWhile p s = s.
Proof.
  induction s as [|c r IH]; simpl; [reflexivity|].
  intros H. apply andb_prop in H. destruct H as [Hc Hr].
  now rewrite Hc, (IH Hr).
Qed.

(** The hint [Track k] carries the track number [k]. *)
Lemma trackNumberOf_track (k : Z) :
  0 <= k -> trackNumberOf ("Track " +:+ Js.numberToString k) = Some k.
Proof.
  intros Hk. unfold trackNumberOf.
  rewrite SelectorPaths.trackNumberMatch_firstDigits.
  destruct (numberToString_digits k Hk) as (c & r & E & Hd).
  assert (Hfirst : SelectorPaths.firstDigits ("Track " +:+ Js.numberToString k)
                   = Js.numberToString k).
  { change ("Track " +:+ Js.numberToString k)
      with (String "T" (String "r" (String "a" (String "c" (String "k"
              (String " " (Js.numberToString k))))))).
    rewrite !SelectorPaths.firstDigits_skip by reflexivity.
    unfold SelectorPaths.firstDigits. rewrite E.
    pose proof Hd as Hd'. cbn [Js.allChars] in Hd'. apply andb_prop in Hd'.
    destruct Hd' as [Hc _]. cbn [Js.dropWhile]. rewrite Hc. cbn [negb].
    now apply takeWhile_all. }
  rewrite Hfirst, E. cbn [SelectorPaths.nonEmptyText]. rewrite <- E.
  now apply parseInt_numberToString.
Qed.

(** The three endpoints number the tracks of a torrent alike. The entry
    with index [k] of the track listing names the file that
    [/api/play-album-track] plays for the track index [k], unless a file
    has exactly the requested name, and the file that the selection of
    [/api/stream-torrent] takes for the hint [Track k] at its track-number
    stage; the album tracks in the answer of [/api/play-album-track] are
    the track listing. *)
Theorem track_numbers_agree
  (localeCompare : string -> string -> Z) (torrent : Handle) (k : Z)
  (albumName : string) (listing : list Track) (total : Z) (entry : Track) :
  torrentTracks localeCompare torrent = Listing albumName listing total ->
  1 <= k ->
  listing !! Z.to_nat (k - 1) = Some entry ->
  index entry = k /\ k <= total /\
  (forall body, trackIndex body = Some k ->
     byExactName body
       (sortedAudioFiles localeCompare (List.filter isAudio (files torrent)))
     = None ->
     exists info,
       playAlbumTrack localeCompare torrent body = Play info /\
       playingIndex info = k /\ fileName info = trackFile entry /\
       fileSize info = trackSize entry /\ albumTracks info = listing) /\
  (exists f,
     byTrackNumber localeCompare ("Track " +:+ Js.numberToString k)
       (List.filter isAudio (files torrent)) = Some f /\
     name f = trackFile entry /\ fileLength f = trackSize entry).
Proof.
  unfold torrentTracks. cbv zeta.
  set (audioFiles := List.filter isAudio (files torrent)).
  set (sorted := sortedAudioFiles localeCompare audioFiles).
  destruct (Nat.eqb_spec (List.length audioFiles) 0) as [|Hlen]; [discriminate|].
  intros H Hk Hentry. injection H as _ <- <-.
  rewrite list_lookup_imap in Hentry.
  destruct (sorted !! Z.to_nat (k - 1)) as [f|] eqn:Hf; [|discriminate].
  cbn in Hentry. injection Hentry as <-. cbn [index trackFile trackSize].
  assert (Hrange : (Z.to_nat (k - 1) < List.length audioFiles)%nat).
  { apply lookup_lt_Some in Hf. unfold sorted in Hf.
    now rewrite sorted_length in Hf. }
  assert (Hsorted : List.length sorted = List.length audioFiles)
    by apply sorted_length.
  split; [lia|]. split; [lia|]. split.
  - intros body Hindex Hexact.
    assert (Htarget : targetIndex body sorted = Z.to_nat (k - 1)).
    { unfold targetIndex. rewrite Hexact. unfold byIndex.
      rewrite Hindex, Hsorted.
      destruct (Z.leb_spec 1 k); [|lia].
      destruct (Z.leb_spec k (Z.of_nat (List.length audioFiles))); [|lia].
      reflexivity. }
    unfold playAlbumTrack. cbv zeta. fold audioFiles. fold sorted.
    destruct (Nat.eqb_spec (List.length sorted) 0) as [Hz|_]; [lia|].
    rewrite Htarget, Hf. eexists. split; [reflexivity|].
    cbn [playingIndex fileName fileSize albumTracks].
    repeat split. lia.
  - exists f. unfold byTrackNumber.
    rewrite trackNumberOf_track by lia. fold sorted. rewrite Hsorted.
    destruct (Z.ltb_spec 0 k); [|lia].
    destruct (Z.leb_spec k (Z.of_nat (List.length audioFiles))); [|lia].
    cbn [andb]. rewrite Hf. repeat split.
Qed.

Lemma track_numbers_example :
  exists f,
    byTrackNumber codeOrder "Track 2" fiveTracks = Some f /\
    name f = "b.mp3" /\ fileLength f = 0.
Proof.
  destruct (track_numbers_agree codeOrder (mkHandle 0 "album" fiveTracks true) 2
              "album"
              [mkTrack 1 "a.flac" 0; mkTrack 2 "b.mp3" 0; mkTrack 3 "c.mp3" 0;
               mkTrack 4 "d.mp3" 0; mkTrack 5 "e.mp3" 0]
              5 (mkTrack 2 "b.mp3" 0))
    as (_ & _ & _ & Hstage).
  - reflexivity.
  - lia.
  - reflexivity.
  - exact Hstage.
Defined.

End TrackListing.

(** ** The indexer search of a torrent-search job:
    [searchMultipleTorrentQueries] *)

Module IndexerSearch.
Import Exn Ranking Jobs JobResults.

(** [searchMultipleTorrentQueries]. [searchProwlarr] answers a query with
    the results of the indexer, or, when the request fails, with an object
    that holds the error ([None]); spreading that object throws, and the
    [catch] of the loop goes on with the next query. *)
Definition searchMultipleTorrentQueries
  (searchProwlarr : string -> option (list Torrent)) (searchQueries : list string)
  : list Torrent :=
  List.flat_map
    (fun query =>
       match searchProwlarr query with
       | Some results => results
       | None => []
       end)
    (Js.slice0 6 searchQueries).

(** The outside world of a torrent-search job, with the indexer search
    that the code uses. *)
Definition worldOf
  (recordings : Completion (list Recording))
  (searchProwlarr : string -> option (list Torrent)) : SearchWorld :=
  mkSearchWorld recordings
    (fun queries => Normal (searchMultipleTorrentQueries searchProwlarr queries)).

(** A failing indexer never makes a torrent-search job fail. The job ends
    [completed]; when every query fails, its result says that no suitable
    torrent was found; and when one of the first six queries returns a
    candidate with a seeder, the result names a best candidate that scores
    at least as high. Queries after the sixth are not sent. *)
Theorem indexer_failures_do_not_fail_the_job
  (recordings : Completion (list Recording))
  (searchProwlarr : string -> option (list Torrent))
  (store : gmap string Job) (jobId trackTitle artistName : string)
  (albumTitle : option string) :
  let world := worldOf recordings searchProwlarr in
  let details := trackDetailsOf world trackTitle in
  let artist := enhancedArtist details artistName in
  let track := enhancedTrack details trackTitle in
  let album := enhancedAlbum details albumTitle in
  let queries := buildQueries artist track album in
  exists j payload,
    finalJob jobId
      (snd (searchJob world jobId trackTitle artistName albumTitle
              (mkMem store [])))
    = Some j /\
    status j = Some completed /\ error j = None /\ result j = Some payload /\
    ((forall q, In q (Js.slice0 6 queries) -> searchProwlarr q = None) ->
     payload = NoSuitableTorrents) /\
    (forall q results t,
       In q (Js.slice0 6 queries) -> searchProwlarr q = Some results ->
       In t results -> hasActiveSeeder t = true ->
       exists best alternatives sent totalFound afterFiltering,
         payload = BestTorrent best alternatives sent totalFound afterFiltering /\
         sent = Js.slice0 6 queries /\
         scoreLight
           (Js.toLowerCase (artist +:+ " " +:+ track +:+ " " +:+ Js.orEmpty album))
           t
         <= lightScore best).
Proof.
  intros world details artist track album queries.
  destruct (search_job_completes world store jobId trackTitle artistName
              albumTitle (searchMultipleTorrentQueries searchProwlarr queries)
              eq_refl)
    as (j & payload & Hfinal & Hstatus & _ & Herror & _ & Hresult & Hdesc).
  fold details artist track album in Hdesc.
  exists j, payload.
  split; [exact Hfinal|]. split; [exact Hstatus|]. split; [exact Herror|].
  split; [exact Hresult|].
  assert (Hfound : forall q results t,
            In q (Js.slice0 6 queries) -> searchProwlarr q = Some results ->
            In t results ->
            In t (searchMultipleTorrentQueries searchProwlarr queries)).
  { intros q results t Hq Hres Ht. unfold searchMultipleTorrentQueries.
    apply in_flat_map. exists q. split; [exact Hq|]. now rewrite Hres. }
  split.
  - intros Hdown.
    assert (Hnone : searchMultipleTorrentQueries searchProwlarr queries = []).
    { unfold searchMultipleTorrentQueries. revert Hdown.
      generalize (Js.slice0 6 queries). intros sent.
      induction sent as [|q rest IH]; intros Hdown; [reflexivity|].
      cbn [flat_map]. rewrite (Hdown q (or_introl eq_refl)).
      apply IH. intros q' Hq'. apply Hdown. now right. }
    destruct payload as [|best alternatives sent total kept|info];
      [reflexivity| |contradiction].
    cbn [describes] in Hdesc. destruct Hdesc as (_ & _ & _ & _ & Hin & _).
    rewrite Hnone in Hin. contradiction.
  - intros q results t Hq Hres Ht Hseed.
    specialize (Hfound q results t Hq Hres Ht).
    destruct payload as [|best alternatives sent total kept|info];
      cbn [describes] in Hdesc.
    + rewrite (Hdesc t Hfound) in Hseed. discriminate.
    + destruct Hdesc as (_ & _ & _ & Hsent & _ & _ & _ & Hbest).
      exists best, alternatives, sent, total, kept.
      split; [reflexivity|]. split; [exact Hsent|now apply Hbest].
    + contradiction.
Qed.

End IndexerSearch.
